(** * statmorph: a shallow embedding of the per-source morphology engine

    The Python module [statmorph.py] measures non-parametric morphological
    diagnostics of one labelled source.  This development embeds the parts
    of it that carry its control flow and its quality-flag bookkeeping:

    - floating-point numbers are idealised as rationals ([Q]); the values
      NaN and the two infinities are kept apart in [fval] wherever the
      source tests for them ([np.isfinite], [np.isnan]);
    - 2-D arrays are row lists ([list (list _)]);
    - a method of [SourceMorphology] that writes [self.flag],
      [self.flag_sersic] or [self._skybox_size] is a computation in the
      monad [M] over the record [state]; a Python exception is the outcome
      [Raised], a [while True] loop is a fixpoint on a fuel counter and
      [OutOfFuel] is the outcome of a run that has not returned yet;
    - the numeric capabilities the module imports (aperture photometry,
      Brent's root finder, convolution, image rotation, square root, and
      for the later parts filters, region labelling, logarithm and
      basin hopping) are
      the operations of one type class per imported library: every
      theorem holds for any implementation of them.

    Part I holds the embedding, Part II small reference implementations of
    the capabilities (used to run the embedding on concrete stamps),
    Part III the vocabulary of the properties, Part IV the properties
    the specification claims, with their proofs, and Part V further
    properties of the code. *)

From Stdlib Require Import String.
From Stdlib Require Import ZArith QArith Qabs Qround Qminmax.
From Stdlib Require Import List Bool Lia Lqa Permutation.
Import ListNotations.

Set Implicit Arguments.

(** * Part I: the embedding *)

(** ** Numbers *)

Module Num.

Local Open Scope Q_scope.

(** A float: finite (idealised as a rational), NaN, or an infinity. *)
Inductive fval : Type :=
| Fin (q : Q)
| NaN
| PInf
| NInf.

Definition isfinite (x : fval) : bool :=
  match x with Fin _ => true | _ => false end.

Definition isnan (x : fval) : bool :=
  match x with NaN => true | _ => false end.

Definition Qltb (x y : Q) : bool := negb (Qle_bool y x).

(** Arithmetic on floats, with the IEEE rules for the special values
    (the sign of a zero is not tracked: [x / 0] takes the sign of [x]). *)
Definition fneg (x : fval) : fval :=
  match x with
  | Fin q => Fin (- q)
  | NaN => NaN
  | PInf => NInf
  | NInf => PInf
  end.

Definition fabs (x : fval) : fval :=
  match x with
  | Fin q => Fin (Qabs q)
  | NaN => NaN
  | PInf | NInf => PInf
  end.

Definition fadd (x y : fval) : fval :=
  match x, y with
  | Fin a, Fin b => Fin (a + b)
  | NaN, _ | _, NaN => NaN
  | PInf, NInf | NInf, PInf => NaN
  | PInf, _ | _, PInf => PInf
  | NInf, _ | _, NInf => NInf
  end.

Definition fsub (x y : fval) : fval := fadd x (fneg y).

(** The infinity of the sign of [q], NaN for [q = 0]. *)
Definition inf_of_sign (q : Q) : fval :=
  if Qeq_bool q 0 then NaN else if Qltb 0 q then PInf else NInf.

Definition fmul (x y : fval) : fval :=
  match x, y with
  | Fin a, Fin b => Fin (a * b)
  | NaN, _ | _, NaN => NaN
  | Fin a, PInf | PInf, Fin a => inf_of_sign a
  | Fin a, NInf | NInf, Fin a => inf_of_sign (- a)
  | PInf, PInf | NInf, NInf => PInf
  | PInf, NInf | NInf, PInf => NInf
  end.

Definition fdiv (x y : fval) : fval :=
  match x, y with
  | Fin a, Fin b => if Qeq_bool b 0 then inf_of_sign a else Fin (a / b)
  | NaN, _ | _, NaN => NaN
  | Fin _, (PInf | NInf) => Fin 0
  | PInf, Fin b => if Qltb b 0 then NInf else PInf
  | NInf, Fin b => if Qltb b 0 then PInf else NInf
  | (PInf | NInf), (PInf | NInf) => NaN
  end.

(** [x > y] and [x <= 0.0] on floats: false as soon as a NaN is compared. *)
Definition fgt (x y : fval) : bool :=
  match x, y with
  | Fin a, Fin b => Qltb b a
  | NaN, _ | _, NaN => false
  | PInf, (Fin _ | NInf) => true
  | Fin _, NInf => true
  | _, _ => false
  end.

Definition fle0 (x : fval) : bool :=
  match x with
  | Fin q => Qle_bool q 0
  | NInf => true
  | NaN | PInf => false
  end.

(** [np.sum] of a 1-D array of finite values, and of floats. *)
Fixpoint Qsum (l : list Q) : Q :=
  match l with
  | [] => 0
  | x :: l' => x + Qsum l'
  end.

Definition fsum (l : list fval) : fval := fold_left fadd l (Fin 0).

Definition Qof_nat (n : nat) : Q := inject_Z (Z.of_nat n).

(** [np.mean] of a 1-D array of floats: NaN on an empty array. *)
Definition fmean (l : list fval) : fval := fdiv (fsum l) (Fin (Qof_nat (length l))).

(** [np.floor(x) + 0.5] *)
Definition floor_half (x : Q) : Q := inject_Z (Qfloor x) + 0.5.

End Num.
Import Num.

(** ** Arrays *)

Module Arr.

(** [a.flatten()] of a 2-D array. *)
Definition flatten {A} (a : list (list A)) : list A := List.concat a.

(** [a[m]] for a 1-D array [a] and a boolean array [m] of its length. *)
Fixpoint mask_select {A} (a : list A) (m : list bool) : list A :=
  match a, m with
  | x :: a', b :: m' => if b then x :: mask_select a' m' else mask_select a' m'
  | _, _ => []
  end.

(** [a[lo:hi]] for [0 <= lo] and [0 <= hi]; Python clips at the end. *)
Definition slice {A} (lo hi : Z) (a : list A) : list A :=
  firstn (Z.to_nat hi - Z.to_nat lo) (skipn (Z.to_nat lo) a).

(** [a[r0:r1, c0:c1]]. *)
Definition slice2 {A} (r0 r1 c0 c1 : Z) (a : list (list A)) : list (list A) :=
  map (slice c0 c1) (slice r0 r1 a).

(** [ny, nx = a.shape] *)
Definition shape {A} (a : list (list A)) : Z * Z :=
  (Z.of_nat (length a), Z.of_nat (length (hd [] a))).

(** [np.sum] of a boolean 2-D array: the number of [True] entries. *)
Definition count_true (a : list (list bool)) : Z :=
  Z.of_nat (length (filter (fun b => b) (flatten a))).

(** Pointwise combination of two arrays of one shape. *)
Fixpoint zip_with {A B C} (f : A -> B -> C) (a : list A) (b : list B) : list C :=
  match a, b with
  | x :: a', y :: b' => f x y :: zip_with f a' b'
  | _, _ => []
  end.

Definition map2d {A B} (f : A -> B) (a : list (list A)) : list (list B) :=
  map (map f) a.

Definition zip2d {A B C} (f : A -> B -> C)
    (a : list (list A)) (b : list (list B)) : list (list C) :=
  zip_with (zip_with f) a b.

(** [np.all] and [np.any] of a boolean 2-D array. *)
Definition all2d (a : list (list bool)) : bool := forallb (forallb (fun b => b)) a.
Definition any2d (a : list (list bool)) : bool := existsb (existsb (fun b => b)) a.

(** [range(lo, hi)]. *)
Definition range (lo hi : Z) : list Z :=
  map (fun k => (lo + Z.of_nat k)%Z) (seq 0 (Z.to_nat (hi - lo))).

End Arr.
Import Arr.

Definition image : Type := list (list Q).
Definition bmask : Type := list (list bool).
(** A position [(x, y)] in stamp coordinates. *)
Definition point : Type := (Q * Q)%type.

(** ** The object state and the monad of methods *)

(** The attributes of a [SourceMorphology] object that its methods
    assign after construction has started. *)
Record state : Type := mkState {
  flag : Z;            (* self.flag *)
  flag_sersic : Z;     (* self.flag_sersic *)
  _skybox_size : Z     (* self._skybox_size, halved by _slice_skybox *)
}.

Inductive exn : Type :=
| AssertionError
| ValueError
| Exception (msg : string).

(** The result of a module-level function: a value or an exception. *)
Inductive result (A : Type) : Type :=
| Ok (a : A)
| Error (e : exn).
Arguments Ok {A} a.
Arguments Error {A} e.

(** The outcome of a method run from a state. *)
Inductive outcome (A : Type) : Type :=
| Returned (a : A) (s : state)
| Raised (e : exn) (s : state)
| OutOfFuel.
Arguments Returned {A} a s.
Arguments Raised {A} e s.
Arguments OutOfFuel {A}.

Definition M (A : Type) : Type := state -> outcome A.

Definition ret {A} (a : A) : M A := fun s => Returned a s.

Definition bind {A B} (m : M A) (k : A -> M B) : M B :=
  fun s =>
    match m s with
    | Returned a s' => k a s'
    | Raised e s' => Raised e s'
    | OutOfFuel => OutOfFuel
    end.

Definition raise {A} (e : exn) : M A := fun s => Raised e s.

Definition diverge {A} : M A := fun _ => OutOfFuel.

(** [self.flag = 1] *)
Definition set_flag : M unit :=
  fun s => Returned tt (mkState 1 (flag_sersic s) (_skybox_size s)).

(** [self.flag = max(self.flag, f)] *)
Definition max_flag (f : Z) : M unit :=
  fun s => Returned tt (mkState (Z.max (flag s) f) (flag_sersic s) (_skybox_size s)).

(** [self.flag_sersic = 1] *)
Definition set_flag_sersic : M unit :=
  fun s => Returned tt (mkState (flag s) 1 (_skybox_size s)).

Definition get_skybox_size : M Z := fun s => Returned (_skybox_size s) s.

(** [self._skybox_size = v] *)
Definition put_skybox_size (v : Z) : M unit :=
  fun s => Returned tt (mkState (flag s) (flag_sersic s) v).

(** [assert(b)] *)
Definition assert (b : bool) : M unit :=
  if b then ret tt else raise AssertionError.

(** [if b: m] *)
Definition when (b : bool) (m : M unit) : M unit :=
  if b then m else ret tt.

(** A module-level function called from a method. *)
Definition lift {A} (r : result A) : M A :=
  match r with
  | Ok a => ret a
  | Error e => raise e
  end.

Declare Scope monad_scope.
Delimit Scope monad_scope with monad.
Notation "x <- m ;; k" := (bind m (fun x => k))
  (at level 61, m at next level, right associativity) : monad_scope.
Notation "' pat <- m ;; k" := (bind m (fun x => match x with pat => k end))
  (at level 61, pat pattern, m at next level, right associativity) : monad_scope.
Notation "m ;; k" := (bind m (fun _ => k))
  (at level 61, right associativity) : monad_scope.
Local Open Scope monad_scope.

(** [for x in l: f(x)] *)
Fixpoint for_each {A} (l : list A) (f : A -> M unit) : M unit :=
  match l with
  | [] => ret tt
  | x :: l' => f x ;; for_each l' f
  end.

(** The state an outcome ends in, when it has one. *)
Definition final_state {A} (o : outcome A) : option state :=
  match o with
  | Returned _ s | Raised _ s => Some s
  | OutOfFuel => None
  end.

(** ** The imported capabilities *)

(** The aperture objects of [photutils]. *)
Inductive aperture : Type :=
| CircularAperture (center : point) (r : Q)
| CircularAnnulus (center : point) (r_in r_out : Q)
| EllipticalAperture (center : point) (a b theta : Q)
| EllipticalAnnulus (center : point) (a_in a_out b_out theta : Q).

Class Photutils : Type := {
  (** [ap.do_photometry(image, method='exact')[0][0]] *)
  do_photometry : aperture -> image -> Q;
  (** [ap.area()] *)
  area : aperture -> Q
}.

Class Scipy : Type := {
  (** [opt.brentq(f, a, b, xtol=1e-6)]: the root it returns, and the
      abscissae at which it evaluates [f], in order. *)
  brentq : (Q -> Q) -> Q -> Q -> Q;
  brentq_evals : (Q -> Q) -> Q -> Q -> list Q;
  (** [ndi.convolve(image, w)] *)
  convolve : list (list fval) -> list (list Q) -> list (list fval)
}.

Class Skimage : Type := {
  (** [skimage.transform.rotate(image, 180.0, center=center)] *)
  rotate180 : image -> point -> image
}.

Class Numpy : Type := {
  (** [np.sqrt] on a non-negative finite float *)
  np_sqrt : Q -> Q
}.

(** [np.sqrt] on any float. *)
Definition fsqrt `{Numpy} (x : fval) : fval :=
  match x with
  | Fin q => if Qltb q 0 then NaN else Fin (np_sqrt q)
  | PInf => PInf
  | NaN | NInf => NaN
  end.

(** The keyword arguments of [SourceMorphology.__init__] that the embedded
    methods read ([skybox_size] is the initial [_skybox_size] of [state]). *)
Record config : Type := mkConfig {
  _remove_outliers : bool;
  _n_sigma_outlier : Q;
  _annulus_width : Q;
  _eta : Q;
  _border_size : Z;
  _petro_extent_circ : Q;
  _segmap_overlap_ratio : Q
}.

(** ** Module-level helpers (lines 43-119) *)

Section Helpers.

Context `{Photutils} `{Scipy}.
Local Open Scope Q_scope.

Definition _aperture_area (ap : aperture) (mask : bmask) : Q :=
  do_photometry ap (map2d (fun b : bool => if negb b then 1 else 0) mask).

Definition _aperture_mean_nomask (ap : aperture) (img : image) : Q :=
  do_photometry ap img / area ap.

Definition _fraction_of_total_function (r : Q) (img : image) (center : point)
    (fraction total_sum : Q) : Q :=
  let ap := CircularAperture center r in
  let ap_sum := Qabs (do_photometry ap img) in
  ap_sum / total_sum - fraction.

Definition npoints : nat := 100.

(** [np.linspace(start, stop, num=num)[i]] *)
Definition linspace (start stop : Q) (num i : nat) : Q :=
  start + Qof_nat i * ((stop - start) / Qof_nat (num - 1)).

(** How a coarse scan ends: on a root found by chance, or on a bracket
    [r_min, r_max] handed to the root finder. *)
Inductive bracket : Type :=
| Chance (r : Q)
| Bracket (r_min r_max : Q).

(** The [while True] loop of [_radius_at_fraction_of_total] (lines 97-114).
    [todo] is [npoints - i]: the loop raises when it is exhausted. *)
Fixpoint fraction_scan (f : Q -> Q) (r_grid : nat -> Q) (todo i : nat)
    (r_min : option Q) (flag : Z) : result (bracket * Z) :=
  match todo with
  | O => Error (Exception "Root not found within range.")
  | S todo' =>
      let r := r_grid i in
      let curval := f r in
      if Qeq_bool curval 0 then Ok (Chance r, flag)
      else if Qltb curval 0 then fraction_scan f r_grid todo' (S i) (Some r) flag
      else
        match r_min with
        | None => fraction_scan f r_grid todo' (S i) None 1%Z
        | Some r_min => Ok (Bracket r_min r, flag)
        end
  end.

Definition _radius_at_fraction_of_total (img : image) (center : point)
    (r_total fraction : Q) : result (fval * Z) :=
  let flag := 0%Z in
  let center := (floor_half (fst center), floor_half (snd center)) in
  let ap_total := CircularAperture center r_total in
  let total_sum := do_photometry ap_total img in
  if Qle_bool total_sum 0 then Ok (NaN, 1%Z)
  else
    let r_inner := Qmin 0.5 (0.2 * r_total) in
    if negb (Qltb r_inner r_total) then Error AssertionError
    else
      let f := fun r => _fraction_of_total_function r img center fraction total_sum in
      let r_grid := linspace r_inner r_total npoints in
      match fraction_scan f r_grid npoints 0 None flag with
      | Error e => Error e
      | Ok (Chance r, flag) => Ok (Fin r, flag)
      | Ok (Bracket r_min r_max, flag) => Ok (Fin (brentq f r_min r_max), flag)
      end.

(** [opt.brentq] on a bound method: the callback runs, with its writes to
    the object, at each abscissa the root finder visits. *)
Definition brentq_method (f : Q -> M Q) (a b : Q) : M Q :=
  fun s =>
    let value := fun x => match f x s with Returned v _ => v | _ => 0 end in
    (for_each (brentq_evals value a b) (fun x => _ <- f x ;; ret tt) ;;
     ret (brentq value a b)) s.

End Helpers.

(** ** Petrosian radii (lines 500-701) *)

Section Petrosian.

Context `{Photutils} `{Scipy} `{Numpy}.
Variable cfg : config.
(** The cached property [_cutout_stamp_maskzeroed]. *)
Variable cutout : image.
Local Open Scope Q_scope.

Definition _diagonal_distance : Q :=
  let '(ny, nx) := shape cutout in
  np_sqrt (inject_Z (nx ^ 2 + ny ^ 2)).

Definition _petrosian_function_circ (r : Q) (center : point) : M Q :=
  let r_in := r - 0.5 * _annulus_width cfg in
  let r_out := r + 0.5 * _annulus_width cfg in
  assert (Qle_bool 0 r_in) ;;
  let circ_annulus := CircularAnnulus center r_in r_out in
  let circ_aperture := CircularAperture center r in
  let circ_annulus_mean_flux := Qabs (_aperture_mean_nomask circ_annulus cutout) in
  let circ_aperture_mean_flux := Qabs (_aperture_mean_nomask circ_aperture cutout) in
  ratio <- (if Qeq_bool circ_aperture_mean_flux 0
            then set_flag ;; ret 1
            else ret (circ_annulus_mean_flux / circ_aperture_mean_flux)) ;;
  ret (ratio - _eta cfg).

(** The [while True] loop shared, up to the names of its variables, by
    [_rpetro_circ_generic] (lines 564-581) and [_rpetro_ellip_generic]
    (lines 669-686). *)
Fixpoint petro_scan (f : Q -> M Q) (r_outer dr : Q) (fuel : nat)
    (r : Q) (r_min : option Q) : M bracket :=
  match fuel with
  | O => diverge
  | S fuel' =>
      when (Qle_bool r_outer r) set_flag ;;
      curval <- f r ;;
      if Qeq_bool curval 0 then ret (Chance r)
      else if Qltb 0 curval then petro_scan f r_outer dr fuel' (r + dr) (Some r)
      else
        match r_min with
        | None => set_flag ;; petro_scan f r_outer dr fuel' (r + dr) None
        | Some r_min => ret (Bracket r_min r)
        end
  end.

Definition _rpetro_circ_generic (fuel : nat) (center : point) : M Q :=
  let r_inner := _annulus_width cfg in
  let r_outer := _diagonal_distance in
  assert (Qltb r_inner r_outer) ;;
  let dr := (r_outer - r_inner) / Qof_nat (npoints - 1) in
  let f := fun r => _petrosian_function_circ r center in
  b <- petro_scan f r_outer dr fuel r_inner None ;;
  match b with
  | Chance r => ret r
  | Bracket r_min r_max => brentq_method f r_min r_max
  end.

Definition _petrosian_function_ellip (a : Q) (center : point)
    (elongation theta : Q) : M Q :=
  let b := a / elongation in
  let a_in := a - 0.5 * _annulus_width cfg in
  let a_out := a + 0.5 * _annulus_width cfg in
  assert (Qle_bool 0 a_in) ;;
  let b_out := a_out / elongation in
  let ellip_annulus := EllipticalAnnulus center a_in a_out b_out theta in
  let ellip_aperture := EllipticalAperture center a b theta in
  let ellip_annulus_mean_flux := Qabs (_aperture_mean_nomask ellip_annulus cutout) in
  let ellip_aperture_mean_flux := Qabs (_aperture_mean_nomask ellip_aperture cutout) in
  ratio <- (if Qeq_bool ellip_aperture_mean_flux 0
            then set_flag ;; ret 1
            else ret (ellip_annulus_mean_flux / ellip_aperture_mean_flux)) ;;
  ret (ratio - _eta cfg).

Definition _rpetro_ellip_generic (fuel : nat) (center : point)
    (elongation theta : Q) : M Q :=
  let a_inner := _annulus_width cfg in
  let a_outer := _diagonal_distance in
  assert (Qltb a_inner a_outer) ;;
  let da := (a_outer - a_inner) / Qof_nat (npoints - 1) in
  let f := fun a => _petrosian_function_ellip a center elongation theta in
  b <- petro_scan f a_outer da fuel a_inner None ;;
  match b with
  | Chance a => ret a
  | Bracket a_min a_max => brentq_method f a_min a_max
  end.

End Petrosian.

(** ** Gini coefficient and signal-to-noise (lines 754-772, 817-838) *)

Section GiniM20.

Context `{Numpy}.
Local Open Scope Q_scope.

(** [np.sort] of a 1-D array of finite values. *)
Fixpoint insert (x : Q) (l : list Q) : list Q :=
  match l with
  | [] => [x]
  | y :: l' => if Qle_bool x y then x :: y :: l' else y :: insert x l'
  end.

Fixpoint np_sort (l : list Q) : list Q :=
  match l with
  | [] => []
  | x :: l' => insert x (np_sort l')
  end.

(** [np.arange(lo, hi)] as floats. *)
Definition arange (lo hi : Z) : list Q := map inject_Z (range lo hi).

(** [np.sort(np.abs(image[segmap]))] on the flattened stamp and segmap. *)
Definition sorted_pixelvals (cutout : image) (segmap_gini : bmask) : list Q :=
  let image := flatten cutout in
  let segmap := flatten segmap_gini in
  np_sort (map Qabs (mask_select image segmap)).

(** The lazy property [gini].  Its two inputs are the cached properties
    [_cutout_stamp_maskzeroed] and [_segmap_gini]. *)
Definition gini (cutout : image) (segmap_gini : bmask) : M Q :=
  let sorted_pixelvals := sorted_pixelvals cutout segmap_gini in
  let n := length sorted_pixelvals in
  if (n <=? 1)%nat || Qeq_bool (Qsum sorted_pixelvals) 0 then
    set_flag ;;
    ret (-99)
  else
    let indices := arange 1 (Z.of_nat n + 1) in
    ret (Qsum (zip_with Qmult
                 (map (fun i => 2 * i - Qof_nat n - 1) indices)
                 sorted_pixelvals)
         / (Qof_nat (n - 1) * Qsum sorted_pixelvals)).

(** The variance array [sn_per_pixel] works with (lines 827-830). *)
Definition effective_variance (variance : image) : image :=
  if any2d (map2d (fun v => Qltb v 0) variance)
  then map2d Qabs variance
  else variance.

(** The lazy property [sn_per_pixel], on the branch where a variance array
    was given: [variance] is [self._variance[self._slice_stamp]], finite
    after the constructor; [sky_sigma] is the cached [_sky_sigma], NaN
    when there is no skybox. *)
Definition sn_per_pixel (cutout : image) (segmap_gini : bmask)
    (variance : image) (sky_sigma : fval) : M fval :=
  let locs := zip2d andb segmap_gini (map2d (fun x => Qle_bool 0 x) cutout) in
  let pixelvals := mask_select (flatten cutout) (flatten locs) in
  let variance := effective_variance variance in
  let snp :=
    fmean (zip_with
             (fun p v => fdiv (Fin p) (fsqrt (fadd (Fin v) (fmul sky_sigma sky_sigma))))
             pixelvals
             (mask_select (flatten variance) (flatten locs))) in
  if negb (isfinite snp) then
    set_flag ;;
    ret (Fin (-99))
  else ret snp.

End GiniM20.

(** ** Sky box (lines 844-889) *)

Section Skybox.

Variable cfg : config.
(** [self._props._segment_img.data[self._slice_stamp]] and, when a mask was
    given, [self._props._mask[self._slice_stamp]]. *)
Variable segmap : list (list Z).
Variable mask_opt : option bmask.
Local Open Scope Z_scope.

(** [(slice(i0, i1), slice(j0, j1))] *)
Definition boxslice : Type := ((Z * Z) * (Z * Z))%type.

Definition skybox_mask : bmask :=
  match mask_opt with
  | Some m => m
  | None => map2d (fun _ => false) segmap
  end.

(** [np.all(segmap[boxslice] == 0) and np.all(~mask[boxslice])] *)
Definition box_is_sky (b : boxslice) : bool :=
  let '((i0, i1), (j0, j1)) := b in
  all2d (map2d (fun v => v =? 0) (slice2 i0 i1 j0 j1 segmap))
  && all2d (map2d negb (slice2 i0 i1 j0 j1 skybox_mask)).

Fixpoint find_first {A B} (f : A -> option B) (l : list A) : option B :=
  match l with
  | [] => None
  | x :: l' =>
      match f x with
      | Some b => Some b
      | None => find_first f l'
      end
  end.

(** The two nested [for] loops (lines 866-873): the first sky box of side
    [size] in row-major order, if there is one. *)
Definition find_skybox (size : Z) : option boxslice :=
  let '(ny, nx) := shape segmap in
  let b := _border_size cfg in
  find_first
    (fun i =>
       find_first
         (fun j =>
            let boxslice := ((i, i + size), (j, j + size)) in
            if box_is_sky boxslice then Some boxslice else None)
         (range b (nx - b - size)))
    (range b (ny - b - size)).

(** The [while True] loop (lines 865-886). *)
Fixpoint skybox_loop (fuel : nat) : M boxslice :=
  match fuel with
  | O => diverge
  | S fuel' =>
      size <- get_skybox_size ;;
      match find_skybox size with
      | Some boxslice => ret boxslice
      | None =>
          let b := _border_size cfg in
          if size <? b then
            set_flag ;;
            ret ((b, b + size), (b, b + size))
          else
            put_skybox_size (size / 2) ;;
            skybox_loop fuel'
      end
  end.

(** The lazy property [_slice_skybox].  The border and box sizes are
    non-negative pixel counts. *)
Definition _slice_skybox (fuel : nat) : M boxslice :=
  let '(ny, nx) := shape segmap in
  let b := _border_size cfg in
  if (nx <? 2 * b) || (ny <? 2 * b) then
    set_flag ;;
    ret ((0, 0), (0, 0))
  else skybox_loop fuel.

End Skybox.

(** ** The asymmetry function (lines 955-1033) *)

(** The [kind] argument: ['cas'], ['outer'] or ['shape']. *)
Inductive kind : Type := Cas | Outer | Shape.

(** The lazy properties [_asymmetry_function] reads, as cached values. *)
Record lazy_values : Type := mkLazy {
  lv_mask_stamp : bmask;            (* self._mask_stamp *)
  lv_rpetro_circ_centroid : Q;      (* self._rpetro_circ_centroid *)
  lv_half_light_radius : fval;      (* self.half_light_radius *)
  lv_rmax : fval;                   (* self.rmax *)
  lv_sky_asymmetry : fval           (* self._sky_asymmetry *)
}.

(** The number a finite float stands for: the radius handed to an aperture
    constructor once the guards of lines 1003 and 1008 have let it
    through. *)
Definition finite_part (x : fval) : Q :=
  match x with
  | Fin q => q
  | _ => 0
  end.

Section Asymmetry.

Context `{Photutils} `{Skimage}.
Variable cfg : config.
Variable lv : lazy_values.
Local Open Scope Q_scope.

(** The symmetric mask of lines 989-992. *)
Definition mask_symmetric (center : point) : bmask :=
  let mask := lv_mask_stamp lv in
  let mask_180 := rotate180 (map2d (fun b : bool => if b then 1 else 0) mask) center in
  let mask_180 := map2d (fun v => Qle_bool 0.5 v) mask_180 in
  zip2d orb mask mask_180.

(** Lines 996-1013: the aperture of the chosen kind, or [None] where the
    source returns the invalid value at once. *)
Definition select_aperture (center : point) (k : kind) : option aperture :=
  match k with
  | Cas =>
      let r := _petro_extent_circ cfg * lv_rpetro_circ_centroid lv in
      Some (CircularAperture center r)
  | Outer =>
      let r_in := lv_half_light_radius lv in
      let r_out := lv_rmax lv in
      if isnan r_in || isnan r_out || fle0 r_in || fle0 r_out then None
      else Some (CircularAnnulus center (finite_part r_in) (finite_part r_out))
  | Shape =>
      if isnan (lv_rmax lv) || fle0 (lv_rmax lv) then None
      else Some (CircularAperture center (finite_part (lv_rmax lv)))
  end.

(** The two masked images of lines 993-994. *)
Definition masked_image (center : point) (img : image) : image :=
  zip2d (fun (m : bool) v => if negb m then v else 0) (mask_symmetric center) img.

Definition masked_image_180 (center : point) (img : image) : image :=
  zip2d (fun (m : bool) v => if negb m then v else 0) (mask_symmetric center)
        (rotate180 img center).

(** The two aperture sums of lines 1016-1017. *)
Definition ap_abs_sum (ap : aperture) (center : point) (img : image) : Q :=
  do_photometry ap (map2d Qabs (masked_image center img)).

Definition ap_abs_diff (ap : aperture) (center : point) (img : image) : Q :=
  do_photometry ap
    (map2d Qabs (zip2d Qminus (masked_image_180 center img) (masked_image center img))).

Definition _asymmetry_function (center : point) (img : image) (k : kind) : M Q :=
  let '(ny, nx) := shape img in
  let '(xc, yc) := center in
  if Qltb xc 0 || Qle_bool (inject_Z nx) xc || Qltb yc 0 || Qle_bool (inject_Z ny) yc then
    set_flag ;;
    ret 100
  else
    match select_aperture center k with
    | None =>
        set_flag ;;
        ret (-99)
    | Some ap =>
        let ap_abs_sum := ap_abs_sum ap center img in
        let ap_abs_diff := ap_abs_diff ap center img in
        if Qeq_bool ap_abs_sum 0 then
          set_flag ;;
          ret (-99)
        else
          match k with
          | Shape => ret (ap_abs_diff / ap_abs_sum)
          | _ =>
              match lv_sky_asymmetry lv with
              | Fin sky_asymmetry =>
                  let ap_area := _aperture_area ap (mask_symmetric center) in
                  ret ((ap_abs_diff - ap_area * sky_asymmetry) / ap_abs_sum)
              | _ => ret (ap_abs_diff / ap_abs_sum)
              end
          end
    end.

End Asymmetry.

(** ** Radii at a fraction of the light, rmax (lines 1144-1160, 1562-1579,
    1657-1682) *)

Section Radii.

Context `{Photutils} `{Scipy} `{Numpy}.
Variable cfg : config.
Variable cutout : image.
(** The cached property [_asymmetry_center]. *)
Variable asymmetry_center : point.
Local Open Scope Q_scope.

(** [rpetro_circ] is the cached property of that name. *)
Definition _radius_at_fraction_of_total_cas (rpetro_circ fraction : Q) : M fval :=
  let r_upper := _petro_extent_circ cfg * rpetro_circ in
  '(r, flag) <- lift (_radius_at_fraction_of_total cutout asymmetry_center r_upper fraction) ;;
  max_flag flag ;;
  if isnan r || fle0 r then
    set_flag ;;
    ret (Fin (-99))
  else ret r.

(** Distances from all pixel centres to the snapped centre (lines 1668-1672). *)
Definition distances : list (list Q) :=
  let '(ny, nx) := shape cutout in
  let xc := floor_half (fst asymmetry_center) in
  let yc := floor_half (snd asymmetry_center) in
  map (fun i =>
         map (fun j =>
                let ypos := inject_Z i + 0.5 in
                let xpos := inject_Z j + 0.5 in
                np_sqrt ((ypos - yc) ^ 2 + (xpos - xc) ^ 2))
             (range 0 nx))
      (range 0 ny).

(** The lazy property [rmax]; [np.max] raises on an empty selection. *)
Definition rmax (segmap_shape_asym : bmask) : M Q :=
  match mask_select (flatten distances) (flatten segmap_shape_asym) with
  | [] => raise ValueError
  | d :: ds =>
      let rmax := fold_left Qmax ds d in
      when (Qltb rmax 1)
        (assert (Qeq_bool rmax 0) ;;
         set_flag) ;;
      ret rmax
  end.

(** The lazy property [half_light_radius]; [rmax_value] is the cached
    property [rmax]. *)
Definition half_light_radius (rmax_value : Q) : M fval :=
  if Qeq_bool rmax_value 0 then ret (Fin 0)
  else
    '(r, flag) <- lift (_radius_at_fraction_of_total cutout asymmetry_center rmax_value 0.5) ;;
    max_flag flag ;;
    ret r.

End Radii.

(** ** Segmap cross-check (lines 346-364) *)

Definition _check_segmaps (cfg : config)
    (_segmap_gini _segmap_mid _segmap_shape_asym : bmask) : M unit :=
  let area_max := Z.max (Z.max (count_true _segmap_gini) (count_true _segmap_mid))
                        (count_true _segmap_shape_asym) in
  let area_overlap :=
    count_true (zip2d andb (zip2d andb _segmap_gini _segmap_mid) _segmap_shape_asym) in
  if (area_max =? 0)%Z then set_flag
  else
    let area_ratio := (inject_Z area_overlap / inject_Z area_max)%Q in
    when (Qltb area_ratio (_segmap_overlap_ratio cfg)) set_flag.

(** ** Construction (lines 214-260, 291-318) *)

(** The caller's arrays, which the constructor receives by reference. *)
Record arrays : Type := mkArrays {
  arr_image : list (list fval);
  arr_segmap : list (list Z);
  arr_mask : option bmask;
  arr_variance : option (list (list fval))
}.

(** What the constructor has assigned on the new object by line 260. *)
Record object : Type := mkObject {
  num_badpixels : Z;
  obj_mask : bmask;          (* the local [mask] handed to SourceProperties *)
  obj_state : state
}.

Section Construction.

Context `{Scipy} `{Numpy}.
Variable cfg : config.
Local Open Scope Q_scope.

(** [a[locs] = 0.0], in place. *)
Definition zero_where (locs : bmask) (a : list (list fval)) : list (list fval) :=
  zip2d (fun (b : bool) x => if b then Fin 0 else x) locs a.

(** [_remove_badpixels]: the image it returns is the array it was given,
    written in place, and the number of pixels it zeroed. *)
Definition _remove_badpixels (img : list (list fval)) : list (list fval) * Z :=
  let w := [[1 # 8; 1 # 8; 1 # 8]; [1 # 8; 0; 1 # 8]; [1 # 8; 1 # 8; 1 # 8]] in
  let local_mean := convolve img w in
  let local_mean2 := convolve (map2d (fun x => fmul x x) img) w in
  let local_std :=
    map2d fsqrt (zip2d fsub local_mean2 (map2d (fun m => fmul m m) local_mean)) in
  let bad_pixels :=
    zip2d fgt (map2d fabs (zip2d fsub img local_mean))
              (map2d (fmul (Fin (_n_sigma_outlier cfg))) local_std) in
  let img := zero_where bad_pixels img in
  let num_badpixels := count_true bad_pixels in
  (img, num_badpixels).

(** [SourceMorphology.__init__] up to line 260: the constructor's writes to
    the caller's arrays and its first assignments on the object.  The
    remaining lines read the arrays through [self._props] and run the
    methods above. *)
Definition __init__ (skybox_size : Z) (caller : arrays) : arrays * object :=
  let image := arr_image caller in
  let variance := arr_variance caller in
  let locs_invalid := map2d (fun x => negb (isfinite x)) image in
  let locs_invalid :=
    match variance with
    | Some v => zip2d orb locs_invalid (map2d (fun x => negb (isfinite x)) v)
    | None => locs_invalid
    end in
  let variance := option_map (zero_where locs_invalid) variance in
  let image := zero_where locs_invalid image in
  let mask :=
    match arr_mask caller with
    | Some m => m
    | None => map2d (fun _ => false) image
    end in
  let mask := zip2d orb mask locs_invalid in
  let num_badpixels := (-1)%Z in
  let '(image, num_badpixels) :=
    if _remove_outliers cfg then _remove_badpixels image
    else (image, num_badpixels) in
  (mkArrays image (arr_segmap caller) (arr_mask caller) variance,
   mkObject num_badpixels mask (mkState 0 0 skybox_size)).

End Construction.

(** ** Further module-level helpers and cutouts (lines 24-33, 366-460) *)

(** [IndexError], raised by an index out of range; it is kept apart from
    the other exceptions by its message. *)
Definition IndexError : exn := Exception "IndexError".

(** [ZeroDivisionError], raised by the division of Python floats. *)
Definition ZeroDivisionError : exn := Exception "ZeroDivisionError".

(** [int(x)] and [np.int64(x)] of a float: truncation towards zero. *)
Definition py_int (x : Q) : Z := Z.quot (Qnum x) (Zpos (Qden x)).

(** [_quantile(sorted_values, q)] (lines 24-33). *)
Definition _quantile (sorted_values : list Q) (q : Q) : result Q :=
  if negb (Qle_bool 0 q && Qle_bool q 1) then Error AssertionError
  else if Qeq_bool q 1 then
    match sorted_values with
    | [] => Error IndexError
    | _ => Ok (last sorted_values 0%Q)
    end
  else
    match nth_error sorted_values
            (Z.to_nat (py_int (q * Qof_nat (length sorted_values)))) with
    | Some v => Ok v
    | None => Error IndexError
    end.

(** What the methods read of [self._props], the [SourceProperties] object
    built at line 256: the image, the segmentation map, the mask, the
    label, the centroid [(y, x)] and the bounding box
    [(ymin, xmin, ymax, xmax)] of the labelled segment. *)
Record source_props : Type := mkProps {
  props_data : image;
  props_segment_img : list (list Z);
  props_mask : option bmask;
  props_label : Z;
  props_centroid : Q * Q;
  props_bbox : (Z * Z) * (Z * Z)
}.

Section Stamp.

Variable props : source_props.
Local Open Scope Z_scope.

(** The lazy property [_slice_stamp] (lines 366-388); [cutout_extent] is
    the constructor's keyword argument. *)
Definition _slice_stamp (cutout_extent : Q) : result boxslice :=
  let '(yc, xc) := (py_int (fst (props_centroid props)),
                    py_int (snd (props_centroid props))) in
  let '((ymin, xmin), (ymax, xmax)) := props_bbox props in
  let dist := Z.max (Z.max (Z.max (xmax - xc) (xc - xmin)) (ymax - yc)) (yc - ymin) in
  if negb (Qle_bool 1 cutout_extent) then Error AssertionError
  else
    let dist := py_int (inject_Z dist * cutout_extent) in
    let '(ny, nx) := shape (props_data props) in
    Ok ((Z.max 0 (yc - dist), Z.min ny (yc + dist + 1)),
        (Z.max 0 (xc - dist), Z.min nx (xc + dist + 1))).

(** [a[slice_stamp]] *)
Definition stamp_of {A} (slice_stamp : boxslice) (a : list (list A)) : list (list A) :=
  let '((y0, y1), (x0, x1)) := slice_stamp in
  slice2 y0 y1 x0 x1 a.

Variable slice_stamp : boxslice.

(** The lazy properties of lines 390-460, [slice_stamp] being the cached
    [_slice_stamp]. *)
Definition _mask_stamp : bmask :=
  let segmap_stamp := stamp_of slice_stamp (props_segment_img props) in
  let mask_stamp :=
    map2d (fun v => negb (v =? 0) && negb (v =? props_label props)) segmap_stamp in
  match props_mask props with
  | Some mask => zip2d orb mask_stamp (stamp_of slice_stamp mask)
  | None => mask_stamp
  end.

Definition _mask_stamp_no_bg : bmask :=
  let segmap_stamp := stamp_of slice_stamp (props_segment_img props) in
  let mask_stamp := map2d (fun v => negb (v =? props_label props)) segmap_stamp in
  match props_mask props with
  | Some mask => zip2d orb mask_stamp (stamp_of slice_stamp mask)
  | None => mask_stamp
  end.

(** [np.where(~mask, a, 0.0)] *)
Definition where_unmasked (mask : bmask) (a : image) : image :=
  zip2d (fun (m : bool) v => if negb m then v else 0%Q) mask a.

Definition _cutout_stamp_maskzeroed : image :=
  where_unmasked _mask_stamp (stamp_of slice_stamp (props_data props)).

Definition _cutout_stamp_maskzeroed_no_bg : image :=
  where_unmasked _mask_stamp_no_bg _cutout_stamp_maskzeroed.

(** [a[~mask]]: the entries of [a] at the unmasked positions. *)
Definition unmasked_values (mask : bmask) (a : image) : list Q :=
  mask_select (flatten a) (flatten (map2d negb mask)).

Definition _cutout_stamp_maskzeroed_no_bg_nonnegative : image :=
  let image := _cutout_stamp_maskzeroed_no_bg in
  map2d (fun v => if Qltb 0 v then v else 0%Q) image.

Definition _sorted_pixelvals_stamp_no_bg_nonnegative : list Q :=
  let image := _cutout_stamp_maskzeroed_no_bg_nonnegative in
  np_sort (unmasked_values _mask_stamp_no_bg image).

End Stamp.

(** ** Sky statistics (lines 891-936) *)

Section Sky.

Context `{Numpy}.
(** The cached properties [_cutout_stamp_maskzeroed] and [_slice_skybox]. *)
Variable cutout : image.
Variable slice_skybox : boxslice.
Local Open Scope Q_scope.

(** [bkg.size] *)
Definition size2d {A} (a : list (list A)) : nat := length (flatten a).

Definition _sky_mean : fval :=
  let bkg := stamp_of slice_skybox cutout in
  if (size2d bkg =? 0)%nat then NaN
  else Fin (Qsum (flatten bkg) / Qof_nat (size2d bkg)).

(** [np.std(bkg)]: the root of the mean squared deviation from the mean. *)
Definition _sky_sigma : fval :=
  let bkg := stamp_of slice_skybox cutout in
  if (size2d bkg =? 0)%nat then NaN
  else
    let n := Qof_nat (size2d bkg) in
    let mean := Qsum (flatten bkg) / n in
    Fin (np_sqrt (Qsum (map (fun x => (x - mean) ^ 2) (flatten bkg)) / n)).

Definition _sky_asymmetry : fval :=
  let bkg := stamp_of slice_skybox cutout in
  let bkg_180 := rev (map (@rev Q) bkg) in
  if (size2d bkg =? 0)%nat then NaN
  else Fin (Qsum (flatten (map2d Qabs (zip2d Qminus bkg_180 bkg)))
            / Qof_nat (size2d bkg)).

End Sky.

(** ** Concentration, smoothness, intensity (lines 1162-1214, 1513-1525) *)

Class NumpyLog : Type := {
  (** [np.log10] on a positive finite float *)
  np_log10 : Q -> Q
}.

Class Ndimage : Type := {
  (** [ndi.uniform_filter(image, size=size)] *)
  uniform_filter : image -> Z -> image;
  (** [ndi.label(a, structure=s)[0]] for the 8-connected structure [s]:
      the labelled array, 0 outside the regions. *)
  ndi_label : bmask -> list (list Z)
}.

Section CasStatistics.

Context `{Photutils} `{Scipy} `{NumpyLog} `{Ndimage}.
Variable cfg : config.
Variable cutout : image.
Variable asymmetry_center : point.
(** The cached property [rpetro_circ]. *)
Variable rpetro_circ : Q.
Local Open Scope Q_scope.

(** [x == -99.0] on a float. *)
Definition is_invalid (x : fval) : bool :=
  match x with
  | Fin q => Qeq_bool q (-99)
  | _ => false
  end.

(** [np.log10(x)] on any float. *)
Definition flog10 (x : fval) : fval :=
  match x with
  | Fin q => if Qltb 0 q then Fin (np_log10 q)
             else if Qeq_bool q 0 then NInf else NaN
  | PInf => PInf
  | NaN | NInf => NaN
  end.

Definition r_20 : M fval := _radius_at_fraction_of_total_cas cfg cutout asymmetry_center rpetro_circ 0.2.

Definition r_80 : M fval := _radius_at_fraction_of_total_cas cfg cutout asymmetry_center rpetro_circ 0.8.

(** The lazy property [concentration]; it is the first to read [r_20] and
    [r_80], and the [or] of line 1181 reads [r_80] only when [r_20] is
    valid. *)
Definition concentration : M fval :=
  r20 <- r_20 ;;
  if is_invalid r20 then ret (Fin (-99))
  else
    r80 <- r_80 ;;
    if is_invalid r80 then ret (Fin (-99))
    else ret (fmul (Fin 5) (flog10 (fdiv r80 r20))).

(** The lazy property [_sky_smoothness]; [slice_skybox] is the cached
    [_slice_skybox]. *)
Definition _sky_smoothness (slice_skybox : boxslice) (petro_fraction_cas : Q) : fval :=
  let bkg := stamp_of slice_skybox cutout in
  if (size2d bkg =? 0)%nat then NaN
  else
    let boxcar_size := py_int (petro_fraction_cas * rpetro_circ) in
    let bkg_smooth := uniform_filter bkg boxcar_size in
    Fin (Qsum (flatten (map2d Qabs (zip2d Qminus bkg_smooth bkg)))
         / Qof_nat (size2d bkg)).

(** The lazy property [smoothness]; [petro_fraction_cas] is the
    constructor's keyword argument, [sky_smoothness] the cached
    [_sky_smoothness]. *)
Definition smoothness (petro_fraction_cas : Q) (sky_smoothness : fval) : M fval :=
  let r := _petro_extent_circ cfg * rpetro_circ in
  let ap := CircularAperture asymmetry_center r in
  let image := cutout in
  let boxcar_size := py_int (petro_fraction_cas * rpetro_circ) in
  let image_smooth := uniform_filter image boxcar_size in
  let ap_abs_flux := do_photometry ap (map2d Qabs image) in
  let ap_abs_diff := do_photometry ap (map2d Qabs (zip2d Qminus image_smooth image)) in
  let S :=
    match sky_smoothness with
    | Fin sky => fdiv (Fin (ap_abs_diff - area ap * sky)) (Fin ap_abs_flux)
    | _ => Fin (-99)
    end in
  if negb (isfinite S) then
    set_flag ;;
    ret (Fin (-99))
  else ret S.

End CasStatistics.

(** ** The MID statistics (lines 1338-1456, 1493-1525) *)

(** [a[i]] for an integer [i]: a negative index counts from the end, an
    index out of range raises [IndexError] ([None] here). *)
Definition np_index {A} (l : list A) (i : Z) : option A :=
  let n := Z.of_nat (length l) in
  if ((0 <=? i) && (i <? n))%Z then nth_error l (Z.to_nat i)
  else if ((- n <=? i) && (i <? 0))%Z then nth_error l (Z.to_nat (n + i))
  else None.

(** [a[i, j]] *)
Definition np_index2 {A} (a : list (list A)) (i j : Z) : option A :=
  match np_index a i with
  | Some row => np_index row j
  | None => None
  end.

Section MidSegmap.

Context `{Ndimage}.
(** The cached properties [_cutout_stamp_maskzeroed_no_bg_nonnegative] and
    [_sorted_pixelvals_stamp_no_bg_nonnegative], and the position of the
    brightest pixel in the stamp. *)
Variable cutout_nonnegative : image.
Variable sorted_pixelvals_nonnegative : list Q.
Variable y_maxval_stamp x_maxval_stamp : Q.

Definition _segmap_mid_main_clump (q : Q) : result bmask :=
  match _quantile sorted_pixelvals_nonnegative q with
  | Error e => Error e
  | Ok threshold =>
      let above_threshold := map2d (fun v => Qle_bool threshold v) cutout_nonnegative in
      let ic := py_int y_maxval_stamp in
      let jc := py_int x_maxval_stamp in
      let labeled_array := ndi_label above_threshold in
      match np_index2 labeled_array ic jc with
      | None => Error IndexError
      | Some l =>
          if (l =? 0)%Z then Error AssertionError
          else Ok (map2d (fun v => (v =? l)%Z) labeled_array)
      end
  end.

(** The lazy property [_cutout_mid]; [segmap_mid] is the cached
    [_segmap_mid]. *)
Definition _cutout_mid (segmap_mid : bmask) : image :=
  zip2d (fun (m : bool) v => if m then v else 0%Q) segmap_mid cutout_nonnegative.

End MidSegmap.

(** [np.sort] of an integer array. *)
Fixpoint insert_count (x : Z) (l : list Z) : list Z :=
  match l with
  | [] => [x]
  | y :: l' => if (x <=? y)%Z then x :: y :: l' else y :: insert_count x l'
  end.

Fixpoint sort_counts (l : list Z) : list Z :=
  match l with
  | [] => []
  | x :: l' => insert_count x (sort_counts l')
  end.

(** [np.unique(a, return_counts=True)[1]]: how often each distinct value
    of [a] occurs, the values taken in increasing order. *)
Definition unique_counts (a : list Z) : list Z :=
  map (fun u => Z.of_nat (count_occ Z.eq_dec a u)) (sort_counts (nodup Z.eq_dec a)).

(** [np.arange(start, stop, step)] on floats. *)
Definition arange_step (start stop step : Q) : list Q :=
  map (fun k => start + Qof_nat k * step)%Q
      (seq 0 (Z.to_nat (Qceiling ((stop - start) / step)))).

Class ScipyOptimize : Type := {
  (** [opt.basinhopping(f, x0, minimizer_kwargs={"method": "Nelder-Mead"},
      niter=niter, T=T, stepsize=stepsize, interval=niter/2,
      disp=False).x[0]], an exception of [f] passing through. *)
  basinhopping : (Q -> result Q) -> Q -> Z -> Q -> Q -> result Q
}.

(** How the brute-force stage of [multimode] ends: on the [return 0.0] of
    line 1432, or on the [break] of line 1427 with the values the second
    stage starts from. *)
Inductive stage1 : Type :=
| SingleClump
| Start (q0 ratio_min mid_stepsize : Q).

Section Multimode.

Context `{Ndimage} `{ScipyOptimize}.
(** The cached properties [_cutout_mid] and [_sorted_pixelvals_mid], and
    the keyword argument [niter_bh_mid]. *)
Variable cutout_mid : image.
Variable sorted_pixelvals_mid : list Q.
Variable niter_bh_mid : Z.
Local Open Scope Q_scope.

Definition _multimode_function (q : Q) : result (list Z) :=
  match _quantile sorted_pixelvals_mid q with
  | Error e => Error e
  | Ok threshold =>
      let above_threshold := map2d (fun v => Qle_bool threshold v) cutout_mid in
      let labeled_array := ndi_label above_threshold in
      let labeled_array_nonzero :=
        filter (fun l => negb (l =? 0)%Z) (flatten labeled_array) in
      let counts := unique_counts labeled_array_nonzero in
      let sorted_counts := rev (sort_counts counts) in
      Ok sorted_counts
  end.

Definition _multimode_ratio (q : Q) : result Q :=
  let invalid := Qsum (flatten cutout_mid) in
  if Qltb q 0 || Qltb 1 q then Ok invalid
  else
    match _multimode_function q with
    | Error e => Error e
    | Ok sorted_counts =>
        if (length sorted_counts =? 1)%nat then Ok invalid
        else
          match sorted_counts with
          | a1 :: a2 :: _ =>
              if (a1 =? 0)%Z then Error ZeroDivisionError
              else Ok (-1 * inject_Z a2 ^ 2 / inject_Z a1)
          | _ => Error IndexError
          end
    end.

(** The [for] loop of lines 1421-1422: the ratios in the order of the
    quantiles, or the first exception. *)
Fixpoint ratio_array (quantile_array : list Q) : result (list Q) :=
  match quantile_array with
  | [] => Ok []
  | q :: qs =>
      match _multimode_ratio q with
      | Error e => Error e
      | Ok r =>
          match ratio_array qs with
          | Error e => Error e
          | Ok rs => Ok (r :: rs)
          end
      end
  end.

(** [np.argmin]: the first entry with the least ratio, [best] being the
    least so far. *)
Fixpoint argmin (best : Q * Q) (l : list (Q * Q)) : Q * Q :=
  match l with
  | [] => best
  | x :: l' => if Qltb (snd x) (snd best) then argmin x l' else argmin best l'
  end.

(** The [while True] loop of lines 1418-1435. *)
Fixpoint brute_force (fuel : nat) (mid_stepsize : Q) : M stage1 :=
  match fuel with
  | O => diverge
  | S fuel' =>
      let quantile_array := arange_step 0 1 mid_stepsize in
      ratio_array <- lift (ratio_array quantile_array) ;;
      match combine quantile_array ratio_array with
      | [] => raise ValueError
      | x :: l =>
          let '(q0, ratio_min) := argmin x l in
          if Qltb ratio_min 0 then ret (Start q0 ratio_min mid_stepsize)
          else if Qltb mid_stepsize 0.001 then
            set_flag ;;
            ret SingleClump
          else brute_force fuel' (mid_stepsize / 2)
      end
  end.

(** The lazy property [multimode]. *)
Definition multimode (fuel : nat) : M Q :=
  st <- brute_force fuel 0.02 ;;
  match st with
  | SingleClump => ret 0
  | Start q0 ratio_min mid_stepsize =>
      let mid_bh_rel_temp := 0.5 in
      let temperature := -1 * mid_bh_rel_temp * ratio_min in
      q_final <- lift (basinhopping _multimode_ratio q0 niter_bh_mid
                         temperature mid_stepsize) ;;
      sorted_counts <- lift (_multimode_function q_final) ;;
      match sorted_counts with
      | a1 :: a2 :: _ =>
          if (a1 =? 0)%Z then raise ZeroDivisionError
          else ret (inject_Z a2 / inject_Z a1)
      | _ => raise IndexError
      end
  end.

End Multimode.

(** The first component of the lazy property [_intensity_sums]:
    [labeled_array] and [peak_labels] come from the cached
    [_watershed_mid], [cutout_mid_smooth] is the cached property of that
    name. *)
Definition sorted_flux_sums (labeled_array : list (list Z)) (peak_labels : list Z)
    (cutout_mid_smooth : image) : list Q :=
  let flux_sums :=
    map (fun label =>
           let locs := map2d (fun l => (l =? label)%Z) labeled_array in
           Qsum (mask_select (flatten cutout_mid_smooth) (flatten locs)))
        peak_labels in
  rev (np_sort flux_sums).

(** The lazy property [intensity]; [sorted_flux_sums] is the first
    component of the cached [_intensity_sums]. *)
Definition intensity (sorted_flux_sums : list Q) : fval :=
  match sorted_flux_sums with
  | [] | [_] => Fin 0
  | s0 :: s1 :: _ => fdiv (Fin s1) (Fin s0)
  end.

(** * Part II: reference implementations of the capabilities

    Small executable stand-ins, used to run the embedding on concrete
    stamps.  Photometry sums the pixels whose centre lies in the aperture
    (the [center] method of [photutils]); the root finder is a bisection;
    the convolution handles 3x3 kernels with reflected borders; the
    rotation is exact for a centre on the half-pixel grid; the square root
    is exact on squares of rationals. *)

Module Reference.

Local Open Scope Q_scope.

Definition pi_approx : Q := 355 # 113.

(** Is the point [(x, y)] inside the ellipse of centre [c], semi-axes [a]
    and [b], rotated by [t]?  The rotation uses [cos t = 1 - t^2/2] and
    [sin t = t], exact at [t = 0]. *)
Definition in_ellipse (x y : Q) (c : point) (a b t : Q) : bool :=
  let dx := x - fst c in
  let dy := y - snd c in
  let u := dx * (1 - t * t / 2) + dy * t in
  let v := dy * (1 - t * t / 2) - dx * t in
  Qle_bool (u * u * (b * b) + v * v * (a * a)) (a * a * (b * b)).

(** Is the centre of pixel [(i, j)] inside the aperture? *)
Definition inside (ap : aperture) (i j : nat) : bool :=
  let x := Qof_nat j + 0.5 in
  let y := Qof_nat i + 0.5 in
  match ap with
  | CircularAperture c r => in_ellipse x y c r r 0
  | CircularAnnulus c r_in r_out =>
      in_ellipse x y c r_out r_out 0 && negb (in_ellipse x y c r_in r_in 0)
  | EllipticalAperture c a b t => in_ellipse x y c a b t
  | EllipticalAnnulus c a_in a_out b_out t =>
      in_ellipse x y c a_out b_out t
      && negb (in_ellipse x y c a_in (b_out * a_in / a_out) t)
  end.

(** The list [l] with the position of each entry. *)
Definition indexed {A} (l : list A) : list (nat * A) := combine (seq 0 (length l)) l.

(** The aperture with its numbers in lowest terms. *)
Definition reduced (ap : aperture) : aperture :=
  let pt (c : point) := (Qred (fst c), Qred (snd c)) in
  match ap with
  | CircularAperture c r => CircularAperture (pt c) (Qred r)
  | CircularAnnulus c r_in r_out => CircularAnnulus (pt c) (Qred r_in) (Qred r_out)
  | EllipticalAperture c a b t => EllipticalAperture (pt c) (Qred a) (Qred b) (Qred t)
  | EllipticalAnnulus c a_in a_out b_out t =>
      EllipticalAnnulus (pt c) (Qred a_in) (Qred a_out) (Qred b_out) (Qred t)
  end.

Definition center_photometry (ap : aperture) (img : image) : Q :=
  let ap := reduced ap in
  Qsum (map (fun '(i, row) =>
               Qsum (map (fun '(j, v) => if inside ap i j then v else 0) (indexed row)))
            (indexed img)).

Definition aperture_area (ap : aperture) : Q :=
  match reduced ap with
  | CircularAperture _ r => pi_approx * r * r
  | CircularAnnulus _ r_in r_out => pi_approx * (r_out * r_out - r_in * r_in)
  | EllipticalAperture _ a b _ => pi_approx * a * b
  | EllipticalAnnulus _ a_in a_out b_out _ =>
      pi_approx * (a_out * b_out - a_in * (b_out * a_in / a_out))
  end.

(** Bisection on [a, b], [f a] and [f b] of opposite signs: the
    abscissae visited, and the last midpoint. *)
Fixpoint bisect (f : Q -> Q) (n : nat) (a b : Q) : list Q :=
  match n with
  | O => []
  | S n' =>
      let m := Qred ((a + b) / 2) in
      m :: (if Qltb (f a * f m) 0 then bisect f n' a m else bisect f n' m b)
  end.

Definition bisect_evals (f : Q -> Q) (a b : Q) : list Q := a :: b :: bisect f 20 a b.

Definition bisect_root (f : Q -> Q) (a b : Q) : Q := last (bisect f 20 a b) a.

(** Index reflection at the borders of an axis of length [n]. *)
Definition reflect (n : nat) (k : Z) : nat :=
  if (k <? 0)%Z then 0%nat
  else if (Z.of_nat n <=? k)%Z then (n - 1)%nat
  else Z.to_nat k.

Definition pixel_at (img : list (list fval)) (i j : Z) : fval :=
  let row := nth (reflect (length img) i) img [] in
  nth (reflect (length row) j) row (Fin 0).

Definition convolve3 (img : list (list fval)) (w : list (list Q)) : list (list fval) :=
  map (fun '(i, row) =>
         map (fun '(j, _) =>
                fsum (map (fun '(a, b) =>
                             fmul (Fin (nth b (nth a w []) 0))
                                  (pixel_at img (Z.of_nat i + 1 - Z.of_nat a)
                                                (Z.of_nat j + 1 - Z.of_nat b)))
                          (list_prod (seq 0 3) (seq 0 3))))
             (indexed row))
      (indexed img).

(** Rotation by 180 degrees about [(cx, cy)], pixel centres at integer
    coordinates as in [skimage]; zero outside the image. *)
Definition rotate_half_turn (img : image) (c : point) : image :=
  let at_ (i j : Z) : Q :=
    if (i <? 0)%Z || (j <? 0)%Z then 0
    else
      match nth_error img (Z.to_nat i) with
      | Some row => nth (Z.to_nat j) row 0
      | None => 0
      end in
  map (fun '(i, row) =>
         map (fun '(j, _) =>
                at_ (Qfloor (2 * snd c) - Z.of_nat i)%Z (Qfloor (2 * fst c) - Z.of_nat j)%Z)
             (indexed row))
      (indexed img).

Definition sqrt_floor (x : Q) : Q :=
  Z.sqrt (Qnum x * Zpos (Qden x)) # Qden x.

#[export] Instance photutils : Photutils :=
  {| do_photometry := center_photometry; area := aperture_area |}.

#[export] Instance scipy : Scipy :=
  {| brentq := bisect_root; brentq_evals := bisect_evals; convolve := convolve3 |}.

#[export] Instance skimage : Skimage := {| rotate180 := rotate_half_turn |}.

#[export] Instance numpy : Numpy := {| np_sqrt := sqrt_floor |}.

(** The default keyword arguments of the constructor. *)
Definition default_config : config :=
  {| _remove_outliers := true; _n_sigma_outlier := 10; _annulus_width := 1;
     _eta := 0.2; _border_size := 4; _petro_extent_circ := 1.5;
     _segmap_overlap_ratio := 0.5 |}.

(** The defaults, with an annulus four pixels wide. *)
Definition wide_config : config :=
  {| _remove_outliers := true; _n_sigma_outlier := 10; _annulus_width := 4;
     _eta := 0.2; _border_size := 4; _petro_extent_circ := 1.5;
     _segmap_overlap_ratio := 0.5 |}.

(** The defaults, without the bad-pixel filter. *)
Definition plain_config : config :=
  {| _remove_outliers := false; _n_sigma_outlier := 10; _annulus_width := 1;
     _eta := 0.2; _border_size := 4; _petro_extent_circ := 1.5;
     _segmap_overlap_ratio := 0.5 |}.

Definition s0 (skybox_size : Z) : state := mkState 0 0 skybox_size.

(** A 3x4 stamp (diagonal 5) with all its light in the last pixel. *)
Definition far_light : image := [[0; 0; 0; 0]; [0; 0; 0; 0]; [0; 0; 0; 1]].

(** A stamp of [ny] rows and [nx] columns holding [v] everywhere. *)
Definition const_stamp {A} (ny nx : nat) (v : A) : list (list A) :=
  repeat (repeat v nx) ny.

(** Cached values for a 3x3 stamp without masked pixels. *)
Definition lazy3 : lazy_values :=
  {| lv_mask_stamp := const_stamp 3 3 false; lv_rpetro_circ_centroid := 1;
     lv_half_light_radius := Fin 1; lv_rmax := Fin 2;
     lv_sky_asymmetry := Fin 0.5 |}.

(** The same without a sky box, and for a source of one pixel. *)
Definition lazy3_nosky : lazy_values :=
  {| lv_mask_stamp := const_stamp 3 3 false; lv_rpetro_circ_centroid := 1;
     lv_half_light_radius := Fin 1; lv_rmax := Fin 2;
     lv_sky_asymmetry := NaN |}.

Definition lazy3_point : lazy_values :=
  {| lv_mask_stamp := const_stamp 3 3 false; lv_rpetro_circ_centroid := 1;
     lv_half_light_radius := Fin 0; lv_rmax := Fin 0;
     lv_sky_asymmetry := Fin 0.5 |}.

Definition ramp3 : image := [[1; 2; 3]; [4; 5; 6]; [7; 8; 10]].

(** A [2k+1]-square stamp, [v] at its central pixel and 0 elsewhere. *)
Definition point_source (k : nat) (v : Q) : image :=
  map (fun i => map (fun j => if (i =? k)%nat && (j =? k)%nat then v else 0)
                    (seq 0 (2 * k + 1)))
      (seq 0 (2 * k + 1)).

(** Index reflection ([mode='reflect']) at the borders of an axis of
    length [n]. *)
Definition reflect_index (n : nat) (k : Z) : nat :=
  let m := (k mod (2 * Z.of_nat n))%Z in
  if (m <? Z.of_nat n)%Z then Z.to_nat m else Z.to_nat (2 * Z.of_nat n - 1 - m).

(** The mean over the [size] x [size] window around each pixel. *)
Definition box_filter (img : image) (size : Z) : image :=
  let at_ (i j : Z) : Q :=
    let row := nth (reflect_index (length img) i) img [] in
    nth (reflect_index (length row) j) row 0 in
  let offsets := map (fun d => (Z.of_nat d - size / 2)%Z) (seq 0 (Z.to_nat size)) in
  map (fun '(i, row) =>
         map (fun '(j, _) =>
                Qred (Qsum (map (fun '(di, dj) => at_ (Z.of_nat i + di)%Z (Z.of_nat j + dj)%Z)
                                (list_prod offsets offsets))
                      / (inject_Z size * inject_Z size)))
             (indexed row))
      (indexed img).

(** Regions of 8-connected [True] pixels, each labelled by the (1-based,
    row-major) position of its first pixel, found by spreading the least
    label to the neighbours until nothing changes. *)
Definition initial_labels (a : bmask) : list (list Z) :=
  map (fun '(i, row) =>
         map (fun '(j, b) =>
                if b : bool then (Z.of_nat (i * length row + j) + 1)%Z else 0%Z)
             (indexed row))
      (indexed a).

Definition label_at (l : list (list Z)) (i j : Z) : Z :=
  if (i <? 0)%Z || (j <? 0)%Z then 0%Z
  else nth (Z.to_nat j) (nth (Z.to_nat i) l []) 0%Z.

Definition least_label (x y : Z) : Z :=
  if (y =? 0)%Z then x else Z.min x y.

Definition spread (l : list (list Z)) : list (list Z) :=
  map (fun '(i, row) =>
         map (fun '(j, v) =>
                if (v =? 0)%Z then 0%Z
                else fold_left least_label
                       (map (fun '(di, dj) =>
                               label_at l (Z.of_nat i + di)%Z (Z.of_nat j + dj)%Z)
                            (list_prod [-1; 0; 1]%Z [-1; 0; 1]%Z))
                       v)
             (indexed row))
      (indexed l).

Definition label8 (a : bmask) : list (list Z) :=
  Nat.iter (size2d a) spread (initial_labels a).

(** The integer part of the decimal logarithm, exact on powers of ten. *)
Fixpoint tens (fuel : nat) (x : Q) : Z :=
  match fuel with
  | O => 0%Z
  | S fuel' => if Qle_bool 10 x then (1 + tens fuel' (Qred (x / 10)))%Z else 0%Z
  end.

Definition log10_floor (x : Q) : Q :=
  if Qle_bool 1 x then inject_Z (tens 400 x) else - inject_Z (tens 400 (Qred (1 / x))).

(** A basin-hopping run of no step: the starting point, once the function
    has been evaluated there. *)
Definition no_hop (f : Q -> result Q) (x0 : Q) (niter : Z) (T stepsize : Q) : result Q :=
  match f x0 with
  | Ok _ => Ok x0
  | Error e => Error e
  end.

#[export] Instance ndimage : Ndimage :=
  {| uniform_filter := box_filter; ndi_label := label8 |}.

#[export] Instance numpy_log : NumpyLog := {| np_log10 := log10_floor |}.

#[export] Instance scipy_optimize : ScipyOptimize := {| basinhopping := no_hop |}.

End Reference.

(** * Part III: vocabulary of the properties *)

(** Both quality flags hold 0 or 1. *)
Definition flags_ok (s : state) : Prop :=
  (flag s = 0 \/ flag s = 1)%Z /\ (flag_sersic s = 0 \/ flag_sersic s = 1)%Z.

(** From [s] to [s'] each flag was left as it was or set to 1. *)
Definition raised_only (s s' : state) : Prop :=
  (flag s' = flag s \/ flag s' = 1%Z) /\
  (flag_sersic s' = flag_sersic s \/ flag_sersic s' = 1%Z).

(** A method is monotone on the flags when every run from a state with
    well-formed flags that ends (by return or by exception) ends in a
    state with well-formed flags, none of them cleared. *)
Definition monotone {A} (m : M A) : Prop :=
  forall s s', flags_ok s -> final_state (m s) = Some s' ->
    flags_ok s' /\ raised_only s s' /\
    (flag s <= flag s')%Z /\ (flag_sersic s <= flag_sersic s')%Z.

(** The state [s] with the general flag raised. *)
Definition flagged (s : state) : state :=
  mkState 1 (flag_sersic s) (_skybox_size s).

(** Sorted in increasing order. *)
Inductive ascending : list Q -> Prop :=
| asc_nil : ascending []
| asc_cons x l : Forall (fun y => x <= y)%Q l -> ascending l -> ascending (x :: l).

(** The numerator of the Gini coefficient as the specification writes it:
    the sum over the 1-indexed ranks [i] of [(2i - n - 1) * v_i]. *)
Definition rank_sum (v : list Q) : Q :=
  let n := length v in
  Qsum (map (fun k => (2 * Qof_nat (S k) - Qof_nat n - 1) * nth k v 0)%Q (seq 0 n)).

(** The same sum by recursion on the values, the rank [i] counted up. *)
Fixpoint wsum (n i : Q) (v : list Q) : Q :=
  match v with
  | [] => 0
  | x :: v' => (2 * i - n - 1) * x + wsum n (i + 1) v'
  end.

(** The two Petrosian solvers, told apart by their arguments. *)
Inductive variant : Type :=
| Circ (center : point)
| Ellip (center : point) (elongation theta : Q).

Section PetrosianVocabulary.

Context `{Photutils} `{Scipy} `{Numpy}.
Variable cfg : config.
Variable cutout : image.
Local Open Scope Q_scope.

(** The function whose root is the Petrosian radius, as a method ... *)
Definition petro_fn (var : variant) (r : Q) : M Q :=
  match var with
  | Circ c => _petrosian_function_circ cfg cutout r c
  | Ellip c e t => _petrosian_function_ellip cfg cutout r c e t
  end.

(** ... and the solver of each variant. *)
Definition rpetro_generic (fuel : nat) (var : variant) : M Q :=
  match var with
  | Circ c => _rpetro_circ_generic cfg cutout fuel c
  | Ellip c e t => _rpetro_ellip_generic cfg cutout fuel c e t
  end.

(** The annulus and the aperture of a variant at radius [r]. *)
Definition petro_annulus (var : variant) (r : Q) : aperture :=
  let w := _annulus_width cfg in
  match var with
  | Circ c => CircularAnnulus c (r - 0.5 * w) (r + 0.5 * w)
  | Ellip c e t => EllipticalAnnulus c (r - 0.5 * w) (r + 0.5 * w) ((r + 0.5 * w) / e) t
  end.

Definition petro_aperture (var : variant) (r : Q) : aperture :=
  match var with
  | Circ c => CircularAperture c r
  | Ellip c e t => EllipticalAperture c r (r / e) t
  end.

(** [f(r)] as the specification writes it: the absolute mean flux in the
    annulus over the absolute mean flux in the aperture, minus eta (the
    ratio counts as 1 when the aperture mean is 0). *)
Definition petro_value (var : variant) (r : Q) : Q :=
  let annulus_mean := Qabs (_aperture_mean_nomask (petro_annulus var r) cutout) in
  let aperture_mean := Qabs (_aperture_mean_nomask (petro_aperture var r) cutout) in
  (if Qeq_bool aperture_mean 0 then 1 else annulus_mean / aperture_mean) - _eta cfg.

End PetrosianVocabulary.

(** The radius a scan has reached after [k] steps of [r += dr] from [r]. *)
Fixpoint grid_from (dr r : Q) (k : nat) : Q :=
  match k with
  | O => r
  | S k' => grid_from dr (r + dr)%Q k'
  end.

(** [s'] is [s], or [s] with the general flag raised. *)
Definition same_or_flagged (s s' : state) : Prop := s' = s \/ s' = flagged s.

(** The callback [f] returns [v r] at [r] and at most raises the general
    flag. *)
Definition tame_at (f : Q -> M Q) (v : Q -> Q) (r : Q) : Prop :=
  forall s, f r s = Returned (v r) s \/ f r s = Returned (v r) (flagged s).

(** The mean that [sn_per_pixel] takes, as the specification writes it:
    flux over the square root of variance plus squared sky sigma, over the
    non-negative pixels of the Gini segmap. *)
Definition sn_mean `{Numpy} (cutout : image) (segmap_gini : bmask)
    (variance : image) (sky_sigma : fval) : fval :=
  let locs := flatten (zip2d andb segmap_gini (map2d (fun x => Qle_bool 0 x) cutout)) in
  fmean (zip_with
           (fun p v => fdiv (Fin p) (fsqrt (fadd (Fin v) (fmul sky_sigma sky_sigma))))
           (mask_select (flatten cutout) locs)
           (mask_select (flatten variance) locs)).

(** The array [a] has an entry that satisfies [P]. *)
Definition has_entry {A} (P : A -> Prop) (a : list (list A)) : Prop :=
  exists row x, In row a /\ In x row /\ P x.

(** The state [s] with [_skybox_size] set to [v]. *)
Definition with_skybox_size (v : Z) (s : state) : state :=
  mkState (flag s) (flag_sersic s) v.

(** The fixed corner box of side [size] at the border inset. *)
Definition corner_box (cfg : config) (size : Z) : boxslice :=
  let b := _border_size cfg in
  ((b, b + size), (b, b + size))%Z.

(** What lines 239-245 leave of an image entry [x] whose variance entry is
    [v], and of that variance entry. *)
Definition sanitized_pixel (x v : fval) : fval :=
  if isfinite x && isfinite v then x else Fin 0.

Definition sanitized_variance (x v : fval) : fval :=
  if isfinite x && isfinite v then v else Fin 0.

(** The caller's image after lines 239-245. *)
Definition sanitized_image (caller : arrays) : list (list fval) :=
  match arr_variance caller with
  | Some variance => zip2d sanitized_pixel (arr_image caller) variance
  | None => map2d (fun x => sanitized_pixel x (Fin 0)) (arr_image caller)
  end.

(** Every entry of the array is finite. *)
Definition all_finite (a : list (list fval)) : Prop :=
  Forall (Forall (fun x => isfinite x = true)) a.

(** Two arrays of one shape. *)
Definition same_shape {A B} (a : list (list A)) (b : list (list B)) : Prop :=
  Forall2 (fun r1 r2 => length r1 = length r2) a b.

(** The asymmetry of each kind, as the specification writes it, from the
    two aperture sums, the aperture area and the sky asymmetry: no sky
    correction for the shape asymmetry; for the others the correction
    [area * sky] is subtracted from [diff] when [sky] is finite. *)
Definition asymmetry_value (k : kind) (sky : fval) (diff area sum : Q) : Q :=
  match k with
  | Shape => diff / sum
  | Cas | Outer =>
      if isfinite sky then (diff - area * finite_part sky) / sum
      else diff / sum
  end.

(** The centre lies inside an image of [ny] rows and [nx] columns. *)
Definition in_bounds (center : point) (ny nx : Z) : Prop :=
  (0 <= fst center /\ fst center < inject_Z nx /\
   0 <= snd center /\ snd center < inject_Z ny)%Q.

(** The exception of line 99. *)
Definition not_found : exn := Exception "Root not found within range.".

(** [a[i, j]], when the position is inside the array. *)
Definition entry {A} (a : list (list A)) (i j : nat) : option A :=
  match nth_error a i with
  | Some row => nth_error row j
  | None => None
  end.

(** Every entry of the array is non-negative. *)
Definition nonnegative (a : image) : Prop :=
  Forall (Forall (fun v => 0 <= v)%Q) a.

(** A list of integers sorted in increasing order. *)
Inductive increasing : list Z -> Prop :=
| inc_nil : increasing []
| inc_cons x l : Forall (fun y => x <= y)%Z l -> increasing l -> increasing (x :: l).

(** * Part IV: properties *)

(** ** Numbers and arrays *)

Section NumFacts.

Local Open Scope Q_scope.

Lemma Qltb_iff x y : Qltb x y = true <-> x < y.
Proof.
  unfold Qltb. rewrite negb_true_iff.
  split; intro H.
  - destruct (Qlt_le_dec x y) as [Hlt|Hle]; [assumption|].
    apply Qle_bool_iff in Hle. congruence.
  - destruct (Qle_bool y x) eqn:E; [|reflexivity].
    apply Qle_bool_iff in E. exfalso. lra.
Qed.

Lemma Qltb_false_iff x y : Qltb x y = false <-> y <= x.
Proof.
  unfold Qltb. rewrite negb_false_iff. apply Qle_bool_iff.
Qed.

Lemma Qle_bool_false_iff x y : Qle_bool x y = false <-> y < x.
Proof.
  rewrite <- Qltb_iff. unfold Qltb.
  destruct (Qle_bool x y); simpl; intuition congruence.
Qed.

Lemma Qeq_bool_false_iff x y : Qeq_bool x y = false <-> ~ x == y.
Proof.
  split; intro H.
  - intro E. apply Qeq_bool_iff in E. congruence.
  - destruct (Qeq_bool x y) eqn:E; [|reflexivity].
    apply Qeq_bool_iff in E. contradiction.
Qed.

Lemma Qsum_app l1 l2 : Qsum (l1 ++ l2) == Qsum l1 + Qsum l2.
Proof.
  induction l1 as [|x l1 IH]; simpl; [lra|rewrite IH; lra].
Qed.

Lemma Qsum_nonneg l : Forall (fun x => 0 <= x) l -> 0 <= Qsum l.
Proof.
  induction 1 as [|x l Hx _ IH]; simpl; lra.
Qed.

Lemma Qof_nat_S n : Qof_nat (S n) == Qof_nat n + 1.
Proof.
  unfold Qof_nat. rewrite Nat2Z.inj_succ, <- Z.add_1_r, inject_Z_plus.
  reflexivity.
Qed.

Lemma Qof_nat_nonneg n : 0 <= Qof_nat n.
Proof.
  unfold Qof_nat. change 0 with (inject_Z 0). rewrite <- Zle_Qle. lia.
Qed.

Lemma in_range lo hi k : In k (range lo hi) <-> (lo <= k < hi)%Z.
Proof.
  unfold range. rewrite in_map_iff. split.
  - intros [n [<- Hn]]. apply in_seq in Hn. lia.
  - intro H. exists (Z.to_nat (k - lo)). split; [lia|].
    apply in_seq. lia.
Qed.

Lemma range_empty lo hi : (hi <= lo)%Z -> range lo hi = [].
Proof.
  intro H. unfold range.
  replace (Z.to_nat (hi - lo)) with 0%nat by lia. reflexivity.
Qed.

End NumFacts.

(** ** Flag monotonicity of the monad's operations *)

Section MonadFacts.

Lemma raised_only_refl s : raised_only s s.
Proof. split; left; reflexivity. Qed.

Lemma raised_only_trans s1 s2 s3 :
  raised_only s1 s2 -> raised_only s2 s3 -> raised_only s1 s3.
Proof.
  intros [[H1|H1] [H2|H2]] [[H3|H3] [H4|H4]]; split;
    first [left; congruence | right; congruence].
Qed.

Lemma monotone_ret {A} (a : A) : monotone (ret a).
Proof.
  intros s s' Hok [= <-]. repeat split; try apply Hok; try (left; reflexivity); lia.
Qed.

Lemma monotone_raise {A} (e : exn) : monotone (@raise A e).
Proof.
  intros s s' Hok [= <-]. repeat split; try apply Hok; try (left; reflexivity); lia.
Qed.

Lemma monotone_diverge {A} : monotone (@diverge A).
Proof. intros s s' _ [=]. Qed.

Lemma monotone_set_flag : monotone set_flag.
Proof.
  intros s s' [Hf Hs] [= <-]. unfold flags_ok, raised_only; simpl.
  repeat split; auto; lia.
Qed.

Lemma monotone_set_flag_sersic : monotone set_flag_sersic.
Proof.
  intros s s' [Hf Hs] [= <-]. unfold flags_ok, raised_only; simpl.
  repeat split; auto; lia.
Qed.

Lemma monotone_max_flag f : (f = 0 \/ f = 1)%Z -> monotone (max_flag f).
Proof.
  intros Hf s s' [Hg Hs] [= <-]. unfold flags_ok, raised_only; simpl.
  repeat split; auto; lia.
Qed.

Lemma monotone_get_skybox_size : monotone get_skybox_size.
Proof.
  intros s s' Hok [= <-]. repeat split; try apply Hok; try (left; reflexivity); lia.
Qed.

Lemma monotone_put_skybox_size v : monotone (put_skybox_size v).
Proof.
  intros s s' [Hf Hs] [= <-]. unfold flags_ok, raised_only; simpl.
  repeat split; auto; lia.
Qed.

Lemma monotone_bind {A B} (m : M A) (k : A -> M B) :
  monotone m -> (forall a, monotone (k a)) -> monotone (bind m k).
Proof.
  intros Hm Hk s s' Hok. unfold bind.
  destruct (m s) as [a s1|e s1|] eqn:E; simpl; intro Hfin.
  - destruct (Hm s s1 Hok) as (Hok1 & Hr1 & Hl1 & Hl1'); [rewrite E; reflexivity|].
    destruct (Hk a s1 s' Hok1 Hfin) as (Hok2 & Hr2 & Hl2 & Hl2').
    repeat split; try apply Hok2; try lia;
      apply (raised_only_trans Hr1 Hr2).
  - injection Hfin as <-. apply (Hm s s1 Hok). rewrite E. reflexivity.
  - discriminate.
Qed.

Lemma monotone_assert b : monotone (assert b).
Proof. destruct b; [apply monotone_ret|apply monotone_raise]. Qed.

Lemma monotone_when b m : monotone m -> monotone (when b m).
Proof. destruct b; [auto|intros _; apply monotone_ret]. Qed.

Lemma monotone_lift {A} (r : result A) : monotone (lift r).
Proof. destruct r; [apply monotone_ret|apply monotone_raise]. Qed.

Lemma monotone_for_each {A} (l : list A) (f : A -> M unit) :
  (forall x, monotone (f x)) -> monotone (for_each l f).
Proof.
  intro Hf. induction l as [|x l IH]; simpl.
  - apply monotone_ret.
  - apply monotone_bind; auto.
Qed.

Lemma monotone_ext {A} (m m' : M A) :
  (forall s, m s = m' s) -> monotone m -> monotone m'.
Proof.
  intros E Hm s s' Hok Hfin. rewrite <- E in Hfin. exact (Hm s s' Hok Hfin).
Qed.

End MonadFacts.

Create HintDb mono discriminated.
#[export] Hint Resolve monotone_ret monotone_raise monotone_diverge monotone_set_flag
  monotone_set_flag_sersic monotone_get_skybox_size monotone_put_skybox_size
  monotone_assert monotone_when monotone_lift monotone_for_each : mono.

(** Splits a computation along its binds and branches. *)
Ltac mono :=
  repeat first
    [ apply monotone_bind; [|intro]
    | apply monotone_when
    | apply monotone_for_each; intro
    | match goal with
      | |- monotone (if ?b then _ else _) => destruct b
      | |- monotone (match ?x with _ => _ end) => destruct x
      end
    | solve [auto with mono] ].

(** ** The Gini coefficient *)

Section GiniFacts.

Local Open Scope Q_scope.

Lemma insert_perm x l : Permutation (insert x l) (x :: l).
Proof.
  induction l as [|y l IH]; simpl; [reflexivity|].
  destruct (Qle_bool x y); [reflexivity|].
  rewrite IH. apply perm_swap.
Qed.

Lemma np_sort_perm l : Permutation (np_sort l) l.
Proof.
  induction l as [|x l IH]; simpl; [reflexivity|].
  rewrite insert_perm. now apply perm_skip.
Qed.

Lemma insert_ascending x l : ascending l -> ascending (insert x l).
Proof.
  induction 1 as [|y l Hy Hl IH]; simpl.
  - repeat constructor.
  - destruct (Qle_bool x y) eqn:E.
    + apply Qle_bool_iff in E. constructor.
      * constructor; [assumption|].
        eapply Forall_impl; [|exact Hy]. simpl. intros z Hz. lra.
      * now constructor.
    + apply Qle_bool_false_iff in E. constructor; [|assumption].
      apply (Permutation_Forall (Permutation_sym (insert_perm x l))).
      constructor; [lra|assumption].
Qed.

Lemma np_sort_ascending l : ascending (np_sort l).
Proof.
  induction l as [|x l IH]; simpl; [constructor|now apply insert_ascending].
Qed.

Lemma Qsum_perm l l' : Permutation l l' -> Qsum l == Qsum l'.
Proof.
  induction 1 as [| x l l' _ IH | x y l | l l' l'' _ IH1 _ IH2]; simpl;
    lra.
Qed.

Lemma Qsum_map_ext {A} (f g : A -> Q) l :
  (forall k, In k l -> f k == g k) -> Qsum (map f l) == Qsum (map g l).
Proof.
  induction l as [|k l IH]; simpl; intro E; [reflexivity|].
  rewrite (E k), IH; [reflexivity| |]; auto.
Qed.

Lemma wsum_compat n n' i i' v :
  n == n' -> i == i' -> wsum n i v == wsum n' i' v.
Proof.
  revert i i'. induction v as [|x v IH]; simpl; intros i i' En Ei; [reflexivity|].
  rewrite (IH (i + 1) (i' + 1)), En, Ei; [reflexivity|assumption|].
  rewrite Ei. reflexivity.
Qed.

(** Raising both the length and the first rank by one adds each value once. *)
Lemma wsum_shift n i v : wsum (n + 1) (i + 1) v == wsum n i v + Qsum v.
Proof.
  revert i. induction v as [|x v IH]; simpl; intro i; [lra|].
  rewrite IH. lra.
Qed.

Lemma wsum_cons m x v :
  wsum (m + 1) 1 (x :: v) == wsum m 1 v + (Qsum v - m * x).
Proof.
  simpl. rewrite wsum_shift. lra.
Qed.

Lemma range_cons lo hi : (lo < hi)%Z -> range lo hi = lo :: range (lo + 1) hi.
Proof.
  intro H. unfold range.
  replace (Z.to_nat (hi - lo)) with (S (Z.to_nat (hi - (lo + 1)))) by lia.
  simpl. f_equal; [f_equal; lia|].
  rewrite <- seq_shift, map_map. apply map_ext. intro k. lia.
Qed.

(** The sum the source computes is [wsum]. *)
Lemma source_sum_wsum n lo v :
  Qsum (zip_with Qmult
          (map (fun i => 2 * i - n - 1) (arange lo (lo + Z.of_nat (length v))))
          v)
  == wsum n (inject_Z lo) v.
Proof.
  revert lo. induction v as [|x v IH]; intro lo.
  - simpl. destruct (map _ _); reflexivity.
  - unfold arange.
    replace (lo + Z.of_nat (length (x :: v)))%Z
      with ((lo + 1) + Z.of_nat (length v))%Z by (simpl length; lia).
    rewrite range_cons by lia.
    cbn [map zip_with Qsum wsum].
    change (map inject_Z (range (lo + 1) (lo + 1 + Z.of_nat (length v))))
      with (arange (lo + 1) (lo + 1 + Z.of_nat (length v))).
    rewrite (IH (lo + 1)%Z).
    rewrite (@wsum_compat n n (inject_Z (lo + 1)) (inject_Z lo + 1) v);
      [reflexivity|reflexivity|].
    rewrite inject_Z_plus. reflexivity.
Qed.

(** The sum the specification writes is [wsum] too. *)
Lemma rank_sum_shifted n c v :
  Qsum (map (fun k => (2 * (Qof_nat (S k) + c) - n - 1) * nth k v 0)
            (seq 0 (length v)))
  == wsum n (1 + c) v.
Proof.
  revert c. induction v as [|x v IH]; intro c; [reflexivity|].
  simpl length. rewrite <- cons_seq, <- seq_shift. simpl map. simpl Qsum.
  rewrite map_map. simpl wsum.
  rewrite (Qsum_map_ext _
             (fun k => (2 * (Qof_nat (S k) + (c + 1)) - n - 1) * nth k v 0)).
  - rewrite IH. rewrite (@wsum_compat n n (1 + (c + 1)) (1 + c + 1) v);
      [|reflexivity|lra].
    change (Qof_nat 1) with 1. reflexivity.
  - intros k _. simpl nth. rewrite (Qof_nat_S (S k)). ring.
Qed.

Lemma rank_sum_wsum v : rank_sum v == wsum (Qof_nat (length v)) 1 v.
Proof.
  unfold rank_sum.
  rewrite (Qsum_map_ext _
             (fun k => (2 * (Qof_nat (S k) + 0) - Qof_nat (length v) - 1) * nth k v 0)).
  - rewrite rank_sum_shifted. apply wsum_compat; [reflexivity|lra].
  - intros k _. ring.
Qed.

Lemma Qsum_lower x l :
  Forall (fun y => x <= y) l -> Qof_nat (length l) * x <= Qsum l.
Proof.
  induction 1 as [|y l Hy _ IH]; [simpl; change (Qof_nat 0) with 0; lra|].
  simpl length. rewrite Qof_nat_S. simpl Qsum. lra.
Qed.

(** On increasing values the numerator is non-negative ... *)
Lemma wsum_nonneg v : ascending v -> 0 <= wsum (Qof_nat (length v)) 1 v.
Proof.
  induction 1 as [|x l Hx _ IH]; [simpl; lra|].
  simpl length.
  rewrite (@wsum_compat (Qof_nat (S (length l))) (Qof_nat (length l) + 1) 1 1 (x :: l)
             (Qof_nat_S _) (Qeq_refl _)).
  rewrite wsum_cons. pose proof (Qsum_lower Hx). lra.
Qed.

(** ... and on non-negative values it is at most [n - 1] times their sum. *)
Lemma wsum_upper v :
  Forall (fun y => 0 <= y) v ->
  wsum (Qof_nat (length v)) 1 v <= (Qof_nat (length v) - 1) * Qsum v.
Proof.
  induction 1 as [|x l Hx Hl IH]; [simpl; change (Qof_nat 0) with 0; lra|].
  simpl length.
  rewrite (@wsum_compat (Qof_nat (S (length l))) (Qof_nat (length l) + 1) 1 1 (x :: l)
             (Qof_nat_S _) (Qeq_refl _)).
  rewrite wsum_cons, Qof_nat_S. simpl Qsum.
  pose proof (Qof_nat_nonneg (length l)) as Hn.
  pose proof (Qsum_nonneg Hl) as Hs.
  assert (0 <= Qof_nat (length l) * x) by (apply Qmult_le_0_compat; assumption).
  nra.
Qed.

Lemma sorted_pixelvals_nonneg cutout segmap_gini :
  Forall (fun y => 0 <= y) (sorted_pixelvals cutout segmap_gini).
Proof.
  unfold sorted_pixelvals.
  apply (Permutation_Forall (Permutation_sym (np_sort_perm _))).
  apply Forall_forall. intros y Hy. apply in_map_iff in Hy.
  destruct Hy as [z [<- _]]. apply Qabs_nonneg.
Qed.


(** The Gini coefficient of the four pixel values 1, 2, 3, -4 is 1/3. *)
Example gini_example :
  gini [[1; 2]; [3; -4]] [[true; true]; [true; true]] (Reference.s0 32)
  = Returned (10 # 30) (Reference.s0 32).
Proof. reflexivity. Qed.

End GiniFacts.

(** ** The radius enclosing a fraction of the light *)

Section FractionFacts.

Context `{Photutils} `{Scipy}.
Local Open Scope Q_scope.

(** A bounded universal statement read off a boolean check. *)
Lemma forall_below (P : nat -> bool) n :
  forallb P (seq 0 n) = true -> forall i, (i < n)%nat -> P i = true.
Proof.
  intros E i Hi. rewrite forallb_forall in E. apply E. apply in_seq. lia.
Qed.

(** Once a negative value has been seen, a scan over negative values only
    runs to the end of the grid and raises. *)
Lemma fraction_scan_negative f g todo i r_min flag :
  (forall j, (i <= j < i + todo)%nat -> f (g j) < 0) ->
  fraction_scan f g todo i r_min flag = Error not_found.
Proof.
  revert i r_min flag. induction todo as [|todo IH]; intros i r_min flag Hneg.
  - reflexivity.
  - simpl. assert (Hi : f (g i) < 0) by (apply Hneg; lia).
    replace (Qeq_bool (f (g i)) 0) with false
      by (symmetry; apply Qeq_bool_false_iff; lra).
    replace (Qltb (f (g i)) 0) with true by (symmetry; apply Qltb_iff; exact Hi).
    apply IH. intros j Hj. apply Hneg. lia.
Qed.

(** A scan that meets positive values first and negative values only
    afterwards never has its bracket: it raises too. *)
Lemma fraction_scan_exhausted f g todo i k flag :
  (i <= k <= i + todo)%nat ->
  (forall j, (i <= j < k)%nat -> 0 < f (g j)) ->
  (forall j, (k <= j < i + todo)%nat -> f (g j) < 0) ->
  fraction_scan f g todo i None flag = Error not_found.
Proof.
  revert i flag. induction todo as [|todo IH]; intros i flag Hk Hpos Hneg.
  - reflexivity.
  - destruct (Nat.eq_dec k i) as [->|Hne].
    + apply fraction_scan_negative. exact Hneg.
    + simpl. assert (Hi : 0 < f (g i)) by (apply Hpos; lia).
      replace (Qeq_bool (f (g i)) 0) with false
        by (symmetry; apply Qeq_bool_false_iff; lra).
      replace (Qltb (f (g i)) 0) with false
        by (symmetry; apply Qltb_false_iff; lra).
      apply IH; [lia| |]; intros j Hj; [apply Hpos|apply Hneg]; lia.
Qed.

(** The flag a scan returns is 0 or 1 when it started so. *)
Lemma fraction_scan_flag f g todo i r_min flag b flag' :
  (flag = 0 \/ flag = 1)%Z ->
  fraction_scan f g todo i r_min flag = Ok (b, flag') ->
  (flag' = 0 \/ flag' = 1)%Z.
Proof.
  revert i r_min flag. induction todo as [|todo IH]; intros i r_min flag Hf; simpl.
  - discriminate.
  - destruct (Qeq_bool (f (g i)) 0); [intros [= _ <-]; exact Hf|].
    destruct (Qltb (f (g i)) 0); [apply IH; exact Hf|].
    destruct r_min; [intros [= _ <-]; exact Hf|].
    apply IH. right. reflexivity.
Qed.

Lemma radius_at_fraction_flag img center r_total fraction r flag :
  _radius_at_fraction_of_total img center r_total fraction = Ok (r, flag) ->
  (flag = 0 \/ flag = 1)%Z.
Proof.
  unfold _radius_at_fraction_of_total.
  destruct (Qle_bool _ 0); [intros [= _ <-]; right; reflexivity|].
  destruct (negb _); [discriminate|].
  destruct (fraction_scan _ _ _ _ _ _) as [[[r0|r1 r2] fl]|e] eqn:E;
    try discriminate; intros [= _ <-];
    eapply fraction_scan_flag; try exact E; left; reflexivity.
Qed.


End FractionFacts.

Section FractionExamples.

Import Reference.
Local Open Scope Q_scope.



End FractionExamples.

(** ** The Petrosian solvers *)

Section ScanFacts.

Local Open Scope Q_scope.

Variable f : Q -> M Q.
Variable v : Q -> Q.
Variables r_outer dr : Q.

Lemma flagged_idem s : flagged (flagged s) = flagged s.
Proof. reflexivity. Qed.

Lemma same_or_flagged_refl s : same_or_flagged s s.
Proof. left. reflexivity. Qed.

Lemma same_or_flagged_trans s1 s2 s3 :
  same_or_flagged s1 s2 -> same_or_flagged s2 s3 -> same_or_flagged s1 s3.
Proof.
  intros [->| ->] [->| ->]; unfold same_or_flagged; auto.
Qed.

Lemma same_or_flagged_flagged s1 s2 :
  same_or_flagged s1 s2 -> flagged s2 = flagged s1.
Proof. intros [->| ->]; reflexivity. Qed.

Lemma grid_from_add r a b :
  grid_from dr r (a + b) = grid_from dr (grid_from dr r a) b.
Proof.
  revert r. induction a as [|a IH]; intro r; simpl; [reflexivity|apply IH].
Qed.

Lemma grid_from_S r k : grid_from dr r (S k) = grid_from dr r k + dr.
Proof.
  revert r. induction k as [|k IH]; intro r; [reflexivity|].
  change (grid_from dr r (S (S k))) with (grid_from dr (r + dr) (S k)).
  rewrite IH. reflexivity.
Qed.

(** One turn of the loop. *)
Lemma petro_scan_step r r_min s :
  tame_at f v r ->
  exists s1,
    same_or_flagged s s1 /\
    (r_outer <= r -> s1 = flagged s) /\
    forall fuel,
      petro_scan f r_outer dr (S fuel) r r_min s =
        if Qeq_bool (v r) 0 then Returned (Chance r) s1
        else if Qltb 0 (v r) then petro_scan f r_outer dr fuel (r + dr) (Some r) s1
        else
          match r_min with
          | None => petro_scan f r_outer dr fuel (r + dr) None (flagged s1)
          | Some m => Returned (Bracket m r) s1
          end.
Proof.
  intro Hf. cbn [petro_scan]. unfold bind at 1.
  destruct (Qle_bool r_outer r) eqn:Ero; cbn [when].
  - change (set_flag s) with (Returned tt (flagged s)). cbv iota.
    exists (flagged s). split; [right; reflexivity|]. split; [reflexivity|].
    intro fuel. unfold bind at 1.
    destruct (Hf (flagged s)) as [-> | ->]; cbv iota;
      destruct (Qeq_bool (v r) 0); try reflexivity;
      destruct (Qltb 0 (v r)); try reflexivity;
      destruct r_min; reflexivity.
  - change (ret tt s) with (Returned tt s). cbv iota.
    apply Qle_bool_false_iff in Ero.
    destruct (Hf s) as [E | E].
    + exists s. split; [left; reflexivity|]. split; [intro; exfalso; lra|].
      intro fuel. unfold bind at 1. rewrite E; cbv iota.
      destruct (Qeq_bool (v r) 0); try reflexivity.
      destruct (Qltb 0 (v r)); try reflexivity.
      destruct r_min; reflexivity.
    + exists (flagged s). split; [right; reflexivity|]. split; [reflexivity|].
      intro fuel. unfold bind at 1. rewrite E; cbv iota.
      destruct (Qeq_bool (v r) 0); try reflexivity.
      destruct (Qltb 0 (v r)); try reflexivity.
      destruct r_min; reflexivity.
Qed.

(** Negative values met before any positive one: the scan goes on, the
    flag raised. *)
Lemma petro_scan_negatives a : forall r s,
  (forall k, (k < a)%nat -> tame_at f v (grid_from dr r k) /\ v (grid_from dr r k) < 0) ->
  exists s1,
    same_or_flagged s s1 /\
    ((0 < a)%nat -> s1 = flagged s) /\
    forall fuel,
      petro_scan f r_outer dr (a + fuel) r None s =
      petro_scan f r_outer dr fuel (grid_from dr r a) None s1.
Proof.
  induction a as [|a IH]; intros r s Hneg.
  - exists s. split; [left; reflexivity|]. split; [lia|]. reflexivity.
  - destruct (Hneg 0%nat ltac:(lia)) as [Ht Hv]. simpl in Ht, Hv.
    destruct (IH (r + dr) (flagged s)) as (s2 & Hs2 & _ & Hrun).
    { intros k Hk. apply (Hneg (S k)). lia. }
    exists s2. split; [|split].
    + destruct Hs2 as [->| ->]; right; reflexivity.
    + intros _. destruct Hs2 as [->| ->]; reflexivity.
    + intro fuel. change (S a + fuel)%nat with (S (a + fuel)).
      destruct (@petro_scan_step r None s Ht) as (s1 & Hs1 & _ & Hstep).
      rewrite Hstep.
      replace (Qeq_bool (v r) 0) with false
        by (symmetry; apply Qeq_bool_false_iff; lra).
      replace (Qltb 0 (v r)) with false by (symmetry; apply Qltb_false_iff; lra).
      rewrite (same_or_flagged_flagged Hs1). apply Hrun.
Qed.

(** Positive values: the scan goes on, remembering the last of them. *)
Lemma petro_scan_positives b : forall r r_min s,
  (forall k, (k < b)%nat -> tame_at f v (grid_from dr r k) /\ 0 < v (grid_from dr r k)) ->
  exists s1,
    same_or_flagged s s1 /\
    forall fuel,
      petro_scan f r_outer dr (b + fuel) r r_min s =
      petro_scan f r_outer dr fuel (grid_from dr r b)
        (match b with O => r_min | S b' => Some (grid_from dr r b') end) s1.
Proof.
  induction b as [|b IH]; intros r r_min s Hpos.
  - exists s. split; [left; reflexivity|]. reflexivity.
  - destruct (Hpos 0%nat ltac:(lia)) as [Ht Hv]. simpl in Ht, Hv.
    destruct (@petro_scan_step r r_min s Ht) as (s1 & Hs1 & _ & Hstep).
    destruct (IH (r + dr) (Some r) s1) as (s2 & Hs2 & Hrun).
    { intros k Hk. apply (Hpos (S k)). lia. }
    exists s2. split; [exact (same_or_flagged_trans Hs1 Hs2)|].
    intro fuel. change (S b + fuel)%nat with (S (b + fuel)).
    rewrite Hstep.
    replace (Qeq_bool (v r) 0) with false
      by (symmetry; apply Qeq_bool_false_iff; lra).
    replace (Qltb 0 (v r)) with true by (symmetry; apply Qltb_iff; lra).
    rewrite Hrun. destruct b; reflexivity.
Qed.

(** Where the scan stops: on a value that is exactly zero, or on a
    negative value that follows a positive one. *)
Lemma petro_scan_stops a b r s :
  (forall k, (k < a)%nat -> tame_at f v (grid_from dr r k) /\ v (grid_from dr r k) < 0) ->
  (forall k, (a <= k < a + b)%nat ->
     tame_at f v (grid_from dr r k) /\ 0 < v (grid_from dr r k)) ->
  tame_at f v (grid_from dr r (a + b)) ->
  v (grid_from dr r (a + b)) == 0 \/ ((0 < b)%nat /\ v (grid_from dr r (a + b)) < 0) ->
  exists s1,
    same_or_flagged s s1 /\
    ((0 < a)%nat -> s1 = flagged s) /\
    (r_outer <= grid_from dr r (a + b) -> s1 = flagged s) /\
    forall fuel, (a + b < fuel)%nat ->
      petro_scan f r_outer dr fuel r None s =
        if Qeq_bool (v (grid_from dr r (a + b))) 0
        then Returned (Chance (grid_from dr r (a + b))) s1
        else Returned (Bracket (grid_from dr r (a + b - 1)) (grid_from dr r (a + b))) s1.
Proof.
  intros Hneg Hpos Hlast Hstop.
  destruct (@petro_scan_negatives a r s Hneg) as (s1 & Hs1 & Hflag1 & Hrun1).
  destruct (@petro_scan_positives b (grid_from dr r a) None s1) as (s2 & Hs2 & Hrun2).
  { intros k Hk. rewrite <- grid_from_add. apply Hpos. lia. }
  rewrite grid_from_add in Hlast.
  destruct (@petro_scan_step (grid_from dr (grid_from dr r a) b)
              (match b with O => None | S b' => Some (grid_from dr (grid_from dr r a) b') end)
              s2 Hlast) as (s3 & Hs3 & Hflag3 & Hstep).
  pose proof (same_or_flagged_trans Hs1 (same_or_flagged_trans Hs2 Hs3)) as Hs13.
  exists s3. split; [exact Hs13|]. split; [|split].
  - intro Ha. rewrite (Hflag1 Ha) in *.
    destruct (same_or_flagged_trans Hs2 Hs3) as [->| ->]; reflexivity.
  - rewrite grid_from_add. intro Hro. rewrite (Hflag3 Hro).
    apply same_or_flagged_flagged. exact (same_or_flagged_trans Hs1 Hs2).
  - intros fuel Hfuel.
    replace fuel with (a + (b + S (fuel - a - b - 1)))%nat by lia.
    rewrite Hrun1, Hrun2, Hstep. rewrite grid_from_add.
    destruct Hstop as [Hz | [Hb Hv]].
    + rewrite grid_from_add in Hz.
      replace (Qeq_bool _ 0) with true by (symmetry; apply Qeq_bool_iff; exact Hz).
      reflexivity.
    + rewrite grid_from_add in Hv.
      replace (Qeq_bool _ 0) with false
        by (symmetry; apply Qeq_bool_false_iff; lra).
      replace (Qltb 0 _) with false by (symmetry; apply Qltb_false_iff; lra).
      destruct b as [|b']; [lia|].
      replace (a + S b' - 1)%nat with (a + b')%nat by lia.
      rewrite grid_from_add. reflexivity.
Qed.

(** Where it never stops: negative values first and positive values ever
    after, or negative values throughout. *)
Lemma petro_scan_positive_forever fuel : forall r r_min s,
  (forall k, tame_at f v (grid_from dr r k) /\ 0 < v (grid_from dr r k)) ->
  petro_scan f r_outer dr fuel r r_min s = OutOfFuel.
Proof.
  induction fuel as [|fuel IH]; intros r r_min s Hpos; [reflexivity|].
  destruct (Hpos 0%nat) as [Ht Hv]. simpl in Ht, Hv.
  destruct (@petro_scan_step r r_min s Ht) as (s1 & _ & _ & ->).
  replace (Qeq_bool (v r) 0) with false
    by (symmetry; apply Qeq_bool_false_iff; lra).
  replace (Qltb 0 (v r)) with true by (symmetry; apply Qltb_iff; lra).
  apply IH. intro k. apply (Hpos (S k)).
Qed.

Lemma petro_scan_negative_fuel fuel : forall r s,
  (forall k, (k < fuel)%nat ->
     tame_at f v (grid_from dr r k) /\ v (grid_from dr r k) < 0) ->
  petro_scan f r_outer dr fuel r None s = OutOfFuel.
Proof.
  induction fuel as [|fuel IH]; intros r s Hneg; [reflexivity|].
  destruct (Hneg 0%nat ltac:(lia)) as [Ht Hv]. simpl in Ht, Hv.
  destruct (@petro_scan_step r None s Ht) as (s1 & _ & _ & ->).
  replace (Qeq_bool (v r) 0) with false
    by (symmetry; apply Qeq_bool_false_iff; lra).
  replace (Qltb 0 (v r)) with false by (symmetry; apply Qltb_false_iff; lra).
  apply IH. intros k Hk. apply (Hneg (S k)). lia.
Qed.

Lemma petro_scan_never_stops a r s fuel :
  (forall k, (k < a)%nat -> tame_at f v (grid_from dr r k) /\ v (grid_from dr r k) < 0) ->
  (forall k, (a <= k)%nat -> tame_at f v (grid_from dr r k) /\ 0 < v (grid_from dr r k)) ->
  petro_scan f r_outer dr fuel r None s = OutOfFuel.
Proof.
  intros Hneg Hpos.
  destruct (Nat.le_gt_cases fuel a) as [Hle|Hgt].
  - apply petro_scan_negative_fuel. intros k Hk. apply Hneg. lia.
  - destruct (@petro_scan_negatives a r s Hneg) as (s1 & _ & _ & Hrun).
    replace fuel with (a + (fuel - a))%nat by lia. rewrite Hrun.
    apply petro_scan_positive_forever. intro k. rewrite <- grid_from_add.
    apply Hpos. lia.
Qed.

End ScanFacts.

Section PetrosianFacts.

Context `{Photutils} `{Scipy} `{Numpy}.
Variable cfg : config.
Variable cutout : image.
Local Open Scope Q_scope.

(** At a radius whose annulus starts at or after 0, the Petrosian function
    returns [f(r)] and at most raises the flag. *)
Lemma petro_fn_tame var r :
  0 <= r - 0.5 * _annulus_width cfg ->
  tame_at (petro_fn cfg cutout var) (petro_value cfg cutout var) r.
Proof.
  intros Hr s. apply Qle_bool_iff in Hr.
  destruct var as [c|c e t]; unfold petro_fn, petro_value, petro_annulus, petro_aperture;
    [unfold _petrosian_function_circ|unfold _petrosian_function_ellip];
    rewrite Hr; cbn [assert]; unfold bind at 1; cbn [ret];
    unfold bind at 1;
    match goal with |- context [Qeq_bool ?x 0] => destruct (Qeq_bool x 0) end;
    [right|left|right|left]; reflexivity.
Qed.

Lemma grid_from_lower dr r k : 0 <= dr -> r <= grid_from dr r k.
Proof.
  intro Hdr. revert r. induction k as [|k IH]; intro r; simpl; [lra|].
  specialize (IH (r + dr)). lra.
Qed.

(** Unfolding of the two solvers onto the shared scan. *)
Lemma rpetro_generic_unfold fuel var s :
  _annulus_width cfg < _diagonal_distance cutout ->
  rpetro_generic cfg cutout fuel var s =
  match petro_scan (petro_fn cfg cutout var) (_diagonal_distance cutout)
          ((_diagonal_distance cutout - _annulus_width cfg) / Qof_nat (npoints - 1))
          fuel (_annulus_width cfg) None s with
  | Returned (Chance r) s' => Returned r s'
  | Returned (Bracket r_min r_max) s' =>
      brentq_method (petro_fn cfg cutout var) r_min r_max s'
  | Raised e s' => Raised e s'
  | OutOfFuel => OutOfFuel
  end.
Proof.
  intro Hlt. apply Qltb_iff in Hlt.
  destruct var as [c|c e t]; unfold rpetro_generic;
    [unfold _rpetro_circ_generic|unfold _rpetro_ellip_generic];
    rewrite Hlt; cbn [assert]; unfold bind at 1; cbn [ret];
    unfold bind at 1; unfold petro_fn;
    match goal with |- context [petro_scan ?f ?ro ?d ?fu ?r ?m ?st] =>
      destruct (petro_scan f ro d fu r m st) as [[r0|r1 r2] s'|ex s'|]
    end; reflexivity.
Qed.

(** C2 (as the code has it).  For either solver, let [r k] be the radius
    after [k] steps of the coarse scan from [r_inner = annulus_width], in
    steps of [(r_outer - r_inner) / 99] with [r_outer] the stamp diagonal,
    and let [f] be negative at the first [a] radii and positive at the
    next [b].  The scan is not bounded by [r_outer]: at every radius at or
    beyond it the general flag is raised and the scan goes on.
    - If [f] is exactly 0 at [r (a + b)], the solver returns that radius.
    - If [f] is negative there and [b > 0], the solver root-finds between
      the two consecutive radii [r (a + b - 1)] and [r (a + b)].
    In both cases the flag has been raised if [a > 0] (a negative value
    before any positive one) or if [r (a + b)] is at or beyond [r_outer],
    and nothing else of the state has changed.
    - If [f] stays positive from index [a] on, or is negative throughout,
      the solver never returns; in no case does it report [r_outer]. *)
Theorem petrosian_scan_continues (var : variant) (s : state) (a b : nat) :
  let r_inner := _annulus_width cfg in
  let r_outer := _diagonal_distance cutout in
  let dr := (r_outer - r_inner) / Qof_nat (npoints - 1) in
  let r := grid_from dr r_inner in
  let f k := petro_value cfg cutout var (r k) in
  0 <= r_inner ->
  r_inner < r_outer ->
  (forall k, (k < a)%nat -> f k < 0) ->
  (forall k, (a <= k < a + b)%nat -> 0 < f k) ->
  (f (a + b)%nat == 0 ->
     exists s',
       same_or_flagged s s' /\
       ((0 < a)%nat \/ r_outer <= r (a + b)%nat -> s' = flagged s) /\
       forall fuel, (a + b < fuel)%nat ->
         rpetro_generic cfg cutout fuel var s = Returned (r (a + b)%nat) s') /\
  ((0 < b)%nat -> f (a + b)%nat < 0 ->
     exists s',
       same_or_flagged s s' /\
       ((0 < a)%nat \/ r_outer <= r (a + b)%nat -> s' = flagged s) /\
       forall fuel, (a + b < fuel)%nat ->
         rpetro_generic cfg cutout fuel var s =
         brentq_method (petro_fn cfg cutout var)
           (r (a + b - 1)%nat) (r (a + b)%nat) s') /\
  ((forall k, (a <= k)%nat -> 0 < f k) ->
     forall fuel, rpetro_generic cfg cutout fuel var s = OutOfFuel) /\
  ((forall k, f k < 0) ->
     forall fuel, rpetro_generic cfg cutout fuel var s = OutOfFuel).
Proof.
  intros r_inner r_outer dr r f Hw Hlt Hneg Hpos.
  assert (Hdr : 0 <= dr).
  { unfold dr. apply Qle_shift_div_l; [reflexivity|]. lra. }
  assert (Htame : forall k, tame_at (petro_fn cfg cutout var)
                              (petro_value cfg cutout var) (r k)).
  { intro k. apply petro_fn_tame.
    pose proof (@grid_from_lower dr r_inner k Hdr) as Hk.
    fold (r k) in Hk. fold r_inner. lra. }
  split; [|split; [|split]].
  - intro Hz.
    destruct (@petro_scan_stops (petro_fn cfg cutout var) (petro_value cfg cutout var)
                r_outer dr a b r_inner s) as (s' & Hs' & Ha & Hro & Hrun).
    + intros k Hk. split; [apply Htame|apply Hneg; exact Hk].
    + intros k Hk. split; [apply Htame|apply Hpos; exact Hk].
    + apply Htame.
    + left. exact Hz.
    + exists s'. split; [exact Hs'|]. split; [intros [H2|H2]; auto|].
      intros fuel Hfuel. rewrite rpetro_generic_unfold by exact Hlt.
      fold r_inner r_outer dr. rewrite (Hrun fuel Hfuel).
      fold (r (a + b)%nat). fold (f (a + b)%nat).
      replace (Qeq_bool (f (a + b)%nat) 0) with true
        by (symmetry; apply Qeq_bool_iff; exact Hz).
      reflexivity.
  - intros Hb Hv.
    destruct (@petro_scan_stops (petro_fn cfg cutout var) (petro_value cfg cutout var)
                r_outer dr a b r_inner s) as (s' & Hs' & Ha & Hro & Hrun).
    + intros k Hk. split; [apply Htame|apply Hneg; exact Hk].
    + intros k Hk. split; [apply Htame|apply Hpos; exact Hk].
    + apply Htame.
    + right. split; assumption.
    + exists s'. split; [exact Hs'|]. split; [intros [H2|H2]; auto|].
      intros fuel Hfuel. rewrite rpetro_generic_unfold by exact Hlt.
      fold r_inner r_outer dr. rewrite (Hrun fuel Hfuel).
      fold (r (a + b)%nat). fold (f (a + b)%nat).
      replace (Qeq_bool (f (a + b)%nat) 0) with false
        by (symmetry; apply Qeq_bool_false_iff; lra).
      reflexivity.
  - intros Hever fuel. rewrite rpetro_generic_unfold by exact Hlt.
    fold r_inner r_outer dr.
    rewrite (@petro_scan_never_stops (petro_fn cfg cutout var)
               (petro_value cfg cutout var) r_outer dr a r_inner s fuel);
      [reflexivity| |].
    + intros k Hk. split; [apply Htame|apply Hneg; exact Hk].
    + intros k Hk. split; [apply Htame|apply Hever; exact Hk].
  - intros Hall fuel. rewrite rpetro_generic_unfold by exact Hlt.
    fold r_inner r_outer dr.
    rewrite (@petro_scan_negative_fuel (petro_fn cfg cutout var)
               (petro_value cfg cutout var) r_outer dr fuel r_inner s);
      [reflexivity|].
    intros k _. split; [apply Htame|apply Hall].
Qed.

End PetrosianFacts.

Section PetrosianExamples.

Import Reference.
Local Open Scope Q_scope.

(** A uniform 9x9 stamp under the default options: [f] is positive at the
    first 41 radii and negative at the next, well inside the stamp. *)
Lemma petrosian_scan_continues_witness :
  let cfg := default_config in
  let cutout := const_stamp 9 9 1 in
  let var := Circ (4.5, 4.5) in
  let s := s0 32 in
  let r_inner := _annulus_width cfg in
  let r_outer := _diagonal_distance cutout in
  let dr := (r_outer - r_inner) / Qof_nat (npoints - 1) in
  let r := grid_from dr r_inner in
  let f k := petro_value cfg cutout var (r k) in
  (f 41%nat == 0 ->
     exists s',
       same_or_flagged s s' /\
       ((0 < 0)%nat \/ r_outer <= r 41%nat -> s' = flagged s) /\
       forall fuel, (41 < fuel)%nat ->
         rpetro_generic cfg cutout fuel var s = Returned (r 41%nat) s') /\
  ((0 < 41)%nat -> f 41%nat < 0 ->
     exists s',
       same_or_flagged s s' /\
       ((0 < 0)%nat \/ r_outer <= r 41%nat -> s' = flagged s) /\
       forall fuel, (41 < fuel)%nat ->
         rpetro_generic cfg cutout fuel var s =
         brentq_method (petro_fn cfg cutout var) (r 40%nat) (r 41%nat) s') /\
  ((forall k, (0 <= k)%nat -> 0 < f k) ->
     forall fuel, rpetro_generic cfg cutout fuel var s = OutOfFuel) /\
  ((forall k, f k < 0) ->
     forall fuel, rpetro_generic cfg cutout fuel var s = OutOfFuel).
Proof.
  apply (@petrosian_scan_continues photutils scipy numpy default_config
           (const_stamp 9 9 1) (Circ (4.5, 4.5)) (s0 32) 0 41).
  - discriminate.
  - reflexivity.
  - intros k Hk. lia.
  - intros k [_ Hk]. apply Qltb_iff. revert k Hk. apply forall_below.
    vm_compute. reflexivity.
Defined.

(** C2 (as stated) fails on the stamp [far_light], scanned from its first
    pixel with an annulus four pixels wide: [f] is positive at all 100
    radii from [r_inner = 4] to [r_outer = 5], so the scan exhausts that
    range without a sign change; the solver raises the flag but goes on
    past the boundary, and the radius it returns is larger than [r_outer]. *)
Lemma rpetro_past_boundary :
  let r_outer := _diagonal_distance far_light in
  let dr := (r_outer - 4) / Qof_nat (npoints - 1) in
  r_outer == 5 /\
  grid_from dr 4 99 == r_outer /\
  forallb (fun k => Qltb 0 (petro_value wide_config far_light (Circ (0.5, 0.5))
                              (grid_from dr 4 k)))
          (seq 0 npoints) = true /\
  exists r s',
    _rpetro_circ_generic wide_config far_light 200 (0.5, 0.5) (s0 32) = Returned r s' /\
    flag s' = 1%Z /\
    r_outer < r.
Proof.
  cbv zeta. split; [reflexivity|]. split; [vm_compute; reflexivity|].
  split; [vm_compute; reflexivity|].
  eexists. eexists. split; [vm_compute; reflexivity|].
  split; vm_compute; reflexivity.
Qed.

End PetrosianExamples.

(** ** A source of one pixel: the Petrosian solver does not return *)

Section PointSourceExample.

Import Reference.
Local Open Scope Q_scope.

(** The centre of an ellipse is inside it. *)
Lemma in_ellipse_center x y c a b t :
  x == fst c -> y == snd c -> in_ellipse x y c a b t = true.
Proof.
  intros Hx Hy. unfold in_ellipse. apply Qle_bool_iff.
  assert (Hdx : x - fst c == 0) by (rewrite Hx; ring).
  assert (Hdy : y - snd c == 0) by (rewrite Hy; ring).
  rewrite Hdx, Hdy.
  assert (Hsq : 0 <= (a * b) * (a * b)).
  { destruct (Qlt_le_dec (a * b) 0) as [Hneg|Hpos].
    - setoid_replace ((a * b) * (a * b)) with ((- (a * b)) * (- (a * b))) by ring.
      apply Qmult_le_0_compat; lra.
    - apply Qmult_le_0_compat; assumption. }
  setoid_replace (a * a * (b * b)) with ((a * b) * (a * b)) by ring.
  setoid_replace ((0 * (1 - t * t / 2) + 0 * t) * (0 * (1 - t * t / 2) + 0 * t) * (b * b)
                  + (0 * (1 - t * t / 2) - 0 * t) * (0 * (1 - t * t / 2) - 0 * t) * (a * a))
    with 0 by ring.
  exact Hsq.
Qed.

(** Photometry of the one-pixel source: the pixel counts when its centre
    is in the aperture. *)
Lemma point_source_photometry ap :
  center_photometry ap (point_source 2 1)
  == if inside (reduced ap) 2 2 then 1 else 0.
Proof.
  unfold center_photometry. cbv zeta.
  set (ap' := reduced ap).
  change (point_source 2 1)
    with [[0; 0; 0; 0; 0]; [0; 0; 0; 0; 0]; [0; 0; 1; 0; 0];
          [0; 0; 0; 0; 0]; [0; 0; 0; 0; 0]].
  cbn [indexed combine seq length map Qsum].
  repeat match goal with
         | |- context [if ?b then 0 else 0] =>
             replace (if b then 0 else 0) with 0 by (destruct b; reflexivity)
         end.
  destruct (inside ap' 2 2); reflexivity.
Qed.

Lemma point_source_value r :
  1 <= r ->
  petro_value default_config (point_source 2 1) (Circ (2.5, 2.5)) r < 0.
Proof.
  intro Hr. unfold petro_value, petro_annulus, petro_aperture, _aperture_mean_nomask.
  cbn [do_photometry area photutils _annulus_width _eta default_config].
  rewrite !point_source_photometry.
  cbn [reduced inside].
  rewrite !in_ellipse_center by reflexivity.
  cbn [andb negb].
  unfold aperture_area. cbn [reduced].
  assert (Hr' : 1 <= Qred r) by (rewrite Qred_correct; exact Hr).
  set (r' := Qred r) in *.
  assert (Hpi : 0 < pi_approx) by reflexivity.
  assert (Harea : 0 < pi_approx * r' * r').
  { apply Qmult_lt_0_compat; [apply Qmult_lt_0_compat|]; lra. }
  assert (Hmean : 0 < 1 / (pi_approx * r' * r')).
  { apply Qlt_shift_div_l; [exact Harea|lra]. }
  assert (Habs : Qabs (1 / (pi_approx * r' * r')) == 1 / (pi_approx * r' * r')).
  { apply Qabs_pos. lra. }
  replace (Qeq_bool (Qabs (1 / (pi_approx * r' * r'))) 0) with false
    by (symmetry; apply Qeq_bool_false_iff; rewrite Habs; lra).
  rewrite !point_source_photometry.
  cbn [reduced inside].
  rewrite !in_ellipse_center by reflexivity.
  cbn [andb negb].
  match goal with
  | |- Qabs (0 / ?d) / _ - _ < 0 =>
      assert (Hz : Qabs (0 / d) == 0)
        by (unfold Qdiv; rewrite Qmult_0_l; reflexivity)
  end.
  rewrite Hz. unfold Qdiv at 1. rewrite Qmult_0_l. reflexivity.
Qed.

(** Under the default options, on a 5x5 stamp whose light is all in the
    central pixel, [f] is negative at every radius of the scan from the
    centre of that pixel: the solver raises the flag at each step and
    never returns, whatever the number of steps it is given. *)
Example point_source_never_returns fuel :
  _rpetro_circ_generic default_config (point_source 2 1) fuel (2.5, 2.5) (s0 32)
  = OutOfFuel.
Proof.
  change (_rpetro_circ_generic default_config (point_source 2 1) fuel (2.5, 2.5))
    with (rpetro_generic default_config (point_source 2 1) fuel (Circ (2.5, 2.5))).
  rewrite rpetro_generic_unfold by reflexivity.
  rewrite (@petro_scan_negative_fuel
             (petro_fn default_config (point_source 2 1) (Circ (2.5, 2.5)))
             (petro_value default_config (point_source 2 1) (Circ (2.5, 2.5))));
    [reflexivity|].
  intros k _.
  assert (Hk : 1 <= grid_from
                      ((_diagonal_distance (point_source 2 1) - 1) / Qof_nat (npoints - 1))
                      1 k).
  { apply grid_from_lower. vm_compute. discriminate. }
  split.
  - apply petro_fn_tame. cbn [_annulus_width default_config]. lra.
  - apply point_source_value. exact Hk.
Qed.

End PointSourceExample.

(** ** Signal-to-noise per pixel *)

Section SignalToNoiseFacts.

Context `{Numpy}.
Local Open Scope Q_scope.

Lemma any2d_map2d {A} (p : A -> bool) (a : list (list A)) :
  any2d (map2d p a) = true <-> has_entry (fun x => p x = true) a.
Proof.
  unfold any2d, map2d, has_entry. rewrite existsb_exists. split.
  - intros [brow [Hin Hex]]. apply in_map_iff in Hin.
    destruct Hin as [row [<- Hrow]]. apply existsb_exists in Hex.
    destruct Hex as [b [Hb Hbt]]. apply in_map_iff in Hb.
    destruct Hb as [x [<- Hx]]. exists row, x. subst. auto.
  - intros [row [x [Hrow [Hx Hp]]]]. exists (map p row). split.
    + apply in_map. exact Hrow.
    + apply existsb_exists. exists (p x). split; [apply in_map; exact Hx|exact Hp].
Qed.

Lemma sn_per_pixel_run cutout segmap_gini variance sky_sigma s :
  sn_per_pixel cutout segmap_gini variance sky_sigma s =
  let snp := sn_mean cutout segmap_gini (effective_variance variance) sky_sigma in
  if isfinite snp then Returned snp s else Returned (Fin (-99)) (flagged s).
Proof.
  unfold sn_per_pixel, sn_mean. cbv zeta.
  match goal with |- context [isfinite ?x] => destruct (isfinite x) end; reflexivity.
Qed.

(** C3 (as the code has it).  When the variance array has a negative
    entry, [sn_per_pixel] works with the absolute value of the whole
    array.  That alone does not raise the general flag: the flag is
    raised, and the invalid value -99 returned, exactly when the mean
    signal-to-noise taken with the absolute variances is not finite;
    otherwise that mean is returned and the state is left as it was. *)
Theorem sn_per_pixel_negative_variance
    (cutout : image) (segmap_gini : bmask) (variance : image)
    (sky_sigma : fval) (s : state) :
  has_entry (fun v => v < 0) variance ->
  effective_variance variance = map2d Qabs variance /\
  let snp := sn_mean cutout segmap_gini (map2d Qabs variance) sky_sigma in
  (isfinite snp = true ->
     sn_per_pixel cutout segmap_gini variance sky_sigma s = Returned snp s) /\
  (isfinite snp = false ->
     sn_per_pixel cutout segmap_gini variance sky_sigma s
     = Returned (Fin (-99)) (flagged s)).
Proof.
  intros Hneg.
  assert (E : effective_variance variance = map2d Qabs variance).
  { unfold effective_variance.
    replace (any2d (map2d (fun v => Qltb v 0) variance)) with true; [reflexivity|].
    symmetry. apply any2d_map2d.
    destruct Hneg as (row & x & Hrow & Hx & Hlt).
    exists row, x. repeat split; try assumption. apply Qltb_iff. exact Hlt. }
  split; [exact E|]. cbv zeta.
  rewrite sn_per_pixel_run, E. cbv zeta.
  split; intros ->; reflexivity.
Qed.

End SignalToNoiseFacts.

Section SignalToNoiseExamples.

Import Reference.
Local Open Scope Q_scope.

(** Two pixels of flux 3 with variances -4 and 4 and no sky noise. *)
Lemma sn_per_pixel_negative_variance_witness :
  effective_variance [[-4; 4]] = map2d Qabs [[-4; 4]] /\
  let snp := sn_mean [[3; 3]] [[true; true]] (map2d Qabs [[-4; 4]]) (Fin 0) in
  (isfinite snp = true ->
     sn_per_pixel [[3; 3]] [[true; true]] [[-4; 4]] (Fin 0) (s0 32) = Returned snp (s0 32)) /\
  (isfinite snp = false ->
     sn_per_pixel [[3; 3]] [[true; true]] [[-4; 4]] (Fin 0) (s0 32)
     = Returned (Fin (-99)) (flagged (s0 32))).
Proof.
  apply (@sn_per_pixel_negative_variance numpy [[3; 3]] [[true; true]] [[-4; 4]]
           (Fin 0) (s0 32)).
  exists [-4; 4], (-4). repeat split; simpl; auto.
Defined.

(** C3 (as stated) fails there: the variance array has a negative entry,
    its absolute value is used (3/2 + 3/2 over two pixels), and the
    general flag is still 0 afterwards. *)
Lemma sn_per_pixel_flag_not_raised :
  has_entry (fun v => v < 0) [[-4; 4]] /\
  exists snp s',
    sn_per_pixel [[3; 3]] [[true; true]] [[-4; 4]] (Fin 0) (s0 32)
      = Returned (Fin snp) s' /\
    snp == 3 # 2 /\
    flag s' = 0%Z.
Proof.
  split.
  - exists [-4; 4], (-4). repeat split; simpl; auto.
  - eexists. eexists. split; [vm_compute; reflexivity|]. split; reflexivity.
Qed.

End SignalToNoiseExamples.

(** ** The sky box *)

Section SkyboxFacts.

Variable cfg : config.
Variable segmap : list (list Z).
Variable mask_opt : option bmask.
Local Open Scope Z_scope.

Lemma slice_skybox_unfold fuel s :
  2 * _border_size cfg <= snd (shape segmap) ->
  2 * _border_size cfg <= fst (shape segmap) ->
  _slice_skybox cfg segmap mask_opt fuel s = skybox_loop cfg segmap mask_opt fuel s.
Proof.
  intros Hx Hy. unfold _slice_skybox. destruct (shape segmap) as [ny nx].
  cbn [fst snd] in Hx, Hy.
  replace (nx <? 2 * _border_size cfg) with false by (symmetry; apply Z.ltb_ge; lia).
  replace (ny <? 2 * _border_size cfg) with false by (symmetry; apply Z.ltb_ge; lia).
  reflexivity.
Qed.

Lemma skybox_loop_step fuel s :
  skybox_loop cfg segmap mask_opt (S fuel) s =
  match find_skybox cfg segmap mask_opt (_skybox_size s) with
  | Some box => Returned box s
  | None =>
      if _skybox_size s <? _border_size cfg
      then Returned (corner_box cfg (_skybox_size s)) (flagged s)
      else skybox_loop cfg segmap mask_opt fuel
             (with_skybox_size (_skybox_size s / 2) s)
  end.
Proof.
  cbn [skybox_loop]. unfold bind at 1. cbn [get_skybox_size].
  destruct (find_skybox cfg segmap mask_opt (_skybox_size s)); [reflexivity|].
  destruct (_skybox_size s <? _border_size cfg); reflexivity.
Qed.

(** A box the search returns is a sky box. *)
Lemma find_first_some {A B} (f : A -> option B) l b :
  find_first f l = Some b -> exists x, In x l /\ f x = Some b.
Proof.
  induction l as [|x l IH]; simpl; [discriminate|].
  destruct (f x) as [b'|] eqn:E.
  - intros [= <-]. exists x. auto.
  - intro Hf. destruct (IH Hf) as [y [Hy Hfy]]. exists y. auto.
Qed.

Lemma find_skybox_sky size box :
  find_skybox cfg segmap mask_opt size = Some box ->
  box_is_sky segmap mask_opt box = true /\
  exists i j, box = ((i, i + size), (j, j + size)) /\ _border_size cfg <= i /\
              _border_size cfg <= j.
Proof.
  unfold find_skybox. destruct (shape segmap) as [ny nx]. intro Hf.
  apply find_first_some in Hf. destruct Hf as [i [Hi Hf]].
  apply find_first_some in Hf. destruct Hf as [j [Hj Hf]].
  destruct (box_is_sky segmap mask_opt (i, i + size, (j, j + size))) eqn:E;
    [|discriminate].
  injection Hf as <-. split; [exact E|].
  apply in_range in Hi. apply in_range in Hj.
  exists i, j. repeat split; lia.
Qed.

(** Every run that returns either found a sky box, the flag untouched, or
    fell back to the corner box with a side below the border size. *)
Lemma skybox_loop_returns fuel : forall s box s',
  skybox_loop cfg segmap mask_opt fuel s = Returned box s' ->
  (box_is_sky segmap mask_opt box = true /\ flag s' = flag s) \/
  (s' = flagged (with_skybox_size (_skybox_size s') s) /\
   _skybox_size s' < _border_size cfg /\
   box = corner_box cfg (_skybox_size s')).
Proof.
  induction fuel as [|fuel IH]; intros s box s'; [discriminate|].
  rewrite skybox_loop_step.
  destruct (find_skybox cfg segmap mask_opt (_skybox_size s)) as [bx|] eqn:Ef.
  - intros [= <- <-]. left. split; [|reflexivity].
    apply (find_skybox_sky _ Ef).
  - destruct (_skybox_size s <? _border_size cfg) eqn:Elt.
    + intros [= <- <-]. right. apply Z.ltb_lt in Elt.
      split; [reflexivity|]. split; [exact Elt|reflexivity].
    + intro Hrun. destruct (IH _ _ _ Hrun) as [[Hsky Hflag]|(Hs' & Hlt & Hbox)].
      * left. split; assumption.
      * right. repeat split; assumption.
Qed.

(** With a positive border size the loop ends. *)
Lemma skybox_loop_total fuel : forall s,
  0 < _border_size cfg ->
  (Z.to_nat (_skybox_size s) < fuel)%nat ->
  exists box s', skybox_loop cfg segmap mask_opt fuel s = Returned box s'.
Proof.
  induction fuel as [|fuel IH]; intros s Hb Hfuel; [lia|].
  rewrite skybox_loop_step.
  destruct (find_skybox cfg segmap mask_opt (_skybox_size s)) as [bx|];
    [eauto|].
  destruct (_skybox_size s <? _border_size cfg) eqn:Elt; [eauto|].
  apply Z.ltb_ge in Elt. apply IH; [exact Hb|]. simpl.
  assert (_skybox_size s / 2 < _skybox_size s) by (apply Z.div_lt; lia).
  assert (0 <= _skybox_size s / 2) by (apply Z.div_pos; lia).
  lia.
Qed.

(** C4 (as the code has it).  On a stamp at least two borders wide and
    high, with no sky box of the current size:
    - if [skybox_size < border_size], the search falls back to the corner
      box of that size at the border inset and raises the general flag;
    - if [skybox_size >= border_size], equality included, it halves
      [skybox_size] and retries.
    So a run that ends in the fallback ends with a side strictly below the
    border size, every other run returns a sky box and leaves the flag
    alone, and with a positive border size the search always ends. *)
Theorem skybox_fallback_below_border (s : state) :
  let b := _border_size cfg in
  let size := _skybox_size s in
  2 * b <= snd (shape segmap) ->
  2 * b <= fst (shape segmap) ->
  (find_skybox cfg segmap mask_opt size = None ->
     (size < b ->
        forall fuel,
          _slice_skybox cfg segmap mask_opt (S fuel) s
          = Returned (corner_box cfg size) (flagged s)) /\
     (b <= size ->
        forall fuel,
          _slice_skybox cfg segmap mask_opt (S fuel) s
          = _slice_skybox cfg segmap mask_opt fuel (with_skybox_size (size / 2) s))) /\
  (forall fuel box s',
     _slice_skybox cfg segmap mask_opt fuel s = Returned box s' ->
     (box_is_sky segmap mask_opt box = true /\ flag s' = flag s) \/
     (flag s' = 1 /\ _skybox_size s' < b /\ box = corner_box cfg (_skybox_size s'))) /\
  (0 < b ->
     forall fuel, (Z.to_nat size < fuel)%nat ->
       exists box s', _slice_skybox cfg segmap mask_opt fuel s = Returned box s').
Proof.
  intros b size Hx Hy. split; [|split].
  - intro Hnone. split; intros Hcmp fuel.
    + rewrite slice_skybox_unfold, skybox_loop_step by assumption.
      fold size. rewrite Hnone.
      replace (size <? _border_size cfg) with true by (symmetry; apply Z.ltb_lt; exact Hcmp).
      reflexivity.
    + rewrite !slice_skybox_unfold, skybox_loop_step by assumption.
      fold size. rewrite Hnone.
      replace (size <? _border_size cfg) with false by (symmetry; apply Z.ltb_ge; exact Hcmp).
      reflexivity.
  - intros fuel box s'. rewrite slice_skybox_unfold by assumption. intro Hrun.
    destruct (skybox_loop_returns _ _ Hrun) as [H1|(Hs' & Hlt & Hbox)];
      [left; exact H1|right].
    repeat split; try assumption. rewrite Hs'. reflexivity.
  - intros Hb fuel Hfuel. rewrite slice_skybox_unfold by assumption.
    apply skybox_loop_total; assumption.
Qed.

End SkyboxFacts.

Section SkyboxExamples.

Import Reference.
Local Open Scope Z_scope.

(** An 8x8 stamp covered by the source, under the default border of 4. *)
Lemma skybox_fallback_below_border_witness :
  let cfg := default_config in
  let segmap := const_stamp 8 8 1 in
  let s := s0 4 in
  (find_skybox cfg segmap None 4 = None ->
     (4 < 4 ->
        forall fuel,
          _slice_skybox cfg segmap None (S fuel) s
          = Returned (corner_box cfg 4) (flagged s)) /\
     (4 <= 4 ->
        forall fuel,
          _slice_skybox cfg segmap None (S fuel) s
          = _slice_skybox cfg segmap None fuel (with_skybox_size (4 / 2) s))) /\
  (forall fuel box s',
     _slice_skybox cfg segmap None fuel s = Returned box s' ->
     (box_is_sky segmap None box = true /\ flag s' = flag s) \/
     (flag s' = 1 /\ _skybox_size s' < 4 /\ box = corner_box cfg (_skybox_size s'))) /\
  (0 < 4 ->
     forall fuel, (Z.to_nat 4 < fuel)%nat ->
       exists box s', _slice_skybox cfg segmap None fuel s = Returned box s').
Proof.
  apply (@skybox_fallback_below_border default_config (const_stamp 8 8 1) None (s0 4));
    vm_compute; discriminate.
Defined.

(** C4 (as stated) fails on that stamp when [skybox_size] equals
    [border_size]: there is no sky box of side 4, yet the search does not
    fall back to the corner box of side 4; it halves the side to 2 and
    falls back only then.  Started from the default side of 32 it passes
    through side 4 in the same way. *)
Lemma skybox_halves_at_equal_sizes :
  find_skybox default_config (const_stamp 8 8 1) None 4 = None /\
  _slice_skybox default_config (const_stamp 8 8 1) None 10 (s0 4)
    = Returned ((4, 6), (4, 6)) (mkState 1 0 2) /\
  _slice_skybox default_config (const_stamp 8 8 1) None 10 (s0 32)
    = Returned ((4, 6), (4, 6)) (mkState 1 0 2).
Proof.
  repeat split; vm_compute; reflexivity.
Qed.

End SkyboxExamples.

(** ** Construction: writes to the caller's arrays, bad-pixel count *)

Section ConstructionFacts.

Context `{Scipy} `{Numpy}.
Variable cfg : config.

Lemma zip_with_map_l {A B C D} (f : B -> C -> D) (g : A -> B) l1 l2 :
  zip_with f (map g l1) l2 = zip_with (fun x y => f (g x) y) l1 l2.
Proof.
  revert l2. induction l1 as [|x l1 IH]; intros [|y l2]; simpl; try reflexivity.
  now rewrite IH.
Qed.

Lemma zip_with_diag {A C} (f : A -> A -> C) l :
  zip_with f l l = map (fun x => f x x) l.
Proof.
  induction l as [|x l IH]; simpl; [reflexivity|now rewrite IH].
Qed.

Lemma zip_with_zip_l {A B C D E} (f : C -> D -> E) (g : A -> B -> C) l1 l2 l3 :
  zip_with f (zip_with g l1 l2) l3 =
  zip_with (fun p z => f (g (fst p) (snd p)) z) (zip_with pair l1 l2) l3.
Proof.
  revert l2 l3. induction l1 as [|x l1 IH]; intros [|y l2] [|z l3]; simpl;
    try reflexivity.
  now rewrite IH.
Qed.

Lemma zip_with_ext {A B C} (f g : A -> B -> C) l1 l2 :
  (forall x y, In x l1 -> In y l2 -> f x y = g x y) ->
  zip_with f l1 l2 = zip_with g l1 l2.
Proof.
  revert l2. induction l1 as [|x l1 IH]; intros [|y l2] E; simpl; try reflexivity.
  rewrite E, IH; simpl; auto. intros; apply E; simpl; auto.
Qed.

(** Without a variance array the non-finite image entries are zeroed. *)
Lemma zero_where_image (img : list (list fval)) :
  zero_where (map2d (fun x => negb (isfinite x)) img) img
  = map2d (fun x => sanitized_pixel x (Fin 0)) img.
Proof.
  unfold zero_where, zip2d, map2d.
  induction img as [|row img IH]; simpl; [reflexivity|]. rewrite IH. f_equal.
  rewrite zip_with_map_l, zip_with_diag. apply map_ext. intro x.
  unfold sanitized_pixel. destruct (isfinite x); reflexivity.
Qed.

(** The mask of the invalid positions, row by row. *)
Lemma zero_where_row_image (r v : list fval) :
  zip_with (fun (b : bool) x => if b then Fin 0 else x)
    (zip_with orb (map (fun x => negb (isfinite x)) r)
                  (map (fun x => negb (isfinite x)) v)) r
  = zip_with sanitized_pixel r v.
Proof.
  revert v. induction r as [|x r IH]; intros [|y v]; simpl; try reflexivity.
  rewrite IH. f_equal. unfold sanitized_pixel.
  destruct (isfinite x), (isfinite y); reflexivity.
Qed.

Lemma zero_where_row_variance (r v : list fval) :
  zip_with (fun (b : bool) x => if b then Fin 0 else x)
    (zip_with orb (map (fun x => negb (isfinite x)) r)
                  (map (fun x => negb (isfinite x)) v)) v
  = zip_with sanitized_variance r v.
Proof.
  revert v. induction r as [|x r IH]; intros [|y v]; simpl; try reflexivity.
  rewrite IH. f_equal. unfold sanitized_variance.
  destruct (isfinite x), (isfinite y); reflexivity.
Qed.

Lemma zero_where_both_image (img var : list (list fval)) :
  zero_where (zip2d orb (map2d (fun x => negb (isfinite x)) img)
                        (map2d (fun x => negb (isfinite x)) var)) img
  = zip2d sanitized_pixel img var.
Proof.
  unfold zero_where, zip2d, map2d. revert var.
  induction img as [|r img IH]; intros [|v var]; simpl; try reflexivity.
  rewrite IH, zero_where_row_image. reflexivity.
Qed.

Lemma zero_where_both_variance (img var : list (list fval)) :
  zero_where (zip2d orb (map2d (fun x => negb (isfinite x)) img)
                        (map2d (fun x => negb (isfinite x)) var)) var
  = zip2d sanitized_variance img var.
Proof.
  unfold zero_where, zip2d, map2d. revert var.
  induction img as [|r img IH]; intros [|v var]; simpl; try reflexivity.
  rewrite IH, zero_where_row_variance. reflexivity.
Qed.

(** Finite entries are left alone. *)
Lemma sanitized_row_finite (r v : list fval) :
  length r = length v ->
  Forall (fun x => isfinite x = true) r ->
  Forall (fun x => isfinite x = true) v ->
  zip_with sanitized_pixel r v = r /\ zip_with sanitized_variance r v = v.
Proof.
  revert v. induction r as [|x r IH]; intros [|y v] Hlen Hr Hv; simpl;
    try discriminate; [split; reflexivity|].
  inversion Hr as [|? ? Hx Hr']; inversion Hv as [|? ? Hy Hv']; subst.
  destruct (IH v) as [E1 E2]; [simpl in Hlen; lia|assumption|assumption|].
  rewrite E1, E2. unfold sanitized_pixel, sanitized_variance. rewrite Hx, Hy.
  split; reflexivity.
Qed.

Lemma sanitized_finite (img var : list (list fval)) :
  same_shape img var -> all_finite img -> all_finite var ->
  zip2d sanitized_pixel img var = img /\ zip2d sanitized_variance img var = var.
Proof.
  unfold zip2d. induction 1 as [|r v img var Hlen _ IH]; intros Hi Hv; simpl;
    [split; reflexivity|].
  inversion Hi as [|? ? Hr Hi']; inversion Hv as [|? ? Hvr Hv']; subst.
  destruct (IH Hi' Hv') as [E1 E2].
  destruct (sanitized_row_finite Hlen Hr Hvr) as [E3 E4].
  rewrite E1, E2, E3, E4. split; reflexivity.
Qed.

Lemma sanitized_finite_image (img : list (list fval)) :
  all_finite img -> map2d (fun x => sanitized_pixel x (Fin 0)) img = img.
Proof.
  unfold map2d. induction 1 as [|r img Hr _ IH]; simpl; [reflexivity|].
  rewrite IH. f_equal. induction Hr as [|x r Hx _ IHr]; simpl; [reflexivity|].
  rewrite IHr. unfold sanitized_pixel. rewrite Hx. reflexivity.
Qed.

(** The constructor's results in terms of the sanitised arrays. *)
Lemma init_run (skybox_size : Z) (caller : arrays) :
  exists mask,
    __init__ cfg skybox_size caller =
    let variance :=
      option_map (zip2d sanitized_variance (arr_image caller)) (arr_variance caller) in
    let '(image, num_badpixels) :=
      if _remove_outliers cfg then _remove_badpixels cfg (sanitized_image caller)
      else (sanitized_image caller, (-1)%Z) in
    (mkArrays image (arr_segmap caller) (arr_mask caller) variance,
     mkObject num_badpixels mask (mkState 0 0 skybox_size)).
Proof.
  destruct caller as [img seg msk [var|]]; unfold __init__, sanitized_image;
    cbv zeta; cbn [arr_image arr_segmap arr_mask arr_variance option_map].
  - rewrite zero_where_both_image, zero_where_both_variance.
    eexists. reflexivity.
  - rewrite zero_where_image. eexists. reflexivity.
Qed.

(** C5 (as the code has it).  The constructor never writes to the caller's
    segmentation map or mask.  It does write to the caller's image and
    variance, in place, and not only in the bad-pixel pass: before that
    pass it sets to zero, in both arrays, every position where the image or
    the variance is not finite.  The bad-pixel pass, when enabled, then
    runs on the image so zeroed.  When every entry of both arrays is
    finite and the bad-pixel pass is disabled, the caller's arrays are
    unchanged. *)
Theorem init_writes (skybox_size : Z) (caller : arrays) :
  let after := fst (__init__ cfg skybox_size caller) in
  arr_segmap after = arr_segmap caller /\
  arr_mask after = arr_mask caller /\
  arr_variance after
    = option_map (zip2d sanitized_variance (arr_image caller)) (arr_variance caller) /\
  arr_image after
    = (if _remove_outliers cfg
       then fst (_remove_badpixels cfg (sanitized_image caller))
       else sanitized_image caller) /\
  (_remove_outliers cfg = false ->
   all_finite (arr_image caller) ->
   match arr_variance caller with
   | Some variance => same_shape (arr_image caller) variance /\ all_finite variance
   | None => True
   end ->
   after = caller).
Proof.
  destruct (init_run skybox_size caller) as [mask ->]. cbv zeta.
  destruct (_remove_outliers cfg) eqn:Ero.
  - destruct (_remove_badpixels cfg (sanitized_image caller)) as [img' n].
    cbn [fst arr_image arr_segmap arr_mask arr_variance].
    repeat split; try reflexivity. discriminate.
  - cbn [fst arr_image arr_segmap arr_mask arr_variance].
    repeat split; try reflexivity.
    intros _ Hfin Hvar. destruct caller as [img seg msk [v|]];
      unfold sanitized_image; cbn [arr_image arr_variance option_map] in *.
    + destruct Hvar as [Hshape Hvfin].
      destruct (sanitized_finite Hshape Hfin Hvfin) as [E1 E2].
      rewrite E1, E2. reflexivity.
    + rewrite (sanitized_finite_image Hfin). reflexivity.
Qed.

(** C10.  When [remove_outliers] is false the bad-pixel count of the new
    object is exactly -1; when it is true the count is the number of
    pixels the filter zeroed, which is never negative, so the two cases
    can be told apart. *)
Theorem num_badpixels_sentinel (skybox_size : Z) (caller : arrays) :
  (_remove_outliers cfg = false ->
     num_badpixels (snd (__init__ cfg skybox_size caller)) = (-1)%Z) /\
  (_remove_outliers cfg = true ->
     num_badpixels (snd (__init__ cfg skybox_size caller))
       = snd (_remove_badpixels cfg (sanitized_image caller)) /\
     (0 <= num_badpixels (snd (__init__ cfg skybox_size caller)))%Z).
Proof.
  destruct (init_run skybox_size caller) as [mask ->]. cbv zeta.
  destruct (_remove_outliers cfg) eqn:Ero.
  - split; [discriminate|]. intros _.
    unfold _remove_badpixels. cbn [snd num_badpixels]. split; [reflexivity|].
    unfold count_true. lia.
  - split; [reflexivity|discriminate].
Qed.

(** The flags of a new object are both 0. *)
Lemma init_flags (skybox_size : Z) (caller : arrays) :
  obj_state (snd (__init__ cfg skybox_size caller)) = mkState 0 0 skybox_size.
Proof.
  destruct (init_run skybox_size caller) as [mask ->]. cbv zeta.
  destruct (if _remove_outliers cfg then _ else _). reflexivity.
Qed.

End ConstructionFacts.

Section ConstructionExamples.

Import Reference.

(** A finite 1x2 image without variance, the filter disabled. *)
Lemma num_badpixels_sentinel_witness :
  num_badpixels
    (snd (__init__ plain_config 32 (mkArrays [[Fin 1; Fin 2]] [[1; 1]]%Z None None)))
  = (-1)%Z.
Proof.
  apply (proj1 (@num_badpixels_sentinel scipy numpy plain_config 32
                  (mkArrays [[Fin 1; Fin 2]] [[1; 1]]%Z None None))).
  reflexivity.
Defined.

(** With the filter enabled, one bright pixel on an empty 5x5 image is
    zeroed and counted. *)
Example badpixel_removed :
  let caller := mkArrays (map2d Fin (point_source 2 100)) (const_stamp 5 5 1%Z) None None in
  let '(after, obj) := __init__ default_config 32 caller in
  arr_image after = map2d Fin (point_source 2 0) /\ num_badpixels obj = 1%Z.
Proof. vm_compute. split; reflexivity. Qed.

(** C5 (as stated) fails with the bad-pixel pass disabled: a NaN in the
    image is overwritten with 0 in the caller's array, and where the
    variance is infinite both the variance and a finite image pixel are
    overwritten with 0. *)
Lemma init_overwrites_nonfinite :
  arr_image (fst (__init__ plain_config 32
                    (mkArrays [[Fin 1; NaN]] [[1; 1]]%Z None None)))
    = [[Fin 1; Fin 0]] /\
  fst (__init__ plain_config 32
         (mkArrays [[Fin 1; Fin 2]] [[1; 1]]%Z None (Some [[PInf; Fin 3]])))
    = mkArrays [[Fin 0; Fin 2]] [[1; 1]]%Z None (Some [[Fin 0; Fin 3]]).
Proof. split; reflexivity. Qed.

End ConstructionExamples.

(** ** The asymmetry function *)

Section AsymmetryFacts.

Context `{Photutils} `{Skimage}.
Variable cfg : config.
Variable lv : lazy_values.
Local Open Scope Q_scope.

Lemma in_bounds_test center (img : image) :
  in_bounds center (fst (shape img)) (snd (shape img)) ->
  Qltb (fst center) 0 || Qle_bool (inject_Z (snd (shape img))) (fst center)
  || Qltb (snd center) 0 || Qle_bool (inject_Z (fst (shape img))) (snd center) = false.
Proof.
  intros (Hx0 & Hx1 & Hy0 & Hy1).
  replace (Qltb (fst center) 0) with false by (symmetry; apply Qltb_false_iff; lra).
  replace (Qltb (snd center) 0) with false by (symmetry; apply Qltb_false_iff; lra).
  replace (Qle_bool (inject_Z (snd (shape img))) (fst center)) with false
    by (symmetry; apply Qle_bool_false_iff; lra).
  replace (Qle_bool (inject_Z (fst (shape img))) (snd center)) with false
    by (symmetry; apply Qle_bool_false_iff; lra).
  reflexivity.
Qed.


End AsymmetryFacts.

Section AsymmetryExamples.

Import Reference.
Local Open Scope Q_scope.


(** The three kinds on that ramp, with and without a sky estimate, and the
    invalid cases: a one-pixel source, an empty image, a centre outside. *)
Example asymmetry_examples :
  _asymmetry_function default_config lazy3 (1, 1) ramp3 Cas (s0 32)
    = Returned (150 # 120) (s0 32) /\
  _asymmetry_function default_config lazy3_nosky (1, 1) ramp3 Cas (s0 32)
    = Returned (17 # 12) (s0 32) /\
  _asymmetry_function default_config lazy3 (1, 1) ramp3 Shape (s0 32)
    = Returned (33 # 36) (s0 32) /\
  _asymmetry_function default_config lazy3_point (1, 1) ramp3 Shape (s0 32)
    = Returned (-99) (flagged (s0 32)) /\
  _asymmetry_function default_config lazy3 (1, 1) (const_stamp 3 3 0) Cas (s0 32)
    = Returned (-99) (flagged (s0 32)) /\
  _asymmetry_function default_config lazy3 (3, 1) ramp3 Cas (s0 32)
    = Returned 100 (flagged (s0 32)).
Proof. repeat split; vm_compute; reflexivity. Qed.

End AsymmetryExamples.

(** ** rmax *)

Section RmaxFacts.

Context `{Photutils} `{Scipy} `{Numpy}.
Variable cutout : image.
Variable asymmetry_center : point.
Local Open Scope Q_scope.

(** What the proof needs of the square root: it maps 0 to 0 and does not
    take a number from 1 on below 1. *)
Hypothesis sqrt_zero : forall x, x == 0 -> np_sqrt x == 0.
Hypothesis sqrt_one : forall x, 1 <= x -> 1 <= np_sqrt x.

(** Pixel centres and the snapped centre lie on one half-integer grid, so
    a squared distance is a natural number. *)
Lemma squared_distance_integer (i j : Z) (c : Q * Q) :
  let ypos := inject_Z i + 0.5 in
  let xpos := inject_Z j + 0.5 in
  (ypos - floor_half (snd c)) ^ 2 + (xpos - floor_half (fst c)) ^ 2
  == inject_Z ((i - Qfloor (snd c)) ^ 2 + (j - Qfloor (fst c)) ^ 2).
Proof.
  cbv zeta. unfold floor_half.
  rewrite inject_Z_plus.
  replace ((i - Qfloor (snd c)) ^ 2)%Z
    with ((i - Qfloor (snd c)) * (i - Qfloor (snd c)))%Z by ring.
  replace ((j - Qfloor (fst c)) ^ 2)%Z
    with ((j - Qfloor (fst c)) * (j - Qfloor (fst c)))%Z by ring.
  rewrite !inject_Z_mult.
  unfold Z.sub. rewrite !inject_Z_plus, !inject_Z_opp.
  change (?x ^ 2) with (x * x). ring.
Qed.

(** A distance is 0 or at least 1. *)
Lemma distance_gap d :
  In d (flatten (distances cutout asymmetry_center)) -> d == 0 \/ 1 <= d.
Proof.
  unfold flatten, distances. destruct (shape cutout) as [ny nx].
  rewrite in_concat. intros [row [Hrow Hd]].
  apply in_map_iff in Hrow. destruct Hrow as [i [<- _]].
  apply in_map_iff in Hd. destruct Hd as [j [<- _]].
  pose proof (squared_distance_integer i j asymmetry_center) as E. cbv zeta in E.
  set (n := ((i - Qfloor (snd asymmetry_center)) ^ 2
             + (j - Qfloor (fst asymmetry_center)) ^ 2)%Z) in E.
  assert (Hn : (0 <= n)%Z) by (unfold n; nia).
  destruct (Z.eq_dec n 0) as [Hz|Hnz].
  - left. apply sqrt_zero. rewrite E, Hz. reflexivity.
  - right. apply sqrt_one. rewrite E. change 1 with (inject_Z 1).
    rewrite <- Zle_Qle. lia.
Qed.

Lemma mask_select_in {A} (a : list A) m x : In x (mask_select a m) -> In x a.
Proof.
  revert m. induction a as [|y a IH]; intros [|b m]; simpl; try contradiction.
  destruct b; simpl; intros Hx; [destruct Hx as [->|Hx]|]; eauto.
Qed.

(** [np.max] of a non-empty array is one of its entries and bounds them. *)
Lemma fold_max_spec ds : forall d,
  let m := fold_left Qmax ds d in
  (exists x, In x (d :: ds) /\ m == x) /\ (forall x, In x (d :: ds) -> x <= m).
Proof.
  induction ds as [|y ds IH]; intro d; cbn [fold_left].
  - split; [exists d; split; [left|]; reflexivity|].
    intros x [<-|[]]. lra.
  - destruct (IH (Qmax d y)) as [[x [Hx Ex]] Hub]. split.
    + destruct Hx as [<-|Hx].
      * destruct (Q.max_spec d y) as [[_ E]|[_ E]].
        -- exists y. split; [right; left; reflexivity|exact (Qeq_trans _ _ _ Ex E)].
        -- exists d. split; [left; reflexivity|exact (Qeq_trans _ _ _ Ex E)].
      * exists x. split; [right; right; exact Hx|exact Ex].
    + intros z [<-|[<-|Hz]].
      * pose proof (Hub (Qmax d y) (or_introl eq_refl)) as Hm.
        pose proof (Q.le_max_l d y). lra.
      * pose proof (Hub (Qmax d y) (or_introl eq_refl)) as Hm.
        pose proof (Q.le_max_r d y). lra.
      * apply Hub. right. exact Hz.
Qed.

(** C8.  On a shape-asymmetry segmap that selects at least one pixel of
    the stamp, [rmax] returns the largest of the distances from the
    snapped centre to the selected pixel centres.  If that value is
    below 1 it is 0: the assertion of line 1678 holds, no
    [AssertionError] is raised, and the general flag is raised.  If it is
    at least 1 the state is left alone. *)
Theorem rmax_below_one_is_zero (segmap_shape_asym : bmask) (s : state) :
  let selected :=
    mask_select (flatten (distances cutout asymmetry_center))
                (flatten segmap_shape_asym) in
  selected <> [] ->
  exists r,
    rmax cutout asymmetry_center segmap_shape_asym s
      = Returned r (if Qltb r 1 then flagged s else s) /\
    (exists d, In d selected /\ r == d) /\
    (forall d, In d selected -> d <= r) /\
    (r < 1 -> r == 0).
Proof.
  cbv zeta. intro Hne. unfold rmax.
  destruct (mask_select (flatten (distances cutout asymmetry_center))
              (flatten segmap_shape_asym)) as [|d ds] eqn:Esel; [contradiction|].
  destruct (fold_max_spec ds d) as [[x [Hx Ex]] Hub]. cbv zeta in Ex, Hub.
  set (r := fold_left Qmax ds d) in *.
  assert (Hgap : r == 0 \/ 1 <= r).
  { assert (Hin : In x (flatten (distances cutout asymmetry_center))).
    { apply (@mask_select_in _ _ (flatten segmap_shape_asym)).
      rewrite Esel. exact Hx. }
    destruct (distance_gap _ Hin) as [Hd0|Hd1]; [left|right]; rewrite Ex; assumption. }
  exists r. split; [|split; [|split]].
  - unfold bind at 1. destruct (Qltb r 1) eqn:Elt; cbn [when].
    + apply Qltb_iff in Elt.
      assert (Hz : r == 0) by (destruct Hgap; [assumption|exfalso; lra]).
      apply Qeq_bool_iff in Hz. unfold bind at 1. rewrite Hz. reflexivity.
    + reflexivity.
  - exists x. split; assumption.
  - exact Hub.
  - intro Hlt. destruct Hgap; [assumption|exfalso; lra].
Qed.

End RmaxFacts.

Section RmaxExamples.

Import Reference.
Local Open Scope Q_scope.

Lemma sqrt_floor_zero x : x == 0 -> sqrt_floor x == 0.
Proof.
  destruct x as [p q]. unfold Qeq, sqrt_floor. simpl. intro Hp.
  assert (p = 0%Z) by lia. subst. reflexivity.
Qed.

Lemma sqrt_floor_one x : 1 <= x -> 1 <= sqrt_floor x.
Proof.
  destruct x as [p q]. unfold Qle, sqrt_floor. simpl. intro Hp.
  assert (Hq : (Z.pos q <= Z.sqrt (p * Z.pos q))%Z).
  { apply Z.sqrt_le_square; nia. }
  lia.
Qed.

(** A one-pixel segmap at the centre of a 3x3 stamp: rmax is 0. *)
Lemma rmax_below_one_is_zero_witness :
  exists r,
    rmax (const_stamp 3 3 1) (1.2, 1.7)
         [[false; false; false]; [false; true; false]; [false; false; false]] (s0 32)
      = Returned r (if Qltb r 1 then flagged (s0 32) else s0 32) /\
    (exists d,
       In d (mask_select (flatten (distances (const_stamp 3 3 1) (1.2, 1.7)))
               (flatten [[false; false; false]; [false; true; false];
                         [false; false; false]])) /\
       r == d) /\
    (forall d,
       In d (mask_select (flatten (distances (const_stamp 3 3 1) (1.2, 1.7)))
               (flatten [[false; false; false]; [false; true; false];
                         [false; false; false]])) ->
       d <= r) /\
    (r < 1 -> r == 0).
Proof.
  apply (@rmax_below_one_is_zero numpy (const_stamp 3 3 1) (1.2, 1.7)
           sqrt_floor_zero sqrt_floor_one
           [[false; false; false]; [false; true; false]; [false; false; false]]
           (s0 32)).
  vm_compute. discriminate.
Defined.

(** That run, one on a segmap of two pixels, and one on an empty segmap. *)
Example rmax_examples :
  (exists r,
     rmax (const_stamp 3 3 1) (1.2, 1.7)
          [[false; false; false]; [false; true; false]; [false; false; false]] (s0 32)
       = Returned r (flagged (s0 32)) /\ r == 0) /\
  (exists r,
     rmax (const_stamp 3 3 1) (1.2, 1.7)
          [[false; false; false]; [false; true; true]; [false; false; false]] (s0 32)
       = Returned r (s0 32) /\ r == 1) /\
  rmax (const_stamp 3 3 1) (1.2, 1.7) (const_stamp 3 3 false) (s0 32)
    = Raised ValueError (s0 32).
Proof.
  split; [|split]; [eexists; split; vm_compute; reflexivity ..|].
  vm_compute. reflexivity.
Qed.

End RmaxExamples.

(** ** Monotonicity of the quality flags *)

Section FlagFacts.

Context `{Photutils} `{Scipy} `{Skimage} `{Numpy}.
Variable cfg : config.

Lemma monotone_bind_ret {A B} (a : A) (k : A -> M B) :
  monotone (k a) -> monotone (bind (ret a) k).
Proof. apply monotone_ext. reflexivity. Qed.

Lemma monotone_bind_raise {A B} (e : exn) (k : A -> M B) :
  monotone (bind (raise e) k).
Proof. apply (@monotone_ext _ (raise e)); [reflexivity|apply monotone_raise]. Qed.

(** A flag that is set stays set. *)
Lemma monotone_keeps_set {A} (m : M A) s s' :
  monotone m -> flags_ok s -> final_state (m s) = Some s' ->
  (flag s = 1%Z -> flag s' = 1%Z) /\ (flag_sersic s = 1%Z -> flag_sersic s' = 1%Z).
Proof.
  intros Hm Hok Hfin. destruct (Hm s s' Hok Hfin) as ([Hf Hs] & _ & Hl1 & Hl2).
  split; intro; lia.
Qed.

Lemma monotone_petrosian_function_circ cutout r c :
  monotone (_petrosian_function_circ cfg cutout r c).
Proof. unfold _petrosian_function_circ. mono. Qed.

Lemma monotone_petrosian_function_ellip cutout a c e t :
  monotone (_petrosian_function_ellip cfg cutout a c e t).
Proof. unfold _petrosian_function_ellip. mono. Qed.

Lemma monotone_petro_scan (f : Q -> M Q) r_outer dr fuel :
  (forall r, monotone (f r)) ->
  forall r r_min, monotone (petro_scan f r_outer dr fuel r r_min).
Proof.
  intro Hf. induction fuel as [|fuel IH]; intros r r_min; cbn [petro_scan].
  - apply monotone_diverge.
  - mono; auto.
Qed.

Lemma monotone_brentq_method (f : Q -> M Q) a b :
  (forall r, monotone (f r)) -> monotone (brentq_method f a b).
Proof.
  intros Hf s s' Hok. unfold brentq_method.
  match goal with |- final_state (?m s) = _ -> _ => assert (Hm : monotone m) end.
  { apply monotone_bind; [|intro; apply monotone_ret].
    apply monotone_for_each. intro x.
    apply monotone_bind; [apply Hf|intro; apply monotone_ret]. }
  apply Hm. exact Hok.
Qed.

Lemma monotone_rpetro_circ_generic cutout fuel c :
  monotone (_rpetro_circ_generic cfg cutout fuel c).
Proof.
  unfold _rpetro_circ_generic. apply monotone_bind; [mono|intros _].
  apply monotone_bind.
  - apply monotone_petro_scan. intro r. apply monotone_petrosian_function_circ.
  - intros [r|r_min r_max]; [mono|].
    apply monotone_brentq_method. intro r. apply monotone_petrosian_function_circ.
Qed.

Lemma monotone_rpetro_ellip_generic cutout fuel c e t :
  monotone (_rpetro_ellip_generic cfg cutout fuel c e t).
Proof.
  unfold _rpetro_ellip_generic. apply monotone_bind; [mono|intros _].
  apply monotone_bind.
  - apply monotone_petro_scan. intro r. apply monotone_petrosian_function_ellip.
  - intros [r|r_min r_max]; [mono|].
    apply monotone_brentq_method. intro r. apply monotone_petrosian_function_ellip.
Qed.

Lemma monotone_gini cutout segmap_gini : monotone (gini cutout segmap_gini).
Proof. unfold gini. mono. Qed.

Lemma monotone_sn_per_pixel cutout segmap_gini variance sky_sigma :
  monotone (sn_per_pixel cutout segmap_gini variance sky_sigma).
Proof. unfold sn_per_pixel. mono. Qed.

Lemma monotone_skybox_loop segmap mask_opt fuel :
  monotone (skybox_loop cfg segmap mask_opt fuel).
Proof.
  induction fuel as [|fuel IH]; cbn [skybox_loop]; [apply monotone_diverge|].
  mono; exact IH.
Qed.

Lemma monotone_slice_skybox segmap mask_opt fuel :
  monotone (_slice_skybox cfg segmap mask_opt fuel).
Proof.
  unfold _slice_skybox. destruct (shape segmap).
  mono; apply monotone_skybox_loop.
Qed.

Lemma monotone_asymmetry_function lv center img k :
  monotone (_asymmetry_function cfg lv center img k).
Proof.
  unfold _asymmetry_function. destruct (shape img), center. mono.
Qed.

Lemma monotone_radius_at_fraction_of_total_cas cutout center rpetro_circ fraction :
  monotone (_radius_at_fraction_of_total_cas cfg cutout center rpetro_circ fraction).
Proof.
  unfold _radius_at_fraction_of_total_cas.
  destruct (_radius_at_fraction_of_total _ _ _ _) as [[r fl]|e] eqn:E; cbn [lift].
  - apply monotone_bind_ret. apply radius_at_fraction_flag in E.
    apply monotone_bind; [apply monotone_max_flag; exact E|intros _]. mono.
  - apply monotone_bind_raise.
Qed.

Lemma monotone_half_light_radius cutout center rmax_value :
  monotone (half_light_radius cutout center rmax_value).
Proof.
  unfold half_light_radius. destruct (Qeq_bool rmax_value 0); [mono|].
  destruct (_radius_at_fraction_of_total _ _ _ _) as [[r fl]|e] eqn:E; cbn [lift].
  - apply monotone_bind_ret. apply radius_at_fraction_flag in E.
    apply monotone_bind; [apply monotone_max_flag; exact E|intros _]. mono.
  - apply monotone_bind_raise.
Qed.

Lemma monotone_rmax cutout center segmap_shape_asym :
  monotone (rmax cutout center segmap_shape_asym).
Proof. unfold rmax. mono. Qed.

Lemma monotone_check_segmaps g m sh : monotone (_check_segmaps cfg g m sh).
Proof. unfold _check_segmaps. mono. Qed.


End FlagFacts.

(** * Part V: further properties of the code

    Properties read off the source beyond the claims of the
    specification: edge and error behaviour, invariants, and how the
    methods compose. *)

(** ** Quantiles of sorted values *)

Section QuantileFacts.

Local Open Scope Q_scope.

Lemma py_int_floor x : 0 <= x -> py_int x = Qfloor x.
Proof.
  intro Hx. destruct x as [n d]. unfold py_int, Qfloor. simpl.
  apply Z.quot_div_nonneg; [|lia].
  unfold Qle in Hx. simpl in Hx. lia.
Qed.

Lemma py_int_nonneg x : 0 <= x -> (0 <= py_int x)%Z.
Proof.
  intro Hx. rewrite py_int_floor by exact Hx.
  change 0%Z with (Qfloor 0). apply Qfloor_resp_le. exact Hx.
Qed.

Lemma py_int_mono x y : 0 <= x -> x <= y -> (py_int x <= py_int y)%Z.
Proof.
  intros Hx Hxy. rewrite !py_int_floor by lra. apply Qfloor_resp_le. exact Hxy.
Qed.

(** The index of a quantile below 1 lies inside the array. *)
Lemma quantile_index_bound q n :
  0 <= q -> q < 1 -> (0 < n)%nat ->
  (Z.to_nat (py_int (q * Qof_nat n)) < n)%nat.
Proof.
  intros Hq0 Hq1 Hn.
  assert (Hn' : 0 < Qof_nat n).
  { unfold Qof_nat. change 0 with (inject_Z 0). rewrite <- Zlt_Qlt. lia. }
  assert (Hprod : 0 <= q * Qof_nat n) by (apply Qmult_le_0_compat; lra).
  rewrite py_int_floor by exact Hprod.
  pose proof (Qfloor_le (q * Qof_nat n)) as Hfl.
  assert (Hlt : inject_Z (Qfloor (q * Qof_nat n)) < inject_Z (Z.of_nat n)).
  { fold (Qof_nat n). nra. }
  rewrite <- Zlt_Qlt in Hlt.
  assert (0 <= Qfloor (q * Qof_nat n))%Z.
  { change 0%Z with (Qfloor 0). apply Qfloor_resp_le. exact Hprod. }
  lia.
Qed.

Lemma ascending_nth v i j :
  ascending v -> (i <= j < length v)%nat -> nth i v 0 <= nth j v 0.
Proof.
  intro Hv. revert i j. induction Hv as [|x l Hx _ IH]; intros i j Hij.
  - simpl in Hij. lia.
  - destruct j as [|j].
    + replace i with 0%nat by lia. lra.
    + destruct i as [|i].
      * simpl. rewrite Forall_forall in Hx. apply Hx. apply nth_In.
        simpl in Hij. lia.
      * simpl. apply IH. simpl in Hij. lia.
Qed.

Lemma last_nth (v : list Q) : last v 0 = nth (length v - 1) v 0.
Proof.
  induction v as [|x [|y l] IH]; try reflexivity.
  change (last (x :: y :: l) 0) with (last (y :: l) 0). rewrite IH.
  simpl. rewrite Nat.sub_0_r. reflexivity.
Qed.

(** What [_quantile] returns on a non-empty array for a quantile in
    [[0, 1]]: the entry at index [int(q * n)], the last one for [q = 1]. *)
Lemma quantile_value v q :
  v <> [] -> 0 <= q <= 1 ->
  exists k, (k < length v)%nat /\ _quantile v q = Ok (nth k v 0) /\
            k = (if Qeq_bool q 1 then length v - 1
                 else Z.to_nat (py_int (q * Qof_nat (length v))))%nat.
Proof.
  intros Hv [Hq0 Hq1]. unfold _quantile.
  assert (Hlen : (0 < length v)%nat) by (destruct v; [congruence|simpl; lia]).
  replace (Qle_bool 0 q) with true by (symmetry; apply Qle_bool_iff; exact Hq0).
  replace (Qle_bool q 1) with true by (symmetry; apply Qle_bool_iff; exact Hq1).
  simpl. destruct (Qeq_bool q 1) eqn:E.
  - exists (length v - 1)%nat. split; [lia|]. split; [|reflexivity].
    destruct v as [|x l]; [congruence|]. rewrite last_nth. reflexivity.
  - apply Qeq_bool_false_iff in E.
    assert (Hk := @quantile_index_bound q (length v) Hq0 ltac:(lra) Hlen).
    exists (Z.to_nat (py_int (q * Qof_nat (length v)))).
    split; [exact Hk|]. split; [|reflexivity].
    destruct (nth_error v _) as [x|] eqn:En.
    + f_equal. symmetry. apply nth_error_nth. exact En.
    + apply nth_error_None in En. lia.
Qed.

Lemma quantile_out_of_range v q :
  q < 0 \/ 1 < q -> _quantile v q = Error AssertionError.
Proof.
  intro Hq. unfold _quantile. destruct Hq as [Hq|Hq].
  - replace (Qle_bool 0 q) with false
      by (symmetry; apply Qle_bool_false_iff; exact Hq). reflexivity.
  - replace (Qle_bool q 1) with false
      by (symmetry; apply Qle_bool_false_iff; exact Hq).
    rewrite andb_false_r. reflexivity.
Qed.

Lemma quantile_empty q : 0 <= q <= 1 -> _quantile [] q = Error IndexError.
Proof.
  intros [Hq0 Hq1]. unfold _quantile.
  replace (Qle_bool 0 q) with true by (symmetry; apply Qle_bool_iff; exact Hq0).
  replace (Qle_bool q 1) with true by (symmetry; apply Qle_bool_iff; exact Hq1).
  simpl. destruct (Qeq_bool q 1); [reflexivity|].
  destruct (Z.to_nat _); reflexivity.
Qed.

(** A quantile that is returned was asked of a non-empty array, for a
    quantile in [[0, 1]], and is one of its entries. *)
Lemma quantile_returned v q x :
  _quantile v q = Ok x -> 0 <= q <= 1 /\ v <> [] /\ In x v.
Proof.
  intro E.
  destruct (Qlt_le_dec q 0) as [Hlt|Hge];
    [rewrite quantile_out_of_range in E by auto; discriminate|].
  destruct (Qlt_le_dec 1 q) as [Hgt|Hle];
    [rewrite quantile_out_of_range in E by auto; discriminate|].
  assert (Hv : v <> []).
  { intros ->. rewrite quantile_empty in E by auto. discriminate. }
  split; [auto|]. split; [exact Hv|].
  destruct (@quantile_value v q Hv (conj Hge Hle)) as (k & Hk & E' & _).
  rewrite E in E'. injection E' as ->. apply nth_In. exact Hk.
Qed.

(** X1.  [_quantile] never fails on a non-empty array for a quantile in
    [[0, 1]]: it returns an entry of the array, the first one for [q = 0]
    and the last one for [q = 1]; on increasing values the result lies
    between the first and the last entry.  Out of [[0, 1]] it raises
    AssertionError whatever the array; on an empty array it raises
    IndexError for every quantile in [[0, 1]]. *)
Theorem quantile_member (v : list Q) (q : Q) :
  (q < 0 \/ 1 < q -> _quantile v q = Error AssertionError) /\
  (0 <= q <= 1 -> v = [] -> _quantile v q = Error IndexError) /\
  (0 <= q <= 1 -> v <> [] ->
   exists x, _quantile v q = Ok x /\ In x v /\
             (q == 0 -> x = hd 0 v) /\ (q == 1 -> x = last v 0) /\
             (ascending v -> hd 0 v <= x <= last v 0)).
Proof.
  split; [apply quantile_out_of_range|]. split.
  - intros Hq ->. apply quantile_empty. exact Hq.
  - intros Hq Hv. destruct (quantile_value Hv Hq) as (k & Hk & E & Ek).
    exists (nth k v 0). split; [exact E|]. split; [apply nth_In; exact Hk|].
    split; [|split].
    + intro Hz. replace (Qeq_bool q 1) with false in Ek
        by (symmetry; apply Qeq_bool_false_iff; lra).
      assert (Hi : py_int (q * Qof_nat (length v)) = 0%Z).
      { rewrite py_int_floor by (rewrite Hz; lra).
        assert (Ez : q * Qof_nat (length v) == 0) by (rewrite Hz; lra).
        rewrite Ez. reflexivity. }
      rewrite Hi in Ek. subst k. destruct v; [congruence|reflexivity].
    + intro Ho. replace (Qeq_bool q 1) with true in Ek
        by (symmetry; apply Qeq_bool_iff; exact Ho).
      subst k. symmetry. apply last_nth.
    + intro Hasc. split.
      * replace (hd 0 v) with (nth 0 v 0) by (destruct v; reflexivity).
        apply ascending_nth; [exact Hasc|lia].
      * rewrite last_nth. apply ascending_nth; [exact Hasc|lia].
Qed.

(** X2.  On increasing values [_quantile] is monotone in the quantile: a
    larger quantile never gives a smaller value. *)
Theorem quantile_monotone (v : list Q) (q1 q2 x1 x2 : Q) :
  ascending v -> q1 <= q2 ->
  _quantile v q1 = Ok x1 -> _quantile v q2 = Ok x2 ->
  x1 <= x2.
Proof.
  intros Hasc Hq E1 E2.
  destruct (quantile_returned _ _ E1) as (Hr1 & Hv & _).
  destruct (quantile_returned _ _ E2) as (Hr2 & _ & _).
  destruct (quantile_value Hv Hr1) as (k1 & Hk1 & F1 & Ek1).
  destruct (quantile_value Hv Hr2) as (k2 & Hk2 & F2 & Ek2).
  rewrite F1 in E1. rewrite F2 in E2. injection E1 as <-. injection E2 as <-.
  apply ascending_nth; [exact Hasc|]. split; [|exact Hk2].
  destruct (Qeq_bool q2 1) eqn:B2.
  - subst k2. lia.
  - apply Qeq_bool_false_iff in B2.
    replace (Qeq_bool q1 1) with false in Ek1
      by (symmetry; apply Qeq_bool_false_iff; lra).
    subst k1 k2. apply Z2Nat.inj_le.
    + apply py_int_nonneg. apply Qmult_le_0_compat; [lra|apply Qof_nat_nonneg].
    + apply py_int_nonneg. apply Qmult_le_0_compat; [lra|apply Qof_nat_nonneg].
    + apply py_int_mono.
      * apply Qmult_le_0_compat; [lra|apply Qof_nat_nonneg].
      * pose proof (Qof_nat_nonneg (length v)). nra.
Qed.

(** The quartiles of 1, 2, 3, 4: indices 1 and 3. *)
Lemma quantile_monotone_witness :
  _quantile [1; 2; 3; 4] 0.25 = Ok 2 /\ _quantile [1; 2; 3; 4] 0.75 = Ok 4 /\ 2 <= 4.
Proof.
  split; [reflexivity|]. split; [reflexivity|].
  apply (@quantile_monotone [1; 2; 3; 4] 0.25 0.75 2 4).
  - repeat constructor; unfold Qle; simpl; lia.
  - unfold Qle; simpl; lia.
  - reflexivity.
  - reflexivity.
Defined.

End QuantileFacts.

(** ** The postage stamp, its masks and its cutouts *)

Section StampFacts.

Variable props : source_props.

Lemma py_int_scale d e : (0 <= d)%Z -> (1 <= e)%Q -> (d <= py_int (inject_Z d * e))%Z.
Proof.
  intros Hd He.
  assert (H0 : (0 <= inject_Z d)%Q).
  { change 0%Q with (inject_Z 0). rewrite <- Zle_Qle. exact Hd. }
  rewrite py_int_floor by (apply Qmult_le_0_compat; lra).
  rewrite <- (Qfloor_Z d) at 1. apply Qfloor_resp_le. nra.
Qed.

(** X3.  When the extent factor is at least 1 and the centroid pixel lies
    inside the bounding box of the segment, itself inside the image,
    [_slice_stamp] returns a slice that stays inside the image and contains
    the whole bounding box (rows [ymin..ymax], columns [xmin..xmax]). *)
Theorem slice_stamp_contains_bbox (cutout_extent : Q) (ymin xmin ymax xmax ny nx : Z) :
  let yc := py_int (fst (props_centroid props)) in
  let xc := py_int (snd (props_centroid props)) in
  props_bbox props = ((ymin, xmin), (ymax, xmax)) ->
  shape (props_data props) = (ny, nx) ->
  (1 <= cutout_extent)%Q ->
  (0 <= ymin <= yc)%Z -> (yc <= ymax < ny)%Z ->
  (0 <= xmin <= xc)%Z -> (xc <= xmax < nx)%Z ->
  exists y0 y1 x0 x1,
    _slice_stamp props cutout_extent = Ok ((y0, y1), (x0, x1)) /\
    (0 <= y0 <= ymin)%Z /\ (ymax < y1 <= ny)%Z /\
    (0 <= x0 <= xmin)%Z /\ (xmax < x1 <= nx)%Z.
Proof.
  intros yc xc Hbbox Hshape Hext Hy0 Hy1 Hx0 Hx1.
  unfold _slice_stamp. fold yc. fold xc. rewrite Hbbox, Hshape.
  replace (Qle_bool 1 cutout_extent) with true
    by (symmetry; apply Qle_bool_iff; exact Hext).
  cbn [negb].
  set (dist := Z.max (Z.max (Z.max (xmax - xc) (xc - xmin)) (ymax - yc)) (yc - ymin)).
  assert (Hd0 : (0 <= dist)%Z) by (unfold dist; lia).
  pose proof (py_int_scale Hd0 Hext) as Hd.
  set (dist' := py_int (inject_Z dist * cutout_extent)) in *.
  do 4 eexists. split; [reflexivity|].
  unfold dist in Hd. lia.
Qed.

End StampFacts.

Section StampExamples.

(** A 7x7 image: segment in rows and columns 2 to 4, centroid pixel (3, 3),
    extent factor 1.5; the stamp is rows and columns 2 to 4. *)
Lemma slice_stamp_contains_bbox_witness :
  let p := mkProps (Reference.const_stamp 7 7 1%Q) (Reference.const_stamp 7 7 0%Z)
             None 1 (3.5, 3.5)%Q ((2, 2), (4, 4))%Z in
  exists y0 y1 x0 x1,
    _slice_stamp p 1.5 = Ok ((y0, y1), (x0, x1)) /\
    (0 <= y0 <= 2)%Z /\ (4 < y1 <= 7)%Z /\ (0 <= x0 <= 2)%Z /\ (4 < x1 <= 7)%Z.
Proof.
  intro p.
  apply (@slice_stamp_contains_bbox p 1.5 2 2 4 4 7 7); try reflexivity;
    try (vm_compute; split; first [reflexivity | intro; discriminate]).
  unfold Qle; simpl; lia.
Defined.

End StampExamples.

(** ** Masks and masked cutouts *)

Section EntryFacts.

Lemma nth_error_zip_with {A B C} (f : A -> B -> C) a b i :
  nth_error (zip_with f a b) i =
  match nth_error a i, nth_error b i with
  | Some x, Some y => Some (f x y)
  | _, _ => None
  end.
Proof.
  revert b i. induction a as [|x a IH]; intros [|y b] [|i]; simpl; try reflexivity.
  - destruct (nth_error a i); reflexivity.
  - apply IH.
Qed.

Lemma entry_map2d {A B} (f : A -> B) a i j :
  entry (map2d f a) i j = option_map f (entry a i j).
Proof.
  unfold entry, map2d. rewrite nth_error_map.
  destruct (nth_error a i) as [row|]; simpl; [|reflexivity].
  apply nth_error_map.
Qed.

Lemma entry_zip2d {A B C} (f : A -> B -> C) a b i j :
  entry (zip2d f a b) i j =
  match entry a i j, entry b i j with
  | Some x, Some y => Some (f x y)
  | _, _ => None
  end.
Proof.
  unfold entry, zip2d. rewrite nth_error_zip_with.
  destruct (nth_error a i) as [ra|]; [|reflexivity].
  destruct (nth_error b i) as [rb|].
  - apply nth_error_zip_with.
  - destruct (nth_error ra j); reflexivity.
Qed.

Lemma entry_In {A} (a : list (list A)) i j x : entry a i j = Some x -> In x (flatten a).
Proof.
  unfold entry, flatten. destruct (nth_error a i) as [row|] eqn:E; [|discriminate].
  intro Hx. apply in_concat. exists row. split; eapply nth_error_In; eassumption.
Qed.

Lemma In_entry {A} (a : list (list A)) x :
  In x (flatten a) -> exists i j, entry a i j = Some x.
Proof.
  unfold flatten. rewrite in_concat. intros [row [Hrow Hx]].
  apply In_nth_error in Hrow. destruct Hrow as [i Hi].
  apply In_nth_error in Hx. destruct Hx as [j Hj].
  exists i, j. unfold entry. rewrite Hi. exact Hj.
Qed.

End EntryFacts.

Section MaskFacts.

Variable props : source_props.
Variable slice_stamp : boxslice.
Local Open Scope Q_scope.

Lemma entry_mask_stamp i j b :
  entry (_mask_stamp props slice_stamp) i j = Some b ->
  exists v, entry (stamp_of slice_stamp (props_segment_img props)) i j = Some v /\
    match props_mask props with
    | Some mask =>
        exists m, entry (stamp_of slice_stamp mask) i j = Some m /\
                  b = (negb (v =? 0)%Z && negb (v =? props_label props)%Z) || m
    | None => b = negb (v =? 0)%Z && negb (v =? props_label props)%Z
    end.
Proof.
  unfold _mask_stamp. cbv zeta. destruct (props_mask props) as [mask|].
  - rewrite entry_zip2d, entry_map2d.
    destruct (entry (stamp_of slice_stamp (props_segment_img props)) i j) as [v|];
      [|discriminate].
    simpl. destruct (entry (stamp_of slice_stamp mask) i j) as [m|]; [|discriminate].
    intros [= <-]. exists v. split; [reflexivity|]. exists m. split; reflexivity.
  - rewrite entry_map2d.
    destruct (entry (stamp_of slice_stamp (props_segment_img props)) i j) as [v|];
      [|discriminate].
    simpl. intros [= <-]. exists v. split; reflexivity.
Qed.

Lemma entry_mask_stamp_no_bg i j b :
  entry (_mask_stamp_no_bg props slice_stamp) i j = Some b ->
  exists v, entry (stamp_of slice_stamp (props_segment_img props)) i j = Some v /\
    match props_mask props with
    | Some mask =>
        exists m, entry (stamp_of slice_stamp mask) i j = Some m /\
                  b = negb (v =? props_label props)%Z || m
    | None => b = negb (v =? props_label props)%Z
    end.
Proof.
  unfold _mask_stamp_no_bg. cbv zeta. destruct (props_mask props) as [mask|].
  - rewrite entry_zip2d, entry_map2d.
    destruct (entry (stamp_of slice_stamp (props_segment_img props)) i j) as [v|];
      [|discriminate].
    simpl. destruct (entry (stamp_of slice_stamp mask) i j) as [m|]; [|discriminate].
    intros [= <-]. exists v. split; [reflexivity|]. exists m. split; reflexivity.
  - rewrite entry_map2d.
    destruct (entry (stamp_of slice_stamp (props_segment_img props)) i j) as [v|];
      [|discriminate].
    simpl. intros [= <-]. exists v. split; reflexivity.
Qed.

(** The two masks have one shape: an entry of one is an entry of the
    other. *)
Lemma mask_stamp_defined i j :
  (exists b, entry (_mask_stamp props slice_stamp) i j = Some b) <->
  (exists b, entry (_mask_stamp_no_bg props slice_stamp) i j = Some b).
Proof.
  unfold _mask_stamp, _mask_stamp_no_bg. cbv zeta.
  destruct (props_mask props) as [mask|];
    rewrite ?entry_zip2d, !entry_map2d;
    destruct (entry (stamp_of slice_stamp (props_segment_img props)) i j) as [v|];
    simpl; try (split; intros [b Hb]; discriminate);
    try destruct (entry (stamp_of slice_stamp mask) i j) as [m|];
    split; intros [b Hb]; try discriminate; eexists; reflexivity.
Qed.

Lemma mask_stamp_true_no_bg i j :
  entry (_mask_stamp props slice_stamp) i j = Some true ->
  entry (_mask_stamp_no_bg props slice_stamp) i j = Some true.
Proof.
  intro Hm. destruct (entry_mask_stamp _ _ Hm) as (v & Hv & Hb).
  destruct (proj1 (mask_stamp_defined i j) (ex_intro _ _ Hm)) as [b' Hb'].
  destruct (entry_mask_stamp_no_bg _ _ Hb') as (v' & Hv' & Hb'').
  rewrite Hv in Hv'. injection Hv' as <-. rewrite Hb'. f_equal.
  destruct (props_mask props) as [mask|].
  - destruct Hb as (m & Hm1 & Hb). destruct Hb'' as (m' & Hm2 & Hb'').
    rewrite Hm1 in Hm2. injection Hm2 as <-. subst b'.
    destruct (v =? 0)%Z, (v =? props_label props)%Z, m; simpl in *; congruence.
  - subst b'. destruct (v =? 0)%Z, (v =? props_label props)%Z; simpl in *; congruence.
Qed.

Lemma mask_stamp_no_bg_false i j :
  entry (_mask_stamp_no_bg props slice_stamp) i j = Some false ->
  entry (_mask_stamp props slice_stamp) i j = Some false /\
  entry (stamp_of slice_stamp (props_segment_img props)) i j
    = Some (props_label props) /\
  forall mask, props_mask props = Some mask ->
               entry (stamp_of slice_stamp mask) i j = Some false.
Proof.
  intro Hm. destruct (entry_mask_stamp_no_bg _ _ Hm) as (v & Hv & Hb).
  destruct (proj2 (mask_stamp_defined i j) (ex_intro _ _ Hm)) as [b' Hb'].
  destruct (entry_mask_stamp _ _ Hb') as (v' & Hv' & Hb'').
  rewrite Hv in Hv'. injection Hv' as <-.
  destruct (props_mask props) as [mask|].
  - destruct Hb as (m & Hm1 & Hb). destruct Hb'' as (m' & Hm2 & Hb'').
    rewrite Hm1 in Hm2. injection Hm2 as <-.
    symmetry in Hb. apply orb_false_iff in Hb. destruct Hb as [Hl ->].
    apply negb_false_iff in Hl. rewrite Hl in Hb''.
    rewrite andb_false_r in Hb''. simpl in Hb''. subst b'.
    apply Z.eqb_eq in Hl. subst v.
    split; [exact Hb'|]. split; [exact Hv|].
    intros mask' [= <-]. exact Hm1.
  - symmetry in Hb. apply negb_false_iff in Hb. rewrite Hb in Hb''.
    rewrite andb_false_r in Hb''. subst b'.
    apply Z.eqb_eq in Hb. subst v.
    split; [exact Hb'|]. split; [exact Hv|]. intros mask' [=].
Qed.

(** X4.  The mask without background contains the total mask: every stamp
    pixel masked by [_mask_stamp] (another source, or the user's mask) is
    masked by [_mask_stamp_no_bg] too; and a pixel that [_mask_stamp_no_bg]
    leaves unmasked carries the label of the source and is not masked by
    the user. *)
Theorem mask_stamp_no_bg_contains (i j : nat) :
  (entry (_mask_stamp props slice_stamp) i j = Some true ->
   entry (_mask_stamp_no_bg props slice_stamp) i j = Some true) /\
  (entry (_mask_stamp_no_bg props slice_stamp) i j = Some false ->
   entry (_mask_stamp props slice_stamp) i j = Some false /\
   entry (stamp_of slice_stamp (props_segment_img props)) i j
     = Some (props_label props) /\
   forall mask, props_mask props = Some mask ->
                entry (stamp_of slice_stamp mask) i j = Some false).
Proof.
  split; [apply mask_stamp_true_no_bg|apply mask_stamp_no_bg_false].
Qed.

(** X5.  Every non-zero pixel of the cutout without background is an
    unmasked pixel of the labelled source and carries the value of the
    image there: pixels of other sources, of the background and under the
    user's mask are all zero in [_cutout_stamp_maskzeroed_no_bg]. *)
Theorem cutout_no_bg_nonzero (i j : nat) (v : Q) :
  entry (_cutout_stamp_maskzeroed_no_bg props slice_stamp) i j = Some v ->
  v <> 0 ->
  entry (stamp_of slice_stamp (props_data props)) i j = Some v /\
  entry (stamp_of slice_stamp (props_segment_img props)) i j
    = Some (props_label props) /\
  entry (_mask_stamp_no_bg props slice_stamp) i j = Some false /\
  entry (_mask_stamp props slice_stamp) i j = Some false.
Proof.
  unfold _cutout_stamp_maskzeroed_no_bg, where_unmasked at 1.
  rewrite entry_zip2d.
  destruct (entry (_mask_stamp_no_bg props slice_stamp) i j) as [m|] eqn:Em;
    [|discriminate].
  destruct (entry (_cutout_stamp_maskzeroed props slice_stamp) i j) as [c|] eqn:Ec;
    [|discriminate].
  intros [= <-] Hv. destruct m; simpl in Hv; [congruence|]. simpl.
  destruct (mask_stamp_no_bg_false _ _ Em) as (Hms & Hseg & _).
  unfold _cutout_stamp_maskzeroed, where_unmasked in Ec.
  rewrite entry_zip2d, Hms in Ec.
  destruct (entry (stamp_of slice_stamp (props_data props)) i j) as [d|];
    [|discriminate].
  simpl in Ec. injection Ec as <-. auto.
Qed.

Lemma map2d_Forall {A B} (f : A -> B) (P : B -> Prop) a :
  (forall x, P (f x)) -> Forall (Forall P) (map2d f a).
Proof.
  intro Hf. unfold map2d. apply Forall_forall. intros row Hrow.
  apply in_map_iff in Hrow. destruct Hrow as [r [<- _]].
  apply Forall_forall. intros y Hy. apply in_map_iff in Hy.
  destruct Hy as [x [<- _]]. apply Hf.
Qed.

Lemma flatten_Forall {A} (P : A -> Prop) a :
  Forall (Forall P) a -> Forall P (flatten a).
Proof.
  unfold flatten. induction 1 as [|row a Hrow _ IH]; simpl; [constructor|].
  apply Forall_app. split; assumption.
Qed.

Lemma unmasked_values_In mask a x : In x (unmasked_values mask a) -> In x (flatten a).
Proof. unfold unmasked_values. apply mask_select_in. Qed.

Lemma cutout_nonnegative_nonneg :
  nonnegative (_cutout_stamp_maskzeroed_no_bg_nonnegative props slice_stamp).
Proof.
  unfold nonnegative, _cutout_stamp_maskzeroed_no_bg_nonnegative. cbv zeta.
  apply map2d_Forall. intro x. destruct (Qltb 0 x) eqn:E; [|lra].
  apply Qltb_iff in E. lra.
Qed.

Lemma sorted_nonnegative_nonneg :
  Forall (fun v => 0 <= v)
    (_sorted_pixelvals_stamp_no_bg_nonnegative props slice_stamp).
Proof.
  unfold _sorted_pixelvals_stamp_no_bg_nonnegative. cbv zeta.
  apply (Permutation_Forall (Permutation_sym (np_sort_perm _))).
  apply Forall_forall. intros x Hx. apply unmasked_values_In in Hx.
  pose proof (flatten_Forall cutout_nonnegative_nonneg) as Hall.
  rewrite Forall_forall in Hall. apply Hall. exact Hx.
Qed.

(** X6.  The non-negative cutout has no negative pixel; its sorted pixel
    values are increasing, non-negative and taken from the cutout; so for
    every quantile the threshold that [_quantile] returns on them is a
    non-negative pixel value of the cutout, and there is one for every
    quantile in [[0, 1]] as soon as the source has an unmasked pixel. *)
Theorem nonnegative_thresholds :
  let image := _cutout_stamp_maskzeroed_no_bg_nonnegative props slice_stamp in
  let sorted := _sorted_pixelvals_stamp_no_bg_nonnegative props slice_stamp in
  nonnegative image /\ ascending sorted /\
  (forall q t, _quantile sorted q = Ok t -> 0 <= t /\ In t (flatten image)) /\
  (forall q, 0 <= q <= 1 -> sorted <> [] -> exists t, _quantile sorted q = Ok t).
Proof.
  intros image sorted.
  split; [apply cutout_nonnegative_nonneg|].
  split; [apply np_sort_ascending|].
  assert (Hmem : forall q t, _quantile sorted q = Ok t -> In t sorted).
  { intros q t E. apply (quantile_returned _ _ E). }
  split.
  - intros q t E. apply Hmem in E. split.
    + pose proof sorted_nonnegative_nonneg as Hall. rewrite Forall_forall in Hall.
      apply Hall. exact E.
    + unfold sorted, _sorted_pixelvals_stamp_no_bg_nonnegative in E. cbv zeta in E.
      apply (Permutation_in _ (np_sort_perm _)) in E.
      apply unmasked_values_In in E. exact E.
  - intros q Hq Hne. destruct (quantile_value Hne Hq) as (k & _ & E & _).
    eexists. exact E.
Qed.

End MaskFacts.

Section MaskExamples.

Local Open Scope Q_scope.

(** A 2x2 stamp: the source (label 1) on the diagonal, the background and
    another source (label 2) beside it. *)
Lemma cutout_no_bg_nonzero_witness :
  let p := mkProps [[5; 7]; [9; 3]] [[1; 0]; [2; 1]]%Z None 1 (1, 1) ((0, 0), (1, 1))%Z in
  let sl := ((0, 2), (0, 2))%Z in
  entry (stamp_of sl (props_data p)) 1 1 = Some 3 /\
  entry (stamp_of sl (props_segment_img p)) 1 1 = Some (props_label p) /\
  entry (_mask_stamp_no_bg p sl) 1 1 = Some false /\
  entry (_mask_stamp p sl) 1 1 = Some false.
Proof.
  intros p sl.
  apply (@cutout_no_bg_nonzero p sl 1 1 3); [reflexivity|discriminate].
Defined.

End MaskExamples.

(** ** Sky statistics *)

Section SkyFacts.

Context `{Numpy}.
Local Open Scope Q_scope.

Lemma Qof_nat_pos n : (0 < n)%nat -> 0 < Qof_nat n.
Proof.
  intro Hn. unfold Qof_nat. change 0 with (inject_Z 0). rewrite <- Zlt_Qlt. lia.
Qed.

Lemma Qsum_abs_nonneg (l : list Q) : 0 <= Qsum (map Qabs l).
Proof.
  apply Qsum_nonneg. apply Forall_forall. intros x Hx.
  apply in_map_iff in Hx. destruct Hx as [y [<- _]]. apply Qabs_nonneg.
Qed.

Lemma flatten_map2d {A B} (f : A -> B) a : flatten (map2d f a) = map f (flatten a).
Proof.
  unfold flatten, map2d. induction a as [|row a IH]; simpl; [reflexivity|].
  rewrite map_app, IH. reflexivity.
Qed.

Lemma Qsum_zero l : Forall (fun x => x == 0) l -> Qsum l == 0.
Proof.
  induction 1 as [|x l Hx _ IH]; simpl; [reflexivity|]. rewrite Hx, IH. lra.
Qed.

(** X7.  The sky statistics are NaN exactly when the sky box holds no
    pixel of the cutout; otherwise the mean, the standard deviation and
    the asymmetry are finite numbers, and the asymmetry is not negative. *)
Theorem sky_statistics_nan (cutout : image) (slice_skybox : boxslice) :
  let bkg := stamp_of slice_skybox cutout in
  (size2d bkg = 0%nat ->
   _sky_mean cutout slice_skybox = NaN /\
   _sky_sigma cutout slice_skybox = NaN /\
   _sky_asymmetry cutout slice_skybox = NaN) /\
  (size2d bkg <> 0%nat ->
   (exists m, _sky_mean cutout slice_skybox = Fin m) /\
   (exists d, _sky_sigma cutout slice_skybox = Fin d) /\
   (exists a, _sky_asymmetry cutout slice_skybox = Fin a /\ 0 <= a)).
Proof.
  intro bkg. unfold _sky_mean, _sky_sigma, _sky_asymmetry. cbv zeta. fold bkg.
  split; intro Hn.
  - rewrite Hn. auto.
  - apply Nat.eqb_neq in Hn. rewrite Hn.
    split; [eexists; reflexivity|]. split; [eexists; reflexivity|].
    eexists. split; [reflexivity|].
    apply Nat.eqb_neq in Hn.
    apply Qle_shift_div_l; [apply Qof_nat_pos; lia|].
    rewrite flatten_map2d. pose proof (Qsum_abs_nonneg
      (flatten (zip2d Qminus (rev (map (@rev Q) bkg)) bkg))). lra.
Qed.

(** X8.  A non-empty sky box that is its own image under the rotation by
    180 degrees has sky asymmetry 0. *)
Theorem sky_asymmetry_symmetric (cutout : image) (slice_skybox : boxslice) :
  let bkg := stamp_of slice_skybox cutout in
  size2d bkg <> 0%nat ->
  rev (map (@rev Q) bkg) = bkg ->
  exists a, _sky_asymmetry cutout slice_skybox = Fin a /\ a == 0.
Proof.
  intros bkg Hn Hsym. unfold _sky_asymmetry. cbv zeta. fold bkg.
  apply Nat.eqb_neq in Hn. rewrite Hn, Hsym.
  eexists. split; [reflexivity|].
  assert (E : Qsum (flatten (map2d Qabs (zip2d Qminus bkg bkg))) == 0).
  { apply Qsum_zero. rewrite flatten_map2d. apply Forall_forall. intros x Hx.
    apply in_map_iff in Hx. destruct Hx as [d [<- Hd]].
    unfold zip2d in Hd. rewrite zip_with_diag in Hd.
    unfold flatten in Hd. apply in_concat in Hd. destruct Hd as [row [Hrow Hd]].
    apply in_map_iff in Hrow. destruct Hrow as [r [<- _]].
    rewrite zip_with_diag in Hd. apply in_map_iff in Hd.
    destruct Hd as [y [<- _]].
    assert (Ey : y - y == 0) by ring. rewrite Ey. reflexivity. }
  rewrite E. apply Nat.eqb_neq in Hn.
  unfold Qdiv. ring.
Qed.

Lemma fold_fadd_nan l : fold_left fadd l NaN = NaN.
Proof. induction l as [|x l IH]; simpl; [reflexivity|exact IH]. Qed.

(** [np.mean] of NaNs, and of nothing, is NaN. *)
Lemma fmean_nan l : Forall (fun x => x = NaN) l -> fmean l = NaN.
Proof.
  intro Hl. destruct l as [|x l]; [reflexivity|].
  inversion Hl as [|? ? Hx _]; subst. unfold fmean, fsum. simpl.
  rewrite fold_fadd_nan. reflexivity.
Qed.

(** X9.  With a sky standard deviation that is NaN, as it is when there is
    no sky box, [sn_per_pixel] returns the invalid value -99 and raises the
    general flag, whatever the pixels and the variances are. *)
Theorem sn_per_pixel_without_sky (cutout : image) (segmap_gini : bmask)
    (variance : image) (s : state) :
  sn_per_pixel cutout segmap_gini variance NaN s = Returned (Fin (-99)) (flagged s).
Proof.
  rewrite sn_per_pixel_run. cbv zeta. unfold sn_mean.
  rewrite fmean_nan; [reflexivity|].
  generalize (mask_select (flatten cutout)
    (flatten (zip2d andb segmap_gini (map2d (fun x => Qle_bool 0 x) cutout)))).
  generalize (mask_select (flatten (effective_variance variance))
    (flatten (zip2d andb segmap_gini (map2d (fun x => Qle_bool 0 x) cutout)))).
  intros vs ps. revert vs.
  induction ps as [|p ps IH]; intros [|v vs]; simpl; constructor;
    [reflexivity|apply IH].
Qed.

End SkyFacts.

(** ** The sky box and the statistics taken from it *)

Section SkyboxBounds.

Variable cfg : config.
Variable segmap : list (list Z).
Variable mask_opt : option bmask.
Local Open Scope Z_scope.

Lemma find_skybox_bounds size box :
  find_skybox cfg segmap mask_opt size = Some box ->
  exists i j, box = ((i, i + size), (j, j + size)) /\
    _border_size cfg <= i /\ i + size < fst (shape segmap) - _border_size cfg /\
    _border_size cfg <= j /\ j + size < snd (shape segmap) - _border_size cfg.
Proof.
  unfold find_skybox. destruct (shape segmap) as [ny nx]. intro Hf.
  apply find_first_some in Hf. destruct Hf as [i [Hi Hf]].
  apply find_first_some in Hf. destruct Hf as [j [Hj Hf]].
  destruct (box_is_sky segmap mask_opt (i, i + size, (j, j + size))); [|discriminate].
  injection Hf as <-. apply in_range in Hi. apply in_range in Hj.
  exists i, j. cbn [fst snd]. repeat split; lia.
Qed.

Lemma skybox_loop_inside fuel : forall s box s',
  0 <= _border_size cfg -> 0 <= _skybox_size s ->
  2 * _border_size cfg <= fst (shape segmap) ->
  2 * _border_size cfg <= snd (shape segmap) ->
  skybox_loop cfg segmap mask_opt fuel s = Returned box s' ->
  exists i j,
    box = ((i, i + _skybox_size s'), (j, j + _skybox_size s')) /\
    _border_size cfg <= i /\ i + _skybox_size s' <= fst (shape segmap) /\
    _border_size cfg <= j /\ j + _skybox_size s' <= snd (shape segmap) /\
    0 <= _skybox_size s' <= _skybox_size s.
Proof.
  induction fuel as [|fuel IH]; intros s box s' Hb Hs Hy Hx; [discriminate|].
  rewrite skybox_loop_step.
  destruct (find_skybox cfg segmap mask_opt (_skybox_size s)) as [bx|] eqn:Ef.
  - intros [= <- <-]. destruct (find_skybox_bounds _ Ef) as (i & j & -> & Hi).
    exists i, j. split; [reflexivity|]. lia.
  - destruct (_skybox_size s <? _border_size cfg) eqn:Elt.
    + intros [= <- <-]. apply Z.ltb_lt in Elt.
      exists (_border_size cfg), (_border_size cfg). unfold corner_box.
      cbn [_skybox_size flagged]. split; [reflexivity|]. lia.
    + intro Hrun. apply Z.ltb_ge in Elt.
      assert (H2 : 0 <= _skybox_size s / 2) by (apply Z.div_pos; lia).
      assert (H3 : _skybox_size s / 2 <= _skybox_size s)
        by (apply Z.div_le_upper_bound; lia).
      destruct (IH (with_skybox_size (_skybox_size s / 2) s) box s' Hb H2 Hy Hx Hrun)
        as (i & j & Hbox & Hrest).
      exists i, j. split; [exact Hbox|]. cbn [_skybox_size with_skybox_size] in Hrest.
      lia.
Qed.

(** X10.  Whenever [_slice_skybox] returns, from non-negative border and
    box sizes, the box lies inside the stamp: either the stamp is narrower
    or lower than two borders and the box is the empty [(0:0, 0:0)], or the
    box is a square whose side is the final [_skybox_size], at least
    [border_size] from the top and left edges and within the bottom and
    right edges; the final [_skybox_size] is never larger than the initial
    one. *)
Theorem skybox_inside_stamp (fuel : nat) (s s' : state) (box : boxslice) :
  let b := _border_size cfg in
  let ny := fst (shape segmap) in
  let nx := snd (shape segmap) in
  0 <= b -> 0 <= _skybox_size s ->
  _slice_skybox cfg segmap mask_opt fuel s = Returned box s' ->
  ((nx < 2 * b \/ ny < 2 * b) /\ box = ((0, 0), (0, 0)) /\ s' = flagged s) \/
  (2 * b <= nx /\ 2 * b <= ny /\
   exists i j,
     box = ((i, i + _skybox_size s'), (j, j + _skybox_size s')) /\
     b <= i /\ i + _skybox_size s' <= ny /\
     b <= j /\ j + _skybox_size s' <= nx /\
     0 <= _skybox_size s' <= _skybox_size s).
Proof.
  intros b ny nx Hb Hs.
  destruct (Z_lt_le_dec nx (2 * b)) as [Hx|Hx];
    [|destruct (Z_lt_le_dec ny (2 * b)) as [Hy|Hy]].
  - unfold _slice_skybox. unfold nx, b in Hx. destruct (shape segmap) as [ny0 nx0].
    cbn [snd] in Hx. apply Z.ltb_lt in Hx. rewrite Hx. cbn [orb].
    intros [= <- <-]. left. split; [left; apply Z.ltb_lt; exact Hx|]. auto.
  - unfold _slice_skybox. unfold ny, b in Hy. destruct (shape segmap) as [ny0 nx0].
    cbn [fst] in Hy. apply Z.ltb_lt in Hy. rewrite Hy, orb_true_r.
    intros [= <- <-]. left. split; [right; apply Z.ltb_lt; exact Hy|]. auto.
  - rewrite slice_skybox_unfold by assumption. intro Hrun. right.
    split; [exact Hx|]. split; [exact Hy|].
    apply (@skybox_loop_inside fuel s box s' Hb Hs Hy Hx Hrun).
Qed.

End SkyboxBounds.

Section SkyChain.

Context `{Numpy}.
Local Open Scope Z_scope.

(** X11.  On a stamp narrower or lower than two borders there is no sky:
    [_slice_skybox] returns the empty box and raises the general flag, the
    sky mean, standard deviation and asymmetry of any cutout over that box
    are NaN, and [sn_per_pixel], which reads that standard deviation,
    returns the invalid value -99 with the flag raised. *)
Theorem small_stamp_has_no_sky (cfg : config) (segmap : list (list Z))
    (mask_opt : option bmask) (cutout : image) (fuel : nat) (s : state) :
  snd (shape segmap) < 2 * _border_size cfg \/
  fst (shape segmap) < 2 * _border_size cfg ->
  exists box,
    _slice_skybox cfg segmap mask_opt fuel s = Returned box (flagged s) /\
    _sky_mean cutout box = NaN /\
    _sky_sigma cutout box = NaN /\
    _sky_asymmetry cutout box = NaN /\
    forall segmap_gini variance s',
      sn_per_pixel cutout segmap_gini variance (_sky_sigma cutout box) s'
      = Returned (Fin (-99)) (flagged s').
Proof.
  intro Hsmall. exists ((0, 0), (0, 0)).
  assert (Hrun : _slice_skybox cfg segmap mask_opt fuel s
                 = Returned ((0, 0), (0, 0)) (flagged s)).
  { unfold _slice_skybox. destruct (shape segmap) as [ny nx]. cbn [fst snd] in Hsmall.
    replace ((nx <? 2 * _border_size cfg) || (ny <? 2 * _border_size cfg)) with true;
      [reflexivity|].
    symmetry. apply orb_true_iff. rewrite !Z.ltb_lt. exact Hsmall. }
  split; [exact Hrun|].
  assert (Hsig : _sky_sigma cutout ((0, 0), (0, 0)) = NaN) by reflexivity.
  split; [reflexivity|]. split; [exact Hsig|]. split; [reflexivity|].
  intros segmap_gini variance s'. rewrite Hsig.
  rewrite sn_per_pixel_run. cbv zeta. unfold sn_mean.
  rewrite fmean_nan; [reflexivity|].
  generalize (mask_select (flatten cutout)
    (flatten (zip2d andb segmap_gini (map2d (fun x => Qle_bool 0 x) cutout)))).
  generalize (mask_select (flatten (effective_variance variance))
    (flatten (zip2d andb segmap_gini (map2d (fun x => Qle_bool 0 x) cutout)))).
  intros vs ps. revert vs.
  induction ps as [|p ps IH]; intros [|v vs]; simpl; constructor;
    [reflexivity|apply IH].
Qed.

End SkyChain.

Section SkyExamples.

Import Reference.
Local Open Scope Z_scope.

(** An 8x8 stamp covered by the source: the search ends in the corner box
    of side 2. *)
Lemma skybox_inside_stamp_witness :
  let segmap := const_stamp 8 8 1 in
  let box := ((4, 6), (4, 6)) in
  let s' := mkState 1 0 2 in
  ((8 < 2 * 4 \/ 8 < 2 * 4) /\ box = ((0, 0), (0, 0)) /\ s' = flagged (s0 32)) \/
  (2 * 4 <= 8 /\ 2 * 4 <= 8 /\
   exists i j,
     box = ((i, i + _skybox_size s'), (j, j + _skybox_size s')) /\
     4 <= i /\ i + _skybox_size s' <= 8 /\
     4 <= j /\ j + _skybox_size s' <= 8 /\
     0 <= _skybox_size s' <= 32).
Proof.
  intros segmap box s'.
  apply (@skybox_inside_stamp default_config segmap None 10 (s0 32) s' box).
  - vm_compute. discriminate.
  - vm_compute. discriminate.
  - vm_compute. reflexivity.
Defined.

(** A 6x6 stamp under the default border of 4. *)
Lemma small_stamp_has_no_sky_witness :
  exists box,
    _slice_skybox default_config (const_stamp 6 6 0) None 10 (s0 32)
      = Returned box (flagged (s0 32)) /\
    _sky_mean (const_stamp 6 6 1%Q) box = NaN /\
    _sky_sigma (const_stamp 6 6 1%Q) box = NaN /\
    _sky_asymmetry (const_stamp 6 6 1%Q) box = NaN /\
    forall segmap_gini variance s',
      sn_per_pixel (const_stamp 6 6 1%Q) segmap_gini variance
        (_sky_sigma (const_stamp 6 6 1%Q) box) s'
      = Returned (Fin (-99)) (flagged s').
Proof.
  apply (@small_stamp_has_no_sky numpy default_config (const_stamp 6 6 0) None
           (const_stamp 6 6 1%Q) 10 (s0 32)).
  left. vm_compute. reflexivity.
Defined.

(** A sky box of two rows, the second the first one reversed. *)
Lemma sky_asymmetry_symmetric_witness :
  exists a, _sky_asymmetry [[1; 2; 3]; [3; 2; 1]]%Q ((0, 2), (0, 3)) = Fin a /\ (a == 0)%Q.
Proof.
  apply (@sky_asymmetry_symmetric [[1; 2; 3]; [3; 2; 1]]%Q ((0, 2), (0, 3))).
  - vm_compute. discriminate.
  - reflexivity.
Defined.

End SkyExamples.

(** ** Concentration, smoothness and intensity *)

Section CasFacts.

Context `{Photutils} `{Scipy} `{NumpyLog} `{Ndimage}.
Variable cfg : config.
Variable cutout : image.
Variable center : point.
Variable rpetro_circ : Q.
Local Open Scope Q_scope.

(** The helper returns NaN or a finite number, never an infinity. *)
Lemma radius_at_fraction_value img c r_total fraction r fl :
  _radius_at_fraction_of_total img c r_total fraction = Ok (r, fl) ->
  r = NaN \/ exists x, r = Fin x.
Proof.
  unfold _radius_at_fraction_of_total.
  destruct (Qle_bool _ 0); [intros [= <- _]; left; reflexivity|].
  destruct (negb _); [discriminate|].
  destruct (fraction_scan _ _ _ _ _ _) as [[[r0|r1 r2] fl']|e];
    try discriminate; intros [= <- _]; right; eexists; reflexivity.
Qed.

Lemma cas_radius_returns fraction s r s' :
  _radius_at_fraction_of_total_cas cfg cutout center rpetro_circ fraction s
    = Returned r s' ->
  exists r0 fl,
    _radius_at_fraction_of_total cutout center
      (_petro_extent_circ cfg * rpetro_circ) fraction = Ok (r0, fl) /\
    ((r = Fin (-99) /\ s' = flagged s /\ (r0 = NaN \/ exists x, r0 = Fin x /\ x <= 0)) \/
     (exists x, r = Fin x /\ r0 = Fin x /\ 0 < x /\
                s' = mkState (Z.max (flag s) fl) (flag_sersic s) (_skybox_size s))).
Proof.
  unfold _radius_at_fraction_of_total_cas. cbv zeta.
  destruct (_radius_at_fraction_of_total cutout center
              (_petro_extent_circ cfg * rpetro_circ) fraction) as [[r0 fl]|e] eqn:E;
    [|discriminate].
  destruct (radius_at_fraction_value _ _ _ _ E) as [->|[x ->]].
  - intros [= <- <-]. exists NaN, fl. split; [reflexivity|]. left. auto.
  - unfold lift, bind, ret, max_flag. cbn [isnan fle0 orb].
    destruct (Qle_bool x 0) eqn:Ex.
    + intros [= <- <-]. exists (Fin x), fl. split; [reflexivity|]. left.
      split; [reflexivity|]. split; [reflexivity|]. right. exists x.
      split; [reflexivity|]. apply Qle_bool_iff. exact Ex.
    + intros [= <- <-]. exists (Fin x), fl. split; [reflexivity|]. right.
      exists x. apply Qle_bool_false_iff in Ex. auto.
Qed.

(** X12.  The CAS radius is never NaN, zero or negative: whenever
    [_radius_at_fraction_of_total_cas] returns, either the helper gave NaN
    or a non-positive radius, and the method returns the invalid value -99
    with the general flag raised, or it returns the helper's radius, a
    positive number, and the flag is the larger of its old value and the
    helper's flag. *)
Theorem cas_radius_domain (fraction : Q) (s s' : state) (r : fval) :
  _radius_at_fraction_of_total_cas cfg cutout center rpetro_circ fraction s
    = Returned r s' ->
  (r = Fin (-99) /\ flag s' = 1%Z /\
   exists r0 fl,
     _radius_at_fraction_of_total cutout center
       (_petro_extent_circ cfg * rpetro_circ) fraction = Ok (r0, fl) /\
     (r0 = NaN \/ exists x, r0 = Fin x /\ x <= 0)) \/
  (exists x fl,
     r = Fin x /\ 0 < x /\
     _radius_at_fraction_of_total cutout center
       (_petro_extent_circ cfg * rpetro_circ) fraction = Ok (Fin x, fl) /\
     flag s' = Z.max (flag s) fl).
Proof.
  intro Hrun. destruct (cas_radius_returns _ _ Hrun) as (r0 & fl & E & Hcase).
  destruct Hcase as [(-> & -> & Hr0)|(x & -> & -> & Hx & ->)].
  - left. split; [reflexivity|]. split; [reflexivity|]. exists r0, fl. auto.
  - right. exists x, fl. auto.
Qed.

(** X13.  Whenever [concentration] returns, either one of the two radii
    is invalid, and it returns -99 with the general flag raised, [r_80]
    not even being computed when [r_20] is invalid; or both radii are
    positive and it returns 5 times the decimal logarithm of their ratio,
    a positive number. *)
Theorem concentration_domain (s s' : state) (c : fval) :
  concentration cfg cutout center rpetro_circ s = Returned c s' ->
  (c = Fin (-99) /\ flag s' = 1%Z /\
   (r_20 cfg cutout center rpetro_circ s = Returned (Fin (-99)) s' \/
    exists r20 s1, r_20 cfg cutout center rpetro_circ s = Returned (Fin r20) s1 /\
                   r_80 cfg cutout center rpetro_circ s1 = Returned (Fin (-99)) s')) \/
  (exists r20 r80 s1,
     r_20 cfg cutout center rpetro_circ s = Returned (Fin r20) s1 /\
     r_80 cfg cutout center rpetro_circ s1 = Returned (Fin r80) s' /\
     0 < r20 /\ 0 < r80 /\ 0 < r80 / r20 /\
     c = Fin (5 * np_log10 (r80 / r20))).
Proof.
  unfold concentration, bind.
  destruct (r_20 cfg cutout center rpetro_circ s) as [r20 s1| |] eqn:E20;
    try discriminate.
  pose proof E20 as E20'. unfold r_20 in E20'.
  destruct (cas_radius_returns _ _ E20') as (r0 & fl & _ & Hcase).
  destruct Hcase as [(-> & -> & _)|(x & -> & _ & Hx & Hs1)].
  - cbn [is_invalid]. replace (Qeq_bool (-99) (-99)) with true by reflexivity.
    intros [= <- <-]. left. auto.
  - cbn [is_invalid].
    replace (Qeq_bool x (-99)) with false
      by (symmetry; apply Qeq_bool_false_iff; lra).
    destruct (r_80 cfg cutout center rpetro_circ s1) as [r80 s2| |] eqn:E80;
      try discriminate.
    pose proof E80 as E80'. unfold r_80 in E80'.
    destruct (cas_radius_returns _ _ E80') as (r0' & fl' & _ & Hcase).
    destruct Hcase as [(-> & -> & _)|(y & -> & _ & Hy & Hs2)].
    + cbn [is_invalid]. replace (Qeq_bool (-99) (-99)) with true by reflexivity.
      intros [= <- <-]. left. split; [reflexivity|]. split; [reflexivity|].
      right. exists x, s1. auto.
    + cbn [is_invalid].
      replace (Qeq_bool y (-99)) with false
        by (symmetry; apply Qeq_bool_false_iff; lra).
      assert (Hratio : 0 < y / x) by (apply Qlt_shift_div_l; lra).
      unfold ret, fdiv.
      replace (Qeq_bool x 0) with false
        by (symmetry; apply Qeq_bool_false_iff; lra).
      unfold flog10.
      replace (Qltb 0 (y / x)) with true by (symmetry; apply Qltb_iff; exact Hratio).
      cbn [fmul]. intros [= <- <-]. right. exists x, y, s1.
      repeat (split; [first [reflexivity|assumption]|]). reflexivity.
Qed.

(** X14.  [smoothness] returns the invalid value -99 without raising the
    flag whenever the sky smoothness is not finite, as it is (NaN) when the
    sky box is empty.  With a finite sky smoothness it returns -99 with the
    general flag raised exactly when the aperture holds no absolute flux,
    and a finite number with the flags untouched otherwise. *)
Theorem smoothness_sentinel (petro_fraction_cas : Q) (sky_smoothness : fval)
    (slice_skybox : boxslice) (s : state) :
  let ap := CircularAperture center (_petro_extent_circ cfg * rpetro_circ) in
  let ap_abs_flux := do_photometry ap (map2d Qabs cutout) in
  let run := smoothness cfg cutout center rpetro_circ petro_fraction_cas in
  (isfinite sky_smoothness = false ->
   run sky_smoothness s = Returned (Fin (-99)) s) /\
  (size2d (stamp_of slice_skybox cutout) = 0%nat ->
   run (_sky_smoothness cutout rpetro_circ slice_skybox petro_fraction_cas) s
   = Returned (Fin (-99)) s) /\
  (isfinite sky_smoothness = true -> ap_abs_flux == 0 ->
   run sky_smoothness s = Returned (Fin (-99)) (flagged s)) /\
  (isfinite sky_smoothness = true -> ~ ap_abs_flux == 0 ->
   exists S, run sky_smoothness s = Returned (Fin S) s).
Proof.
  intros ap ap_abs_flux run.
  assert (Hnf : forall sky, isfinite sky = false -> run sky s = Returned (Fin (-99)) s).
  { intros sky Hsky. unfold run, smoothness. cbv zeta.
    destruct sky; [discriminate| | |]; reflexivity. }
  split; [apply Hnf|]. split; [|split].
  - intro Hsize. apply Hnf. unfold _sky_smoothness. cbv zeta.
    rewrite Hsize. reflexivity.
  - intros Hsky Hflux. unfold run, smoothness. cbv zeta.
    destruct sky_smoothness as [sky| | |]; try discriminate.
    fold ap. fold ap_abs_flux. unfold fdiv.
    replace (Qeq_bool ap_abs_flux 0) with true
      by (symmetry; apply Qeq_bool_iff; exact Hflux).
    unfold inf_of_sign.
    destruct (Qeq_bool _ 0); [reflexivity|]. destruct (Qltb 0 _); reflexivity.
  - intros Hsky Hflux. unfold run, smoothness. cbv zeta.
    destruct sky_smoothness as [sky| | |]; try discriminate.
    fold ap. fold ap_abs_flux. unfold fdiv.
    replace (Qeq_bool ap_abs_flux 0) with false
      by (symmetry; apply Qeq_bool_false_iff; exact Hflux).
    eexists. reflexivity.
Qed.

End CasFacts.

Section IntensityFacts.

Local Open Scope Q_scope.

Lemma ascending_last_two l a b : ascending (l ++ [b; a]) -> b <= a.
Proof.
  induction l as [|x l IH]; simpl; intro Hasc; inversion Hasc as [|? ? Hx Hl]; subst.
  - inversion Hx; assumption.
  - apply IH. exact Hl.
Qed.

(** The first entry of a decreasingly sorted array bounds the second. *)
Lemma rev_sort_head l a b t : rev (np_sort l) = a :: b :: t -> b <= a.
Proof.
  intro E. pose proof (np_sort_ascending l) as Hasc.
  rewrite <- (rev_involutive (np_sort l)), E in Hasc. simpl in Hasc.
  rewrite <- app_assoc in Hasc. simpl in Hasc.
  exact (@ascending_last_two (rev t) a b Hasc).
Qed.

Lemma sorted_flux_sums_length labeled_array peak_labels smooth :
  length (sorted_flux_sums labeled_array peak_labels smooth) = length peak_labels.
Proof.
  unfold sorted_flux_sums. cbv zeta. rewrite length_rev.
  rewrite (Permutation_length (np_sort_perm _)). apply length_map.
Qed.

Lemma sorted_flux_sums_nonneg labeled_array peak_labels smooth :
  nonnegative smooth ->
  Forall (fun x => 0 <= x) (sorted_flux_sums labeled_array peak_labels smooth).
Proof.
  intro Hnn. unfold sorted_flux_sums. cbv zeta.
  apply Forall_rev.
  apply (Permutation_Forall (Permutation_sym (np_sort_perm _))).
  apply Forall_forall. intros x Hx. apply in_map_iff in Hx.
  destruct Hx as [label [<- _]]. apply Qsum_nonneg.
  apply Forall_forall. intros y Hy. apply mask_select_in in Hy.
  pose proof (flatten_Forall Hnn) as Hall. rewrite Forall_forall in Hall.
  apply Hall. exact Hy.
Qed.

(** X15.  On a smoothed cutout without negative pixels the intensity
    statistic, the ratio of the second largest to the largest flux sum of
    the watershed regions, lies between 0 and 1 when the largest sum is
    positive; with fewer than two peaks it is 0; and when there are two
    peaks or more but the largest sum is 0 it is NaN, which [intensity]
    returns as it is. *)
Theorem intensity_range (labeled_array : list (list Z)) (peak_labels : list Z)
    (cutout_mid_smooth : image) :
  nonnegative cutout_mid_smooth ->
  let sums := sorted_flux_sums labeled_array peak_labels cutout_mid_smooth in
  ((length peak_labels <= 1)%nat -> intensity sums = Fin 0) /\
  ((2 <= length peak_labels)%nat -> 0 < hd 0 sums ->
   exists i, intensity sums = Fin i /\ 0 <= i <= 1) /\
  ((2 <= length peak_labels)%nat -> hd 0 sums == 0 -> intensity sums = NaN).
Proof.
  intros Hnn sums.
  pose proof (sorted_flux_sums_length labeled_array peak_labels cutout_mid_smooth) as Hlen.
  pose proof (sorted_flux_sums_nonneg labeled_array peak_labels Hnn) as Hpos.
  fold sums in Hlen, Hpos.
  assert (Hhead : forall a b t, sums = a :: b :: t -> 0 <= b <= a).
  { intros a b t E. split.
    - rewrite E in Hpos. inversion Hpos as [|? ? _ Hp]; subst.
      inversion Hp; assumption.
    - unfold sums, sorted_flux_sums in E. cbv zeta in E.
      eapply rev_sort_head. exact E. }
  split; [|split].
  - intro Hn. rewrite <- Hlen in Hn.
    destruct sums as [|a [|b t]]; try reflexivity. simpl in Hn. lia.
  - intros Hn Ha. rewrite <- Hlen in Hn.
    destruct sums as [|a [|b t]]; try (simpl in Hn; lia).
    destruct (Hhead a b t eq_refl) as [Hb0 Hba]. simpl in Ha.
    unfold intensity, fdiv.
    replace (Qeq_bool a 0) with false by (symmetry; apply Qeq_bool_false_iff; lra).
    eexists. split; [reflexivity|]. split.
    + apply Qle_shift_div_l; lra.
    + apply Qle_shift_div_r; lra.
  - intros Hn Ha. rewrite <- Hlen in Hn.
    destruct sums as [|a [|b t]]; try (simpl in Hn; lia).
    destruct (Hhead a b t eq_refl) as [Hb0 Hba]. simpl in Ha.
    unfold intensity, fdiv.
    replace (Qeq_bool a 0) with true by (symmetry; apply Qeq_bool_iff; exact Ha).
    unfold inf_of_sign.
    replace (Qeq_bool b 0) with true by (symmetry; apply Qeq_bool_iff; lra).
    reflexivity.
Qed.

End IntensityFacts.

Section CasExamples.

Import Reference.
Local Open Scope Q_scope.

(** A 5x5 stamp of constant flux, centre in the middle, Petrosian radius
    2: the radius of a fifth of the light within 3 pixels. *)
Lemma cas_radius_domain_witness :
  let r := Fin (99500 # 99000) in
  let s' := s0 32 in
  (r = Fin (-99) /\ flag s' = 1%Z /\
   exists r0 fl,
     _radius_at_fraction_of_total (const_stamp 5 5 1) (2.5, 2.5)
       (_petro_extent_circ default_config * 2) 0.2 = Ok (r0, fl) /\
     (r0 = NaN \/ exists x, r0 = Fin x /\ x <= 0)) \/
  (exists x fl,
     r = Fin x /\ 0 < x /\
     _radius_at_fraction_of_total (const_stamp 5 5 1) (2.5, 2.5)
       (_petro_extent_circ default_config * 2) 0.2 = Ok (Fin x, fl) /\
     flag s' = Z.max (flag (s0 32)) fl).
Proof.
  intros r s'.
  apply (@cas_radius_domain photutils scipy default_config (const_stamp 5 5 1)
           (2.5, 2.5) 2 0.2 (s0 32) s' r).
  vm_compute. reflexivity.
Defined.

Lemma concentration_domain_witness :
  let c := Fin 0 in
  let s := s0 32 in
  let cutout := const_stamp 5 5 1 in
  (c = Fin (-99) /\ flag s = 1%Z /\
   (r_20 default_config cutout (2.5, 2.5) 2 s = Returned (Fin (-99)) s \/
    exists r20 s1, r_20 default_config cutout (2.5, 2.5) 2 s = Returned (Fin r20) s1 /\
                   r_80 default_config cutout (2.5, 2.5) 2 s1 = Returned (Fin (-99)) s)) \/
  (exists r20 r80 s1,
     r_20 default_config cutout (2.5, 2.5) 2 s = Returned (Fin r20) s1 /\
     r_80 default_config cutout (2.5, 2.5) 2 s1 = Returned (Fin r80) s /\
     0 < r20 /\ 0 < r80 /\ 0 < r80 / r20 /\
     c = Fin (5 * np_log10 (r80 / r20))).
Proof.
  intros c s cutout.
  apply (@concentration_domain photutils scipy numpy_log default_config cutout
           (2.5, 2.5) 2 s s c).
  vm_compute. reflexivity.
Defined.

(** Two watershed regions on a 2x2 smoothed cutout: flux sums 4 and 6. *)
Lemma intensity_range_witness :
  let sums := sorted_flux_sums [[1; 1]; [2; 2]]%Z [1; 2]%Z [[1; 3]; [2; 4]] in
  ((2 <= 1)%nat -> intensity sums = Fin 0) /\
  ((2 <= 2)%nat -> 0 < hd 0 sums ->
   exists i, intensity sums = Fin i /\ 0 <= i <= 1) /\
  ((2 <= 2)%nat -> hd 0 sums == 0 -> intensity sums = NaN).
Proof.
  apply (@intensity_range [[1; 1]; [2; 2]]%Z [1; 2]%Z [[1; 3]; [2; 4]]).
  repeat constructor; unfold Qle; simpl; lia.
Defined.

End CasExamples.

(** ** The multimode statistic *)

Section MultimodeFacts.

Context `{Ndimage} `{ScipyOptimize}.
Variable cutout_mid : image.
Variable sorted_pixelvals_mid : list Q.
Variable niter_bh_mid : Z.
Local Open Scope Q_scope.

Lemma insert_count_perm x l : Permutation (insert_count x l) (x :: l).
Proof.
  induction l as [|y l IH]; simpl; [reflexivity|].
  destruct (x <=? y)%Z; [reflexivity|].
  rewrite IH. apply perm_swap.
Qed.

Lemma sort_counts_perm l : Permutation (sort_counts l) l.
Proof.
  induction l as [|x l IH]; simpl; [reflexivity|].
  rewrite insert_count_perm. now apply perm_skip.
Qed.

Lemma insert_count_increasing x l : increasing l -> increasing (insert_count x l).
Proof.
  induction 1 as [|y l Hy Hl IH]; simpl.
  - repeat constructor.
  - destruct (x <=? y)%Z eqn:E.
    + apply Z.leb_le in E. constructor.
      * constructor; [assumption|].
        eapply Forall_impl; [|exact Hy]. simpl. intros z Hz. lia.
      * now constructor.
    + apply Z.leb_gt in E. constructor; [|assumption].
      apply (Permutation_Forall (Permutation_sym (insert_count_perm x l))).
      constructor; [lia|assumption].
Qed.

Lemma sort_counts_increasing l : increasing (sort_counts l).
Proof.
  induction l as [|x l IH]; simpl; [constructor|now apply insert_count_increasing].
Qed.

Lemma increasing_last_two l a b : increasing (l ++ [b; a]) -> (b <= a)%Z.
Proof.
  induction l as [|x l IH]; simpl; intro Hinc; inversion Hinc as [|? ? Hx Hl]; subst.
  - inversion Hx; assumption.
  - apply IH. exact Hl.
Qed.

(** Each distinct value occurs at least once. *)
Lemma unique_counts_positive a c : In c (unique_counts a) -> (1 <= c)%Z.
Proof.
  unfold unique_counts. intro Hc. apply in_map_iff in Hc.
  destruct Hc as [u [<- Hu]].
  apply (Permutation_in _ (sort_counts_perm _)) in Hu.
  apply nodup_In in Hu. apply (count_occ_In Z.eq_dec) in Hu. lia.
Qed.

(** The areas [_multimode_function] returns are positive and sorted in
    decreasing order. *)
Lemma multimode_function_counts q sorted_counts :
  _multimode_function cutout_mid sorted_pixelvals_mid q = Ok sorted_counts ->
  Forall (fun c => 1 <= c)%Z sorted_counts /\
  (forall a1 a2 t, sorted_counts = a1 :: a2 :: t -> (a2 <= a1)%Z).
Proof.
  unfold _multimode_function.
  destruct (_quantile sorted_pixelvals_mid q) as [threshold|e]; [|discriminate].
  cbv zeta. intros [= <-]. split.
  - apply Forall_rev.
    apply (Permutation_Forall (Permutation_sym (sort_counts_perm _))).
    apply Forall_forall. intros c Hc. eapply unique_counts_positive. exact Hc.
  - intros a1 a2 t E.
    match type of E with rev (sort_counts ?l) = _ =>
      pose proof (sort_counts_increasing l) as Hinc;
      rewrite <- (rev_involutive (sort_counts l)), E in Hinc
    end.
    simpl in Hinc. rewrite <- app_assoc in Hinc. simpl in Hinc.
    exact (@increasing_last_two (rev t) a1 a2 Hinc).
Qed.

(** One pass of the brute-force loop. *)
Lemma brute_force_step fuel mid_stepsize s :
  brute_force cutout_mid sorted_pixelvals_mid (S fuel) mid_stepsize s =
  let quantile_array := arange_step 0 1 mid_stepsize in
  match ratio_array cutout_mid sorted_pixelvals_mid quantile_array with
  | Error e => Raised e s
  | Ok ratios =>
      match combine quantile_array ratios with
      | [] => Raised ValueError s
      | x :: l =>
          if Qltb (snd (argmin x l)) 0
          then Returned (Start (fst (argmin x l)) (snd (argmin x l)) mid_stepsize) s
          else if Qltb mid_stepsize 0.001 then Returned SingleClump (flagged s)
          else brute_force cutout_mid sorted_pixelvals_mid fuel (mid_stepsize / 2) s
      end
  end.
Proof.
  cbn [brute_force]. cbv zeta. unfold bind at 1.
  destruct (ratio_array cutout_mid sorted_pixelvals_mid (arange_step 0 1 mid_stepsize))
    as [ratios|e]; [|reflexivity].
  cbn [lift ret].
  destruct (combine (arange_step 0 1 mid_stepsize) ratios) as [|x l]; [reflexivity|].
  destruct (argmin x l) as [q0 ratio_min]. cbn [fst snd].
  destruct (Qltb ratio_min 0); [reflexivity|].
  destruct (Qltb mid_stepsize 0.001); reflexivity.
Qed.

Lemma pow2_pos k : 0 < inject_Z (2 ^ Z.of_nat k).
Proof.
  change 0 with (inject_Z 0). rewrite <- Zlt_Qlt. apply Z.pow_pos_nonneg; lia.
Qed.

Lemma pow2_succ k : inject_Z (2 ^ Z.of_nat (S k)) == 2 * inject_Z (2 ^ Z.of_nat k).
Proof.
  rewrite Nat2Z.inj_succ, Z.pow_succ_r by lia. rewrite inject_Z_mult. reflexivity.
Qed.

(** A step below [0.001 * 2^k] is halved at most [k] times: [k + 1] passes
    are enough, and more fuel changes nothing. *)
Lemma brute_force_enough k : forall mid_stepsize fuel s,
  mid_stepsize < 0.001 * inject_Z (2 ^ Z.of_nat k) ->
  brute_force cutout_mid sorted_pixelvals_mid (S k + fuel) mid_stepsize s
  = brute_force cutout_mid sorted_pixelvals_mid (S k) mid_stepsize s /\
  brute_force cutout_mid sorted_pixelvals_mid (S k) mid_stepsize s <> OutOfFuel.
Proof.
  induction k as [|k IH]; intros step fuel s Hstep.
  - change (1 + fuel)%nat with (S fuel).
    rewrite (brute_force_step fuel step s), (brute_force_step 0 step s). cbv zeta.
    destruct (ratio_array _ _ _) as [ratios|e]; [|split; [reflexivity|discriminate]].
    destruct (combine _ ratios) as [|x l]; [split; [reflexivity|discriminate]|].
    destruct (Qltb (snd (argmin x l)) 0); [split; [reflexivity|discriminate]|].
    replace (Qltb step 0.001) with true.
    + split; [reflexivity|discriminate].
    + symmetry. apply Qltb_iff. change (inject_Z (2 ^ Z.of_nat 0)) with 1 in Hstep. lra.
  - change (S (S k) + fuel)%nat with (S (S k + fuel)).
    rewrite (brute_force_step (S k + fuel) step s), (brute_force_step (S k) step s).
    cbv zeta.
    destruct (ratio_array _ _ _) as [ratios|e]; [|split; [reflexivity|discriminate]].
    destruct (combine _ ratios) as [|x l]; [split; [reflexivity|discriminate]|].
    destruct (Qltb (snd (argmin x l)) 0); [split; [reflexivity|discriminate]|].
    destruct (Qltb step 0.001); [split; [reflexivity|discriminate]|].
    apply IH. pose proof (pow2_succ k) as E2.
    set (p1 := inject_Z (2 ^ Z.of_nat (S k))) in *.
    set (p0 := inject_Z (2 ^ Z.of_nat k)) in *.
    apply Qlt_shift_div_r; lra.
Qed.

(** The brute-force stage raises the flag exactly when it ends on a single
    clump, and writes nothing else. *)
Lemma brute_force_returns fuel : forall mid_stepsize s st s',
  brute_force cutout_mid sorted_pixelvals_mid fuel mid_stepsize s = Returned st s' ->
  (st = SingleClump /\ s' = flagged s) \/
  (exists q0 ratio_min step, st = Start q0 ratio_min step /\ ratio_min < 0 /\ s' = s).
Proof.
  induction fuel as [|fuel IH]; intros step s st s'; [discriminate|].
  rewrite brute_force_step. cbv zeta.
  destruct (ratio_array _ _ _) as [ratios|e]; [|discriminate].
  destruct (combine _ ratios) as [|x l]; [discriminate|].
  destruct (Qltb (snd (argmin x l)) 0) eqn:E.
  - intros [= <- <-]. right. apply Qltb_iff in E.
    exists (fst (argmin x l)), (snd (argmin x l)), step. auto.
  - destruct (Qltb step 0.001).
    + intros [= <- <-]. left. auto.
    + apply IH.
Qed.

(** X16.  The brute-force stage of [multimode] makes at most six passes
    over the quantiles (steps 0.02, 0.01, 0.005, 0.0025, 0.00125 and
    0.000625, the last one below 0.001): six units of fuel are enough for
    [multimode] to end, by return or by exception, and more fuel does not
    change its outcome. *)
Theorem multimode_six_passes (fuel : nat) (s : state) :
  multimode cutout_mid sorted_pixelvals_mid niter_bh_mid (6 + fuel) s
  = multimode cutout_mid sorted_pixelvals_mid niter_bh_mid 6 s /\
  multimode cutout_mid sorted_pixelvals_mid niter_bh_mid 6 s <> OutOfFuel.
Proof.
  assert (Hstep : 0.02 < 0.001 * inject_Z (2 ^ Z.of_nat 5)) by reflexivity.
  destruct (brute_force_enough 5 fuel s Hstep) as [Heq Hne].
  unfold multimode, bind. change (6 + fuel)%nat with (6 + fuel)%nat.
  change (S 5 + fuel)%nat with (6 + fuel)%nat in Heq. rewrite Heq.
  split; [reflexivity|].
  destruct (brute_force cutout_mid sorted_pixelvals_mid 6 0.02 s) as [st s1|e s1|];
    [|discriminate|congruence].
  destruct st as [|q0 ratio_min step]; [discriminate|]. cbv zeta.
  destruct (basinhopping _ _ _ _ _) as [q_final|e]; [|discriminate].
  cbn [lift ret].
  destruct (_multimode_function cutout_mid sorted_pixelvals_mid q_final)
    as [sorted_counts|e]; [|discriminate].
  cbn [lift ret]. destruct sorted_counts as [|a1 [|a2 t]]; try discriminate.
  destruct (a1 =? 0)%Z; discriminate.
Qed.

(** X17.  Whenever [multimode] returns, its value is 0 with the general
    flag raised (a single clump at every quantile), or a ratio of two
    clump areas with [0 < M <= 1] and the flags untouched. *)
Theorem multimode_range (fuel : nat) (s s' : state) (m : Q) :
  multimode cutout_mid sorted_pixelvals_mid niter_bh_mid fuel s = Returned m s' ->
  (m = 0 /\ s' = flagged s) \/ (0 < m <= 1 /\ s' = s).
Proof.
  unfold multimode, bind.
  destruct (brute_force cutout_mid sorted_pixelvals_mid fuel 0.02 s) as [st s1|e s1|] eqn:E;
    try discriminate.
  destruct (brute_force_returns _ _ _ E) as [[-> ->]|(q0 & ratio_min & step & -> & _ & ->)].
  - intros [= <- <-]. left. auto.
  - cbv zeta. destruct (basinhopping _ _ _ _ _) as [q_final|e]; [|discriminate].
    cbn [lift ret].
    destruct (_multimode_function cutout_mid sorted_pixelvals_mid q_final)
      as [sorted_counts|e] eqn:Ef; [|discriminate].
    cbn [lift ret]. destruct (multimode_function_counts _ Ef) as [Hpos Hdesc].
    destruct sorted_counts as [|a1 [|a2 t]]; try discriminate.
    specialize (Hdesc a1 a2 t eq_refl).
    inversion Hpos as [|? ? H1 Hpos']; subst. inversion Hpos' as [|? ? H2 _]; subst.
    replace (a1 =? 0)%Z with false by (symmetry; apply Z.eqb_neq; lia).
    intros [= <- <-]. right. split; [|reflexivity].
    assert (Ha1 : 0 < inject_Z a1).
    { change 0 with (inject_Z 0). rewrite <- Zlt_Qlt. lia. }
    assert (Ha2 : 0 < inject_Z a2).
    { change 0 with (inject_Z 0). rewrite <- Zlt_Qlt. lia. }
    assert (Hle : inject_Z a2 <= inject_Z a1) by (rewrite <- Zle_Qle; exact Hdesc).
    split.
    + apply Qlt_shift_div_l; lra.
    + apply Qle_shift_div_r; lra.
Qed.

(** The quantiles of one pass lie in [[0, 1)], and there is at least one. *)
Lemma arange_step_unit step :
  0 < step ->
  arange_step 0 1 step <> [] /\
  forall q, In q (arange_step 0 1 step) -> 0 <= q < 1.
Proof.
  intro Hstep. unfold arange_step.
  assert (Hinv : 0 < (1 - 0) / step) by (apply Qlt_shift_div_l; lra).
  pose proof (Qle_ceiling ((1 - 0) / step)) as Hc.
  assert (Hc1 : (0 < Qceiling ((1 - 0) / step))%Z).
  { rewrite Zlt_Qlt. change (inject_Z 0) with 0. lra. }
  split.
  - destruct (Z.to_nat (Qceiling ((1 - 0) / step))) eqn:E; [lia|]. discriminate.
  - intros q Hq. apply in_map_iff in Hq. destruct Hq as [k [<- Hk]].
    apply in_seq in Hk. pose proof (Qof_nat_nonneg k) as Hk0.
    split; [nra|].
    pose proof (Qceiling_lt ((1 - 0) / step)) as Hlt.
    assert (Hkc : Qof_nat k <= inject_Z (Qceiling ((1 - 0) / step) - 1)).
    { unfold Qof_nat. rewrite <- Zle_Qle. lia. }
    assert (Hks : Qof_nat k < (1 - 0) / step) by lra.
    assert (Hmul : Qof_nat k * step < (1 - 0) / step * step).
    { apply Qmult_lt_compat_r; assumption. }
    assert (Ediv : (1 - 0) / step * step == 1) by (field; lra).
    lra.
Qed.

Section SingleClump.

(** At every quantile the areas are those of one clump, and the cutout
    has a non-negative sum. *)
Hypothesis one_clump : forall q, 0 <= q <= 1 ->
  exists n, _multimode_function cutout_mid sorted_pixelvals_mid q = Ok [n].
Hypothesis sum_nonneg : 0 <= Qsum (flatten cutout_mid).

Lemma ratio_invalid q :
  0 <= q <= 1 ->
  _multimode_ratio cutout_mid sorted_pixelvals_mid q = Ok (Qsum (flatten cutout_mid)).
Proof.
  intros [Hq0 Hq1]. unfold _multimode_ratio. cbv zeta.
  replace (Qltb q 0) with false by (symmetry; apply Qltb_false_iff; exact Hq0).
  replace (Qltb 1 q) with false by (symmetry; apply Qltb_false_iff; exact Hq1).
  cbn [orb]. destruct (one_clump (conj Hq0 Hq1)) as [n ->]. reflexivity.
Qed.

Lemma ratio_array_invalid qs :
  (forall q, In q qs -> 0 <= q <= 1) ->
  ratio_array cutout_mid sorted_pixelvals_mid qs
  = Ok (map (fun _ => Qsum (flatten cutout_mid)) qs).
Proof.
  induction qs as [|q qs IH]; intro Hqs; [reflexivity|].
  cbn [ratio_array map]. rewrite ratio_invalid by (apply Hqs; left; reflexivity).
  rewrite IH by (intros q' Hq'; apply Hqs; right; exact Hq'). reflexivity.
Qed.

Lemma argmin_snd (x : Q * Q) l v :
  snd x = v -> Forall (fun y => snd y = v) l -> snd (argmin x l) = v.
Proof.
  revert x. induction l as [|y l IH]; intros x Hx Hl; [exact Hx|].
  inversion Hl as [|? ? Hy Hl']; subst. simpl.
  destruct (Qltb (snd y) (snd x)); apply IH; auto.
Qed.

(** A pass over a single clump finds no valid ratio. *)
Lemma single_clump_pass fuel mid_stepsize s :
  0 < mid_stepsize ->
  brute_force cutout_mid sorted_pixelvals_mid (S fuel) mid_stepsize s
  = if Qltb mid_stepsize 0.001 then Returned SingleClump (flagged s)
    else brute_force cutout_mid sorted_pixelvals_mid fuel (mid_stepsize / 2) s.
Proof.
  intro Hpos. rewrite brute_force_step. cbv zeta.
  destruct (arange_step_unit Hpos) as [Hne Hin].
  rewrite ratio_array_invalid by (intros q Hq; destruct (Hin q Hq); split; lra).
  destruct (arange_step 0 1 mid_stepsize) as [|q qs]; [congruence|].
  cbn [map combine].
  assert (E : snd (argmin (q, Qsum (flatten cutout_mid))
                     (combine qs (map (fun _ => Qsum (flatten cutout_mid)) qs)))
              = Qsum (flatten cutout_mid)).
  { apply argmin_snd; [reflexivity|].
    clear. induction qs as [|q' qs IH]; simpl; constructor; [reflexivity|exact IH]. }
  rewrite E.
  replace (Qltb (Qsum (flatten cutout_mid)) 0) with false
    by (symmetry; apply Qltb_false_iff; exact sum_nonneg).
  reflexivity.
Qed.

Lemma brute_force_single_clump k : forall mid_stepsize fuel s,
  0 < mid_stepsize ->
  mid_stepsize < 0.001 * inject_Z (2 ^ Z.of_nat k) ->
  brute_force cutout_mid sorted_pixelvals_mid (S k + fuel) mid_stepsize s
  = Returned SingleClump (flagged s).
Proof.
  induction k as [|k IH]; intros step fuel s Hpos Hstep.
  - change (1 + fuel)%nat with (S fuel). rewrite single_clump_pass by exact Hpos.
    replace (Qltb step 0.001) with true; [reflexivity|].
    symmetry. apply Qltb_iff. change (inject_Z (2 ^ Z.of_nat 0)) with 1 in Hstep. lra.
  - change (S (S k) + fuel)%nat with (S (S k + fuel)).
    rewrite single_clump_pass by exact Hpos.
    destruct (Qltb step 0.001); [reflexivity|].
    apply IH; [apply Qlt_shift_div_l; lra|]. pose proof (pow2_succ k) as E2.
    set (p1 := inject_Z (2 ^ Z.of_nat (S k))) in *.
    set (p0 := inject_Z (2 ^ Z.of_nat k)) in *.
    apply Qlt_shift_div_r; lra.
Qed.

End SingleClump.

(** X18.  A source that is a single clump at every quantile (a star, say)
    has no multimode statistic: when [_multimode_function] finds one region
    at every quantile in [[0, 1]] and the MID cutout has a non-negative
    sum, [multimode] goes through its six brute-force passes without a
    valid ratio, returns 0 and raises the general flag. *)
Theorem multimode_single_clump (fuel : nat) (s : state) :
  (forall q, 0 <= q <= 1 ->
     exists n, _multimode_function cutout_mid sorted_pixelvals_mid q = Ok [n]) ->
  0 <= Qsum (flatten cutout_mid) ->
  multimode cutout_mid sorted_pixelvals_mid niter_bh_mid (6 + fuel) s
  = Returned 0 (flagged s).
Proof.
  intros Hone Hsum. unfold multimode, bind.
  change (6 + fuel)%nat with (S 5 + fuel)%nat.
  rewrite (@brute_force_single_clump Hone Hsum 5 0.02 fuel s); reflexivity.
Qed.

End MultimodeFacts.

Section MultimodeExamples.

Import Reference.
Local Open Scope Q_scope.

(** Three pixels in a row, 3, 0 and 2: above the middle value they are two
    clumps of one pixel each. *)
Lemma multimode_range_witness :
  multimode [[3; 0; 2]] [0; 2; 3] 100 6 (s0 32) = Returned 1 (s0 32) /\
  ((1 = 0 /\ s0 32 = flagged (s0 32)) \/ (0 < 1 <= 1 /\ s0 32 = s0 32)).
Proof.
  assert (E : multimode [[3; 0; 2]] [0; 2; 3] 100 6 (s0 32) = Returned 1 (s0 32))
    by (vm_compute; reflexivity).
  split; [exact E|].
  apply (@multimode_range ndimage scipy_optimize [[3; 0; 2]] [0; 2; 3] 100 6
           (s0 32) (s0 32) 1).
  exact E.
Defined.

(** A source of one pixel. *)
Lemma multimode_single_clump_witness :
  multimode [[1]] [1] 100 (6 + 0) (s0 32) = Returned 0 (flagged (s0 32)).
Proof.
  apply (@multimode_single_clump ndimage scipy_optimize [[1]] [1] 100 0 (s0 32)).
  - intros q Hq. exists 1%Z. unfold _multimode_function.
    assert (Hne : [1] <> @nil Q) by discriminate.
    destruct (quantile_value Hne Hq) as (k & Hk & E & _).
    rewrite E. simpl in Hk. replace k with 0%nat by lia. reflexivity.
  - vm_compute. discriminate.
Defined.

End MultimodeExamples.

(** ** The cross-check of the three segmentation maps *)

Section CheckSegmapsFacts.

Local Open Scope Z_scope.

Lemma count_true_rows (a : list (list bool)) :
  count_true a = fold_right (fun row n => Z.of_nat (length (filter (fun b => b) row)) + n) 0 a.
Proof.
  unfold count_true, flatten. induction a as [|row a IH]; simpl; [reflexivity|].
  rewrite filter_app, length_app, Nat2Z.inj_add, IH. reflexivity.
Qed.

Lemma filter_zip_andb_le (r1 r2 : list bool) :
  (length (filter (fun b => b) (zip_with andb r1 r2))
   <= length (filter (fun b => b) r1))%nat.
Proof.
  revert r2. induction r1 as [|x r1 IH]; intros [|y r2]; simpl; try lia.
  specialize (IH r2). destruct x, y; simpl; lia.
Qed.

Lemma count_true_nonneg a : 0 <= count_true a.
Proof. unfold count_true. lia. Qed.

Lemma count_true_and_le a b : count_true (zip2d andb a b) <= count_true a.
Proof.
  rewrite !count_true_rows. unfold zip2d. revert b.
  induction a as [|r a IH]; intros [|r' b]; simpl; try lia.
  - clear. induction a as [|r0 a IH]; simpl; lia.
  - specialize (IH b). pose proof (filter_zip_andb_le r r'). lia.
Qed.

Lemma zip2d_andb_diag a : zip2d andb a a = a.
Proof.
  unfold zip2d. rewrite zip_with_diag.
  induction a as [|r a IH]; simpl; [reflexivity|]. rewrite IH. f_equal.
  rewrite zip_with_diag. induction r as [|x r IHr]; simpl; [reflexivity|].
  rewrite IHr. destruct x; reflexivity.
Qed.

(** X19.  The overlap of the three segmaps is never larger than the
    largest of them, so their area ratio is at most 1: an overlap ratio
    above 1 in the configuration makes [_check_segmaps] raise the general
    flag on every source.  With a ratio of at most 1, three identical
    non-empty segmaps leave the flag as it is; three empty segmaps always
    raise it. *)
Theorem check_segmaps_ratio (cfg : config) (g m a : bmask) (s : state) :
  count_true (zip2d andb (zip2d andb g m) a)
    <= Z.max (Z.max (count_true g) (count_true m)) (count_true a) /\
  ((1 < _segmap_overlap_ratio cfg)%Q ->
   _check_segmaps cfg g m a s = Returned tt (flagged s)) /\
  ((_segmap_overlap_ratio cfg <= 1)%Q -> 0 < count_true g ->
   _check_segmaps cfg g g g s = Returned tt s) /\
  (count_true g = 0 -> count_true m = 0 -> count_true a = 0 ->
   _check_segmaps cfg g m a s = Returned tt (flagged s)).
Proof.
  assert (Hle : count_true (zip2d andb (zip2d andb g m) a)
                <= Z.max (Z.max (count_true g) (count_true m)) (count_true a)).
  { pose proof (count_true_and_le (zip2d andb g m) a).
    pose proof (count_true_and_le g m). lia. }
  split; [exact Hle|]. split; [|split].
  - intro Hratio. unfold _check_segmaps. cbv zeta.
    set (area_max := Z.max (Z.max (count_true g) (count_true m)) (count_true a)) in *.
    set (area_overlap := count_true (zip2d andb (zip2d andb g m) a)) in *.
    destruct (area_max =? 0) eqn:E0; [reflexivity|].
    apply Z.eqb_neq in E0.
    assert (Hpos : 0 < area_max).
    { pose proof (count_true_nonneg g). unfold area_max in *. lia. }
    assert (Hq : (inject_Z area_overlap / inject_Z area_max <= 1)%Q).
    { apply Qle_shift_div_r.
      - change 0%Q with (inject_Z 0). rewrite <- Zlt_Qlt. exact Hpos.
      - rewrite Qmult_1_l. rewrite <- Zle_Qle. exact Hle. }
    replace (Qltb (inject_Z area_overlap / inject_Z area_max) (_segmap_overlap_ratio cfg))
      with true by (symmetry; apply Qltb_iff; lra).
    reflexivity.
  - intros Hratio Hpos. unfold _check_segmaps. cbv zeta.
    rewrite !zip2d_andb_diag, !Z.max_id.
    replace (count_true g =? 0) with false by (symmetry; apply Z.eqb_neq; lia).
    assert (Hq : (inject_Z (count_true g) / inject_Z (count_true g) == 1)%Q).
    { field. change 0%Q with (inject_Z 0). rewrite inject_Z_injective. lia. }
    replace (Qltb (inject_Z (count_true g) / inject_Z (count_true g))
                  (_segmap_overlap_ratio cfg))
      with false by (symmetry; apply Qltb_false_iff; lra).
    reflexivity.
  - intros Hg Hm Ha. unfold _check_segmaps. cbv zeta. rewrite Hg, Hm, Ha.
    reflexivity.
Qed.

End CheckSegmapsFacts.

(** ** The radius helper on a grid with a bracket *)

Section BracketFacts.

Context `{Photutils} `{Scipy}.
Local Open Scope Q_scope.

(** At a grid point with a non-negative value, a lower end [rm] being
    known, the scan ends: on the point itself when the value is 0, on the
    bracket otherwise. *)
Lemma fraction_scan_stop f g todo j rm flag :
  0 <= f (g j) ->
  fraction_scan f g (S todo) j (Some rm) flag
  = if Qeq_bool (f (g j)) 0 then Ok (Chance (g j), flag)
    else Ok (Bracket rm (g j), flag).
Proof.
  intro Hj. cbn [fraction_scan]. cbv zeta.
  destruct (Qeq_bool (f (g j)) 0) eqn:E; [reflexivity|].
  replace (Qltb (f (g j)) 0) with false by (symmetry; apply Qltb_false_iff; exact Hj).
  reflexivity.
Qed.

(** Negative values up to index [j], a non-negative one at [j]: the scan
    stops at [j], the flag as it was. *)
Lemma fraction_scan_bracket f g j : forall todo i r_min flag,
  (i < j < i + todo)%nat ->
  (forall k, (i <= k < j)%nat -> f (g k) < 0) ->
  0 <= f (g j) ->
  fraction_scan f g todo i r_min flag
  = if Qeq_bool (f (g j)) 0 then Ok (Chance (g j), flag)
    else Ok (Bracket (g (j - 1)%nat) (g j), flag).
Proof.
  induction todo as [|todo IH]; intros i r_min flag Hij Hneg Hj; [lia|].
  cbn [fraction_scan]. cbv zeta.
  assert (Hi : f (g i) < 0) by (apply Hneg; lia).
  replace (Qeq_bool (f (g i)) 0) with false
    by (symmetry; apply Qeq_bool_false_iff; lra).
  replace (Qltb (f (g i)) 0) with true by (symmetry; apply Qltb_iff; exact Hi).
  destruct (Nat.eq_dec (S i) j) as [E|Hne].
  - subst j. destruct todo as [|todo]; [lia|].
    rewrite fraction_scan_stop by exact Hj.
    replace (S i - 1)%nat with i by lia. reflexivity.
  - apply IH; [lia| |exact Hj]. intros k Hk. apply Hneg. lia.
Qed.

(** X20.  When the total flux is positive, the first value of the
    fraction-of-total function on the 100-point grid is negative and a
    later one is not, [_radius_at_fraction_of_total] returns with flag 0
    and without exception: at the first grid radius whose value is not
    negative it returns that radius if the value is 0, and otherwise the
    root that [brentq] finds between the previous grid radius and that
    one. *)
Theorem radius_at_fraction_bracket (img : image) (center : point)
    (r_total fraction : Q) (j : nat) :
  let c := (floor_half (fst center), floor_half (snd center)) in
  let total_sum := do_photometry (CircularAperture c r_total) img in
  let r_inner := Qmin 0.5 (0.2 * r_total) in
  let r_grid := linspace r_inner r_total npoints in
  let f := fun r => _fraction_of_total_function r img c fraction total_sum in
  0 < total_sum ->
  r_inner < r_total ->
  (0 < j < npoints)%nat ->
  (forall i, (i < j)%nat -> f (r_grid i) < 0) ->
  0 <= f (r_grid j) ->
  _radius_at_fraction_of_total img center r_total fraction
  = Ok (Fin (if Qeq_bool (f (r_grid j)) 0 then r_grid j
             else brentq f (r_grid (j - 1)%nat) (r_grid j)), 0%Z).
Proof.
  intros c total_sum r_inner r_grid f Hsum Hassert Hj Hneg Hnn.
  unfold _radius_at_fraction_of_total. cbv zeta.
  fold c. fold total_sum. fold r_inner. fold r_grid. fold f.
  replace (Qle_bool total_sum 0) with false
    by (symmetry; apply Qle_bool_false_iff; exact Hsum).
  replace (Qltb r_inner r_total) with true
    by (symmetry; apply Qltb_iff; exact Hassert).
  cbn [negb].
  rewrite (@fraction_scan_bracket f r_grid j npoints 0%nat None 0%Z);
    [| lia | intros k Hk; apply Hneg; lia | exact Hnn].
  destruct (Qeq_bool (f (r_grid j)) 0); reflexivity.
Qed.

(** The first index with a non-negative value, when there is one after a
    negative start. *)
Lemma first_nonneg (v : nat -> Q) m :
  v 0%nat < 0 -> 0 <= v m ->
  exists j, (0 < j <= m)%nat /\ (forall i, (i < j)%nat -> v i < 0) /\ 0 <= v j.
Proof.
  intros Hstart. induction m as [|m IH]; intro Hm; [lra|].
  destruct (Qlt_le_dec (v m) 0) as [Hneg|Hnn].
  - destruct m as [|m].
    + exists 1%nat. split; [lia|]. split; [|exact Hm].
      intros i Hi. replace i with 0%nat by lia. exact Hstart.
    + assert (Hall : forall k, (k <= S m)%nat ->
                (forall i, (i <= k)%nat -> v i < 0) \/
                exists j, (0 < j <= k)%nat /\ (forall i, (i < j)%nat -> v i < 0) /\ 0 <= v j).
      { induction k as [|k IHk]; intro Hk.
        - left. intros i Hi. replace i with 0%nat by lia. exact Hstart.
        - destruct (IHk ltac:(lia)) as [Hbelow|(j & Hj & Hlt & Hge)].
          + destruct (Qlt_le_dec (v (S k)) 0) as [Hn|Hp].
            * left. intros i Hi. destruct (Nat.eq_dec i (S k)) as [->|Hne];
                [exact Hn|apply Hbelow; lia].
            * right. exists (S k). split; [lia|]. split; [|exact Hp].
              intros i Hi. apply Hbelow. lia.
          + right. exists j. split; [lia|]. split; assumption. }
      destruct (Hall (S m) (le_n _)) as [Hbelow|(j & Hj & Hlt & Hge)].
      * exists (S (S m)). split; [lia|]. split; [|exact Hm].
        intros i Hi. apply Hbelow. lia.
      * exists j. split; [lia|]. split; assumption.
  - destruct (IH Hnn) as (j & Hj & Hlt & Hge).
    exists j. split; [lia|]. split; assumption.
Qed.

(** X21.  The helper cannot fail once its scan starts below the target:
    when the total flux is positive, the fraction is below 1, the
    photometry at the last grid radius is the total flux (that radius is
    [r_total]) and the value at the innermost grid radius is negative,
    [_radius_at_fraction_of_total] returns a radius with flag 0; it does
    not raise "Root not found within range.". *)
Theorem radius_at_fraction_succeeds (img : image) (center : point)
    (r_total fraction : Q) :
  let c := (floor_half (fst center), floor_half (snd center)) in
  let total_sum := do_photometry (CircularAperture c r_total) img in
  let r_inner := Qmin 0.5 (0.2 * r_total) in
  let r_grid := linspace r_inner r_total npoints in
  let f := fun r => _fraction_of_total_function r img c fraction total_sum in
  0 < total_sum ->
  r_inner < r_total ->
  fraction < 1 ->
  do_photometry (CircularAperture c (r_grid (npoints - 1)%nat)) img == total_sum ->
  f (r_grid 0%nat) < 0 ->
  exists r, _radius_at_fraction_of_total img center r_total fraction = Ok (Fin r, 0%Z).
Proof.
  intros c total_sum r_inner r_grid f Hsum Hassert Hfrac Hlast Hfirst.
  assert (Hend : 0 <= f (r_grid (npoints - 1)%nat)).
  { unfold f, _fraction_of_total_function. cbv zeta. fold total_sum.
    rewrite Hlast. rewrite Qabs_pos by lra.
    assert (E : total_sum / total_sum == 1) by (field; lra).
    rewrite E. lra. }
  destruct (first_nonneg (fun i => f (r_grid i)) (npoints - 1) Hfirst Hend)
    as (j & Hj & Hneg & Hnn).
  unfold _radius_at_fraction_of_total. cbv zeta.
  fold c. fold total_sum. fold r_inner. fold r_grid. fold f.
  replace (Qle_bool total_sum 0) with false
    by (symmetry; apply Qle_bool_false_iff; exact Hsum).
  replace (Qltb r_inner r_total) with true
    by (symmetry; apply Qltb_iff; exact Hassert).
  cbn [negb].
  rewrite (@fraction_scan_bracket f r_grid j npoints 0%nat None 0%Z);
    [| unfold npoints in *; lia | intros k Hk; apply Hneg; lia | exact Hnn].
  destruct (Qeq_bool (f (r_grid j)) 0); eexists; reflexivity.
Qed.

(** X22.  [half_light_radius] is 0, the flags untouched and no photometry
    done, when [rmax] is 0; it is NaN, with the general flag raised, when
    [rmax] is not 0 and the total flux within [rmax] is not positive.  In
    both cases the outer asymmetry that reads it gives up: for a centre
    inside the image [_asymmetry_function] of kind ['outer'] returns the
    invalid value -99 and raises the general flag. *)
Theorem half_light_radius_invalid `{Skimage} (cfg : config) (cutout : image)
    (asymmetry_center : point) (rmax_value : Q) (s : state) :
  let c := (floor_half (fst asymmetry_center), floor_half (snd asymmetry_center)) in
  let total_sum := do_photometry (CircularAperture c rmax_value) cutout in
  (rmax_value == 0 ->
   half_light_radius cutout asymmetry_center rmax_value s = Returned (Fin 0) s) /\
  (~ rmax_value == 0 -> total_sum <= 0 ->
   half_light_radius cutout asymmetry_center rmax_value s
   = Returned NaN (mkState (Z.max (flag s) 1) (flag_sersic s) (_skybox_size s))) /\
  (forall lv center img s0,
     lv_half_light_radius lv = Fin 0 \/ lv_half_light_radius lv = NaN ->
     in_bounds center (fst (shape img)) (snd (shape img)) ->
     _asymmetry_function cfg lv center img Outer s0 = Returned (-99) (flagged s0)).
Proof.
  intros c total_sum. split; [|split].
  - intro Hz. unfold half_light_radius.
    replace (Qeq_bool rmax_value 0) with true by (symmetry; apply Qeq_bool_iff; exact Hz).
    reflexivity.
  - intros Hnz Hsum. unfold half_light_radius.
    replace (Qeq_bool rmax_value 0) with false
      by (symmetry; apply Qeq_bool_false_iff; exact Hnz).
    unfold _radius_at_fraction_of_total. cbv zeta. fold c. fold total_sum.
    replace (Qle_bool total_sum 0) with true by (symmetry; apply Qle_bool_iff; exact Hsum).
    reflexivity.
  - intros lv center img s0 Hr Hin. unfold _asymmetry_function.
    pose proof (in_bounds_test img Hin) as Hb.
    destruct (shape img) as [ny nx]. destruct center as [xc yc].
    cbn [fst snd] in Hb. rewrite Hb.
    unfold select_aperture.
    destruct Hr as [-> | ->]; destruct (isnan (lv_rmax lv)); reflexivity.
Qed.

End BracketFacts.

Section BracketExamples.

Import Reference.
Local Open Scope Q_scope.

(** A 5x5 stamp of constant flux: the circle of radius 1 about the middle
    holds exactly a fifth of the 25 pixels within radius 3, and grid point
    20 is the first radius that reaches 1. *)
Lemma radius_at_fraction_bracket_witness :
  let img := const_stamp 5 5 1 in
  let r_grid := linspace (Qmin 0.5 (0.2 * 3)) 3 npoints in
  let f := fun r =>
    _fraction_of_total_function r img (floor_half 2.5, floor_half 2.5) 0.2
      (do_photometry (CircularAperture (floor_half 2.5, floor_half 2.5) 3) img) in
  _radius_at_fraction_of_total img (2.5, 2.5) 3 0.2
  = Ok (Fin (if Qeq_bool (f (r_grid 20%nat)) 0 then r_grid 20%nat
             else brentq f (r_grid 19%nat) (r_grid 20%nat)), 0%Z).
Proof.
  intros img r_grid f.
  apply (@radius_at_fraction_bracket photutils scipy img (2.5, 2.5) 3 0.2 20).
  - reflexivity.
  - reflexivity.
  - split; [lia|]. unfold npoints. lia.
  - intros i Hi. apply Qltb_iff. revert i Hi. apply forall_below.
    vm_compute. reflexivity.
  - apply Qle_bool_iff. vm_compute. reflexivity.
Defined.

Lemma radius_at_fraction_succeeds_witness :
  exists r, _radius_at_fraction_of_total (const_stamp 5 5 1) (2.5, 2.5) 3 0.2
            = Ok (Fin r, 0%Z).
Proof.
  apply (@radius_at_fraction_succeeds photutils scipy (const_stamp 5 5 1) (2.5, 2.5) 3 0.2).
  - reflexivity.
  - reflexivity.
  - reflexivity.
  - vm_compute. reflexivity.
  - vm_compute. reflexivity.
Defined.

End BracketExamples.

(** ** The arrays the constructor leaves *)

Section InitFacts.

Context `{Scipy} `{Numpy}.
Variable cfg : config.

Lemma sanitized_pixel_finite x v : isfinite (sanitized_pixel x v) = true.
Proof.
  unfold sanitized_pixel. destruct (isfinite x) eqn:Ex; [|reflexivity].
  destruct (isfinite v); [exact Ex|reflexivity].
Qed.

Lemma sanitized_variance_finite x v : isfinite (sanitized_variance x v) = true.
Proof.
  unfold sanitized_variance. destruct (isfinite x); [|reflexivity].
  destruct (isfinite v) eqn:Ev; [exact Ev|reflexivity].
Qed.

Lemma zip2d_Forall {A B C} (f : A -> B -> C) (P : C -> Prop) a b :
  (forall x y, P (f x y)) -> Forall (Forall P) (zip2d f a b).
Proof.
  intro Hf. unfold zip2d. revert b.
  induction a as [|r a IH]; intros [|r' b]; simpl; constructor; [|apply IH].
  revert r'. induction r as [|x r IHr]; intros [|y r']; simpl; constructor;
    [apply Hf|apply IHr].
Qed.

Lemma zero_where_finite locs a : all_finite a -> all_finite (zero_where locs a).
Proof.
  unfold all_finite, zero_where, zip2d. intro Ha. revert locs.
  induction Ha as [|r a Hr _ IH]; intros [|l locs]; simpl; constructor; [|apply IH].
  revert l. induction Hr as [|x r Hx _ IHr]; intros [|b l]; simpl; constructor;
    [destruct b; [reflexivity|exact Hx]|apply IHr].
Qed.

Lemma sanitized_image_finite caller : all_finite (sanitized_image caller).
Proof.
  unfold sanitized_image, all_finite. destruct (arr_variance caller) as [v|].
  - apply zip2d_Forall. apply sanitized_pixel_finite.
  - apply map2d_Forall. intro x. apply sanitized_pixel_finite.
Qed.

(** X23.  After the constructor every entry of the caller's image is
    finite, and so is every entry of the caller's variance when one was
    given, with or without the bad-pixel pass and whatever the convolution
    of that pass returns. *)
Theorem init_leaves_finite (skybox_size : Z) (caller : arrays) :
  let after := fst (__init__ cfg skybox_size caller) in
  all_finite (arr_image after) /\
  (forall variance, arr_variance after = Some variance -> all_finite variance).
Proof.
  destruct (init_run cfg skybox_size caller) as [mask ->]. cbv zeta.
  destruct (_remove_outliers cfg).
  - unfold _remove_badpixels. cbv zeta. cbn [fst arr_image arr_variance]. split.
    + apply zero_where_finite. apply sanitized_image_finite.
    + intros variance Hv. destruct (arr_variance caller) as [v|]; [|discriminate].
      injection Hv as <-. apply zip2d_Forall. apply sanitized_variance_finite.
  - cbn [fst arr_image arr_variance]. split.
    + apply sanitized_image_finite.
    + intros variance Hv. destruct (arr_variance caller) as [v|]; [|discriminate].
      injection Hv as <-. apply zip2d_Forall. apply sanitized_variance_finite.
Qed.

(** X24.  The mask that the constructor hands to [SourceProperties] covers
    every invalid position: wherever that mask has an entry, the entry is
    True if the caller's image is not finite there, if the caller's
    variance is not finite there, or if the caller's mask is True
    there. *)
Theorem init_masks_invalid (skybox_size : Z) (caller : arrays) (i j : nat) (b : bool) :
  entry (obj_mask (snd (__init__ cfg skybox_size caller))) i j = Some b ->
  (forall x, entry (arr_image caller) i j = Some x -> isfinite x = false -> b = true) /\
  (forall variance y, arr_variance caller = Some variance ->
     entry variance i j = Some y -> isfinite y = false -> b = true) /\
  (forall mask, arr_mask caller = Some mask ->
     entry mask i j = Some true -> b = true).
Proof.
  unfold __init__. cbv zeta.
  match goal with
  | |- context [if _remove_outliers cfg then ?a else ?b] =>
      destruct (if _remove_outliers cfg then a else b) as [img' n]
  end.
  cbn [snd obj_mask]. rewrite entry_zip2d.
  set (locs := match arr_variance caller with
               | Some v => zip2d orb (map2d (fun x => negb (isfinite x)) (arr_image caller))
                                     (map2d (fun x => negb (isfinite x)) v)
               | None => map2d (fun x => negb (isfinite x)) (arr_image caller)
               end).
  set (mask0 := match arr_mask caller with
                | Some m => m
                | None => map2d (fun _ => false) (zero_where locs (arr_image caller))
                end).
  destruct (entry mask0 i j) as [m|] eqn:Em; [|discriminate].
  destruct (entry locs i j) as [l|] eqn:El; [|discriminate].
  intros [= <-].
  assert (Hl : (forall x, entry (arr_image caller) i j = Some x ->
                          isfinite x = false -> l = true) /\
               (forall variance y, arr_variance caller = Some variance ->
                  entry variance i j = Some y -> isfinite y = false -> l = true)).
  { unfold locs in El. destruct (arr_variance caller) as [v|].
    - rewrite entry_zip2d, !entry_map2d in El.
      destruct (entry (arr_image caller) i j) as [x0|]; [|discriminate].
      destruct (entry v i j) as [y0|] eqn:Ey; [|discriminate].
      simpl in El. injection El as <-. split.
      + intros x [= <-] Hx. rewrite Hx. reflexivity.
      + intros variance y [= <-] Hy' Hy. rewrite Ey in Hy'. injection Hy' as <-.
        rewrite Hy. apply orb_true_r.
    - rewrite entry_map2d in El.
      destruct (entry (arr_image caller) i j) as [x0|]; [|discriminate].
      simpl in El. injection El as <-. split.
      + intros x [= <-] Hx. rewrite Hx. reflexivity.
      + intros variance y [=]. }
  destruct Hl as [Hl1 Hl2]. split; [|split].
  - intros x Hx Hfin. rewrite (Hl1 x Hx Hfin). apply orb_true_r.
  - intros variance y Hv Hy Hfin. rewrite (Hl2 variance y Hv Hy Hfin). apply orb_true_r.
  - intros mask Hmask Hm. unfold mask0 in Em. rewrite Hmask in Em.
    rewrite Hm in Em. injection Em as <-. reflexivity.
Qed.

End InitFacts.

Section InitExamples.

Import Reference.

(** A 1x2 image with a NaN pixel, no mask, no variance: the pixel is
    masked. *)
Lemma init_masks_invalid_witness :
  let caller := mkArrays [[Fin 1; NaN]] [[1; 1]]%Z None None in
  entry (obj_mask (snd (__init__ plain_config 32 caller))) 0 1 = Some true /\
  ((forall x, entry (arr_image caller) 0 1 = Some x -> isfinite x = false -> true = true) /\
   (forall variance y, arr_variance caller = Some variance ->
      entry variance 0 1 = Some y -> isfinite y = false -> true = true) /\
   (forall mask, arr_mask caller = Some mask ->
      entry mask 0 1 = Some true -> true = true)).
Proof.
  intro caller. split; [reflexivity|].
  apply (@init_masks_invalid scipy numpy plain_config 32 caller 0 1 true).
  reflexivity.
Defined.

End InitExamples.

(** ** Invariance of the Gini coefficient *)

Section GiniInvariance.

Local Open Scope Q_scope.

Lemma Qabs_Qmult_eq k x : Qabs (k * x) = Qabs k * Qabs x.
Proof.
  destruct k as [kn kd], x as [xn xd]. unfold Qabs, Qmult. simpl.
  f_equal. apply Z.abs_mul.
Qed.

Lemma Qabs_positive k : ~ k == 0 -> 0 < Qabs k.
Proof.
  intro Hk. apply Qabs_case; intro H0.
  - destruct (Qlt_le_dec 0 k) as [Hlt|Hle]; [exact Hlt|]. exfalso. apply Hk. lra.
  - destruct (Qlt_le_dec k 0) as [Hlt|Hle]; [lra|]. exfalso. apply Hk. lra.
Qed.

Lemma mask_select_map {A B} (f : A -> B) a m :
  mask_select (map f a) m = map f (mask_select a m).
Proof.
  revert m. induction a as [|x a IH]; intros [|b m]; simpl; try reflexivity.
  destruct b; simpl; rewrite IH; reflexivity.
Qed.

Lemma Qle_bool_scale c x y : 0 < c -> Qle_bool (c * x) (c * y) = Qle_bool x y.
Proof.
  intro Hc. destruct (Qle_bool x y) eqn:E.
  - apply Qle_bool_iff in E. apply Qle_bool_iff. nra.
  - apply Qle_bool_false_iff in E. apply Qle_bool_false_iff. nra.
Qed.

Lemma insert_scale c x l :
  0 < c -> insert (c * x) (map (Qmult c) l) = map (Qmult c) (insert x l).
Proof.
  intro Hc. induction l as [|y l IH]; simpl; [reflexivity|].
  rewrite Qle_bool_scale by exact Hc.
  destruct (Qle_bool x y); simpl; [reflexivity|]. rewrite IH. reflexivity.
Qed.

Lemma np_sort_scale c l :
  0 < c -> np_sort (map (Qmult c) l) = map (Qmult c) (np_sort l).
Proof.
  intro Hc. induction l as [|x l IH]; simpl; [reflexivity|].
  rewrite IH. apply insert_scale. exact Hc.
Qed.

Lemma sorted_pixelvals_scale k cutout segmap_gini :
  ~ k == 0 ->
  sorted_pixelvals (map2d (Qmult k) cutout) segmap_gini
  = map (Qmult (Qabs k)) (sorted_pixelvals cutout segmap_gini).
Proof.
  intro Hk. unfold sorted_pixelvals. cbv zeta.
  rewrite flatten_map2d, mask_select_map, map_map.
  rewrite <- np_sort_scale.
  - f_equal. rewrite map_map. apply map_ext. intro x. apply Qabs_Qmult_eq.
  - apply Qabs_positive. exact Hk.
Qed.

Lemma Qsum_scale c l : Qsum (map (Qmult c) l) == c * Qsum l.
Proof.
  induction l as [|x l IH]; simpl; [ring|]. rewrite IH. ring.
Qed.

Lemma Qsum_zip_scale c coeffs l :
  Qsum (zip_with Qmult coeffs (map (Qmult c) l)) == c * Qsum (zip_with Qmult coeffs l).
Proof.
  revert l. induction coeffs as [|a coeffs IH]; intros [|x l]; simpl; try ring.
  rewrite IH. ring.
Qed.


End GiniInvariance.

Section GiniInvarianceExamples.

Local Open Scope Q_scope.


End GiniInvarianceExamples.

(** ** The MID segmap and cutout *)

Section MidFacts.

Context `{Ndimage}.
Local Open Scope Q_scope.

Lemma np_index_nth_error {A} (l : list A) (i : nat) x :
  nth_error l i = Some x -> np_index l (Z.of_nat i) = Some x.
Proof.
  intro E. unfold np_index. cbv zeta.
  assert (Hi : (i < length l)%nat) by (apply nth_error_Some; congruence).
  replace ((0 <=? Z.of_nat i) && (Z.of_nat i <? Z.of_nat (length l)))%Z with true.
  - rewrite Nat2Z.id. exact E.
  - symmetry. apply andb_true_iff. split; [apply Z.leb_le|apply Z.ltb_lt]; lia.
Qed.

Lemma np_index2_entry {A} (a : list (list A)) (i j : nat) x :
  entry a i j = Some x -> np_index2 a (Z.of_nat i) (Z.of_nat j) = Some x.
Proof.
  unfold entry, np_index2. destruct (nth_error a i) as [row|] eqn:E; [|discriminate].
  intro Ej. rewrite (np_index_nth_error _ _ E). apply np_index_nth_error. exact Ej.
Qed.

(** X26.  The sanity check of [_segmap_mid_main_clump] holds: when the
    position handed to it is that of a brightest pixel of the non-negative
    cutout, the threshold of every quantile in [[0, 1]] is at most that
    pixel, so the pixel is above the threshold; then, provided [ndi.label]
    gives a non-zero label to that pixel whenever it is above the
    threshold, the method raises neither AssertionError nor IndexError and
    returns a clump that contains the brightest pixel. *)
Theorem main_clump_contains_brightest (props : source_props) (slice_stamp : boxslice)
    (y_maxval_stamp x_maxval_stamp q v : Q) (i j : nat) :
  let cutout := _cutout_stamp_maskzeroed_no_bg_nonnegative props slice_stamp in
  let sorted := _sorted_pixelvals_stamp_no_bg_nonnegative props slice_stamp in
  py_int y_maxval_stamp = Z.of_nat i ->
  py_int x_maxval_stamp = Z.of_nat j ->
  entry cutout i j = Some v ->
  (forall w, In w (flatten cutout) -> w <= v) ->
  0 <= q <= 1 ->
  sorted <> [] ->
  (forall t, let a := map2d (fun w => Qle_bool t w) cutout in
     entry a i j = Some true ->
     exists l, entry (ndi_label a) i j = Some l /\ l <> 0%Z) ->
  exists threshold segmap,
    _quantile sorted q = Ok threshold /\ threshold <= v /\
    _segmap_mid_main_clump cutout sorted y_maxval_stamp x_maxval_stamp q = Ok segmap /\
    entry segmap i j = Some true.
Proof.
  intros cutout sorted Hi Hj Hv Hmax Hq Hne Hlabel.
  destruct (quantile_value Hne Hq) as (k & Hk & E & _).
  set (threshold := nth k sorted 0) in *.
  assert (Hin : In threshold (flatten cutout)).
  { assert (Hs : In threshold sorted) by (apply nth_In; exact Hk).
    unfold sorted, _sorted_pixelvals_stamp_no_bg_nonnegative in Hs. cbv zeta in Hs.
    apply (Permutation_in _ (np_sort_perm _)) in Hs.
    apply unmasked_values_In in Hs. exact Hs. }
  assert (Hle : threshold <= v) by (apply Hmax; exact Hin).
  assert (Habove : entry (map2d (fun w => Qle_bool threshold w) cutout) i j = Some true).
  { rewrite entry_map2d, Hv. simpl. f_equal. apply Qle_bool_iff. exact Hle. }
  destruct (Hlabel threshold Habove) as (l & Hl & Hnz).
  exists threshold. eexists. split; [exact E|]. split; [exact Hle|].
  unfold _segmap_mid_main_clump. rewrite E. cbv zeta. rewrite Hi, Hj.
  rewrite (np_index2_entry _ _ _ Hl).
  replace (l =? 0)%Z with false by (symmetry; apply Z.eqb_neq; exact Hnz).
  split; [reflexivity|].
  rewrite entry_map2d, Hl. simpl. rewrite Z.eqb_refl. reflexivity.
Qed.

Lemma cutout_mid_nonneg cutout_nonnegative segmap_mid :
  nonnegative cutout_nonnegative ->
  nonnegative (_cutout_mid cutout_nonnegative segmap_mid).
Proof.
  unfold nonnegative, _cutout_mid, zip2d. intro Hc. revert segmap_mid.
  induction Hc as [|r c Hr _ IH]; intros [|m segmap_mid]; simpl; constructor;
    [|apply IH].
  revert m. induction Hr as [|x r Hx _ IHr]; intros [|b m]; simpl; constructor;
    [destruct b; [exact Hx|lra]|apply IHr].
Qed.

(** X27.  The "ratio" that the multimode search minimises is negative
    exactly when it is valid.  On the MID cutout of a non-negative cutout,
    whenever [_multimode_ratio] returns: its value is negative if and only
    if the quantile lies in [[0, 1]] and [_multimode_function] found two
    clumps or more there; otherwise it is the sum of the MID cutout, which
    is not negative. *)
Theorem multimode_ratio_sign (cutout_nonnegative : image) (segmap_mid : bmask)
    (sorted_pixelvals_mid : list Q) (q r : Q) :
  let cutout_mid := _cutout_mid cutout_nonnegative segmap_mid in
  nonnegative cutout_nonnegative ->
  _multimode_ratio cutout_mid sorted_pixelvals_mid q = Ok r ->
  0 <= Qsum (flatten cutout_mid) /\
  (r < 0 <->
   0 <= q <= 1 /\
   exists a1 a2 t,
     _multimode_function cutout_mid sorted_pixelvals_mid q = Ok (a1 :: a2 :: t)) /\
  (0 <= r -> r = Qsum (flatten cutout_mid)).
Proof.
  intros cutout_mid Hnn.
  assert (Hsum : 0 <= Qsum (flatten cutout_mid)).
  { apply Qsum_nonneg. apply flatten_Forall.
    apply cutout_mid_nonneg. exact Hnn. }
  unfold _multimode_ratio. cbv zeta.
  destruct (Qltb q 0) eqn:E0.
  { cbn [orb]. intros [= <-]. split; [exact Hsum|]. split; [|reflexivity].
    apply Qltb_iff in E0. split; [lra|]. intros [[Hq _] _]. lra. }
  destruct (Qltb 1 q) eqn:E1.
  { cbn [orb]. intros [= <-]. split; [exact Hsum|]. split; [|reflexivity].
    apply Qltb_iff in E1. split; [lra|]. intros [[_ Hq] _]. lra. }
  cbn [orb]. apply Qltb_false_iff in E0, E1.
  destruct (_multimode_function cutout_mid sorted_pixelvals_mid q)
    as [sorted_counts|e] eqn:Ef; [|discriminate].
  destruct (multimode_function_counts _ _ _ Ef) as [Hpos _].
  destruct sorted_counts as [|a1 [|a2 t]].
  - discriminate.
  - cbn [length Nat.eqb]. intros [= <-]. split; [exact Hsum|]. split; [|reflexivity].
    split; [lra|]. intros [_ (b1 & b2 & t' & Ht)]. discriminate.
  - cbn [length Nat.eqb].
    inversion Hpos as [|? ? H1 Hpos']; subst. inversion Hpos' as [|? ? H2 _]; subst.
    replace (a1 =? 0)%Z with false by (symmetry; apply Z.eqb_neq; lia).
    intros [= <-]. split; [exact Hsum|].
    assert (Ha1 : 0 < inject_Z a1).
    { change 0 with (inject_Z 0). rewrite <- Zlt_Qlt. lia. }
    assert (Ha2 : 0 < inject_Z a2).
    { change 0 with (inject_Z 0). rewrite <- Zlt_Qlt. lia. }
    assert (Hneg : -1 * inject_Z a2 ^ 2 / inject_Z a1 < 0).
    { apply Qlt_shift_div_r; [exact Ha1|]. simpl. nra. }
    split.
    + split; [|intros _; exact Hneg]. intros _. split; [lra|].
      exists a1, a2, t. reflexivity.
    + intro Hr. exfalso. apply (Qlt_not_le _ _ Hneg). exact Hr.
Qed.

End MidFacts.

Section MidExamples.

Import Reference.
Local Open Scope Q_scope.

(** A source of three pixels in a row, 2, 0 and 5, the brightest last. *)
Lemma main_clump_contains_brightest_witness :
  let p := mkProps [[2; 0; 5]] [[1; 1; 1]]%Z None 1 (0.5, 1.5) ((0, 0), (0, 2))%Z in
  let sl := ((0, 1), (0, 3))%Z in
  let cutout := _cutout_stamp_maskzeroed_no_bg_nonnegative p sl in
  let sorted := _sorted_pixelvals_stamp_no_bg_nonnegative p sl in
  exists threshold segmap,
    _quantile sorted 0.5 = Ok threshold /\ threshold <= 5 /\
    _segmap_mid_main_clump cutout sorted 0 2 0.5 = Ok segmap /\
    entry segmap 0 2 = Some true.
Proof.
  intros p sl cutout sorted.
  apply (@main_clump_contains_brightest ndimage p sl 0 2 0.5 5 0 2).
  - reflexivity.
  - reflexivity.
  - reflexivity.
  - intros w Hw. vm_compute in Hw.
    destruct Hw as [<-|[<-|[<-|[]]]]; unfold Qle; simpl; lia.
  - split; unfold Qle; simpl; lia.
  - vm_compute. discriminate.
  - intros t a Ha. unfold a in *. clear a.
    change (_cutout_stamp_maskzeroed_no_bg_nonnegative p sl) with [[2; 0; 5]] in *.
    cbn [map2d map] in *.
    destruct (Qle_bool t 2), (Qle_bool t 0), (Qle_bool t 5);
      try discriminate; eexists; (split; [vm_compute; reflexivity|discriminate]).
Defined.

(** The same three pixels as MID cutout: at the median they are two
    clumps of one pixel, and the ratio is -1. *)
Lemma multimode_ratio_sign_witness :
  let cutout_mid := _cutout_mid [[2; 0; 5]] [[true; true; true]] in
  0 <= Qsum (flatten cutout_mid) /\
  (-1 * inject_Z 1 ^ 2 / inject_Z 1 < 0 <->
   0 <= 0.5 <= 1 /\
   exists a1 a2 t, _multimode_function cutout_mid [0; 2; 5] 0.5 = Ok (a1 :: a2 :: t)) /\
  (0 <= -1 * inject_Z 1 ^ 2 / inject_Z 1 ->
   -1 * inject_Z 1 ^ 2 / inject_Z 1 = Qsum (flatten cutout_mid)).
Proof.
  apply (@multimode_ratio_sign ndimage [[2; 0; 5]] [[true; true; true]] [0; 2; 5] 0.5
           (-1 * inject_Z 1 ^ 2 / inject_Z 1)).
  - repeat constructor; unfold Qle; simpl; lia.
  - vm_compute. reflexivity.
Defined.

End MidExamples.

(** ** The asymmetry of a symmetric source *)

Section SymmetryFacts.

Context `{Photutils} `{Skimage}.
Variable cfg : config.
Variable lv : lazy_values.
Local Open Scope Q_scope.

Lemma zip2d_minus_diag (a : image) :
  Forall (Forall (fun v => v == 0)) (map2d Qabs (zip2d Qminus a a)).
Proof.
  unfold map2d, zip2d. rewrite zip_with_diag, map_map.
  apply Forall_forall. intros row Hrow. apply in_map_iff in Hrow.
  destruct Hrow as [r [<- _]]. rewrite zip_with_diag, map_map.
  apply Forall_forall. intros x Hx. apply in_map_iff in Hx.
  destruct Hx as [y [<- _]].
  assert (E : y - y == 0) by ring. rewrite E. reflexivity.
Qed.

(** X28.  A source that is its own image under the rotation by 180
    degrees about the centre has no asymmetry of its own: when the aperture
    sum of a zero image is zero, the difference term of
    [_asymmetry_function] vanishes, so the shape asymmetry is 0, and the CAS
    and outer asymmetries are 0 without a sky box and the negative sky
    correction [- area * sky / sum] with one. *)
Theorem symmetric_source_asymmetry (center : point) (img : image) (k : kind)
    (ap : aperture) (s : state) :
  in_bounds center (fst (shape img)) (snd (shape img)) ->
  rotate180 img center = img ->
  select_aperture cfg lv center k = Some ap ->
  (forall z, Forall (Forall (fun v => v == 0)) z -> do_photometry ap z == 0) ->
  ~ ap_abs_sum lv ap center img == 0 ->
  exists a,
    _asymmetry_function cfg lv center img k s = Returned a s /\
    match k, lv_sky_asymmetry lv with
    | Shape, _ => a == 0
    | _, Fin sky =>
        a == - (_aperture_area ap (mask_symmetric lv center) * sky)
             / ap_abs_sum lv ap center img
    | _, _ => a == 0
    end.
Proof.
  intros Hin Hsym Hap Hzero Hsum.
  assert (Hdiff : ap_abs_diff lv ap center img == 0).
  { unfold ap_abs_diff, masked_image_180, masked_image. rewrite Hsym.
    apply Hzero. apply zip2d_minus_diag. }
  unfold _asymmetry_function.
  pose proof (in_bounds_test img Hin) as Hb.
  destruct (shape img) as [ny nx]. destruct center as [xc yc].
  cbn [fst snd] in Hb. rewrite Hb, Hap.
  replace (Qeq_bool (ap_abs_sum lv ap (xc, yc) img) 0) with false
    by (symmetry; apply Qeq_bool_false_iff; exact Hsum).
  destruct k.
  - destruct (lv_sky_asymmetry lv) as [sky| | |]; eexists; (split; [reflexivity|]);
      rewrite Hdiff; field; exact Hsum.
  - destruct (lv_sky_asymmetry lv) as [sky| | |]; eexists; (split; [reflexivity|]);
      rewrite Hdiff; field; exact Hsum.
  - eexists. split; [reflexivity|].
    destruct (lv_sky_asymmetry lv); rewrite Hdiff; field; exact Hsum.
Qed.

End SymmetryFacts.

Section SymmetryExamples.

Import Reference.
Local Open Scope Q_scope.

(** The reference photometry of a zero image is zero. *)
Lemma center_photometry_zero ap z :
  Forall (Forall (fun v => v == 0)) z -> center_photometry ap z == 0.
Proof.
  intro Hz. unfold center_photometry. cbv zeta. apply Qsum_zero.
  apply Forall_forall. intros x Hx. apply in_map_iff in Hx.
  destruct Hx as [[i row] [<- Hrow]]. apply in_combine_r in Hrow.
  rewrite Forall_forall in Hz. specialize (Hz row Hrow).
  apply Qsum_zero. apply Forall_forall. intros y Hy. apply in_map_iff in Hy.
  destruct Hy as [[j v] [<- Hv]]. apply in_combine_r in Hv.
  rewrite Forall_forall in Hz. specialize (Hz v Hv).
  destruct (inside (reduced ap) i j); [exact Hz|reflexivity].
Qed.

(** A 3x3 stamp symmetric about its central pixel, within 2 pixels. *)
Lemma symmetric_source_asymmetry_witness :
  exists a,
    _asymmetry_function default_config lazy3 (1, 1)
      [[1; 2; 3]; [4; 5; 4]; [3; 2; 1]] Shape (s0 32) = Returned a (s0 32) /\
    a == 0.
Proof.
  apply (@symmetric_source_asymmetry photutils skimage default_config lazy3 (1, 1)
           [[1; 2; 3]; [4; 5; 4]; [3; 2; 1]] Shape (CircularAperture (1, 1) 2) (s0 32)).
  - repeat split; unfold Qle, Qlt; simpl; lia.
  - reflexivity.
  - reflexivity.
  - intros z Hz. apply center_photometry_zero. exact Hz.
  - vm_compute. discriminate.
Defined.

End SymmetryExamples.
